(** * A shallow embedding of the VT-100 escape-sequence lexer (package vt100)

    The development follows vt100.go: the token catalog (const pool, literal
    pool and the label map built by [init]), the [Token] and [Lexer] records,
    the driver loop [run] and the chain of state functions ([ground],
    [intermediateChar], [afterLeftSquareBracket], [interpTerm], ...).

    Representation choices.
    - A Go [byte] is a [Z] in 0..255; [int] and [TokVal] are [Z].
    - A Go slice is [option (list _)]: [None] is the nil slice, which the
      driver distinguishes from a non-nil one ([l.seq != nil]).
    - The two channels are not modelled as queues.  The bytes read from
      [l.input] are the input list of [run]; the tokens written to
      [l.Output] are collected, in order, in the list [Output] (the reader
      is taken to drain the channel, so that [send] never blocks for good).
      [Rundown] and the wait group play no part in what is lexed.
    - A token holds the slice [l.seq] itself.  Later appends to [l.seq] go
      past the length the token saw, and a new sequence starts from a fresh
      slice, so the bytes a token shows never change: lists are enough.
    - A state function is a tag of type [stateFn]; the Go method values
      [l.ground], [l.intermediateChar], ... are the constructors. *)

From stdpp Require Import base gmap list strings.
From Stdlib Require Import ZArith Ascii Lia.
From Stdlib Require DecimalString.

#[local] Open Scope string_scope.
#[local] Open Scope list_scope.
#[local] Open Scope Z_scope.

(** ** Bytes, characters and string literals *)

(** A Go [byte], as an integer in 0..255. *)
Abbreviation byte := Z (only parsing).

(** The code of a character literal such as ['h']. *)
Definition ch (a : ascii) : byte := Z.of_N (N_of_ascii a).

(** The bytes of a string literal such as ["20h"]. *)
Definition str (s : string) : list byte := ch <$> String.list_ascii_of_string s.

(** ** Token catalog (const pool) *)

Module Catalog.

(** [type TokVal int] *)
Abbreviation TokVal := Z (only parsing).

(** [-(iota + 1)]: starts at -1 and goes to -n. *)
Definition iota_neg (iota : Z) : TokVal := - (iota + 1).

Definition Align : TokVal := iota_neg 0.
Definition AltKeypad : TokVal := iota_neg 1.
Definition Blink : TokVal := iota_neg 2.
Definition Bold : TokVal := iota_neg 3.
Definition ClearBOL : TokVal := iota_neg 4.
Definition ClearBOS : TokVal := iota_neg 5.
Definition ClearEOL : TokVal := iota_neg 6.
Definition ClearEOS : TokVal := iota_neg 7.
Definition ClearLine : TokVal := iota_neg 8.
Definition ClearScreen : TokVal := iota_neg 9.
Definition CursorDn : TokVal := iota_neg 10.
Definition CursorHome : TokVal := iota_neg 11.
Definition CursorLf : TokVal := iota_neg 12.
Definition CursorPos : TokVal := iota_neg 13.
Definition CursorRt : TokVal := iota_neg 14.
Definition CursorUp : TokVal := iota_neg 15.
Definition DevStat : TokVal := iota_neg 16.
Definition DhBot : TokVal := iota_neg 17.
Definition DhTop : TokVal := iota_neg 18.
Definition Dwsh : TokVal := iota_neg 19.
Definition GetCursor : TokVal := iota_neg 20.
Definition HvHome : TokVal := iota_neg 21.
Definition HvPos : TokVal := iota_neg 22.
Definition Ident : TokVal := iota_neg 23.
Definition Index : TokVal := iota_neg 24.
Definition Invisible : TokVal := iota_neg 25.
Definition Led1 : TokVal := iota_neg 26.
Definition Led2 : TokVal := iota_neg 27.
Definition Led3 : TokVal := iota_neg 28.
Definition Led4 : TokVal := iota_neg 29.
Definition LedsOff : TokVal := iota_neg 30.
Definition LowInt : TokVal := iota_neg 31.
Definition ModesOff : TokVal := iota_neg 32.
Definition NextLine : TokVal := iota_neg 33.
Definition NumKeypad : TokVal := iota_neg 34.
Definition Reset : TokVal := iota_neg 35.
Definition ResetCol : TokVal := iota_neg 36.
Definition ResetInter : TokVal := iota_neg 37.
Definition ResetRep : TokVal := iota_neg 38.
Definition ResetWrap : TokVal := iota_neg 39.
Definition RestoreCursor : TokVal := iota_neg 40.
Definition Reverse : TokVal := iota_neg 41.
Definition RevIndex : TokVal := iota_neg 42.
Definition SaveCursor : TokVal := iota_neg 43.
Definition SetAltG0 : TokVal := iota_neg 44.
Definition SetAltG1 : TokVal := iota_neg 45.
Definition SetAltSpecG0 : TokVal := iota_neg 46.
Definition SetAltSpecG1 : TokVal := iota_neg 47.
Definition SetAppl : TokVal := iota_neg 48.
Definition SetCol : TokVal := iota_neg 49.
Definition SetCursor : TokVal := iota_neg 50.
Definition SetInter : TokVal := iota_neg 51.
Definition SetJump : TokVal := iota_neg 52.
Definition SetLF : TokVal := iota_neg 53.
Definition SetNL : TokVal := iota_neg 54.
Definition SetNormScrn : TokVal := iota_neg 55.
Definition SetOrgAbs : TokVal := iota_neg 56.
Definition SetOrgRel : TokVal := iota_neg 57.
Definition SetRep : TokVal := iota_neg 58.
Definition SetRevScrn : TokVal := iota_neg 59.
Definition SetSmooth : TokVal := iota_neg 60.
Definition SetSpecG0 : TokVal := iota_neg 61.
Definition SetSpecG1 : TokVal := iota_neg 62.
Definition SetSS2 : TokVal := iota_neg 63.
Definition SetSS3 : TokVal := iota_neg 64.
Definition SetUKG0 : TokVal := iota_neg 65.
Definition SetUKG1 : TokVal := iota_neg 66.
Definition SetUSG0 : TokVal := iota_neg 67.
Definition SetUSG1 : TokVal := iota_neg 68.
Definition SetVT52 : TokVal := iota_neg 69.
Definition SetWin : TokVal := iota_neg 70.
Definition SetWrap : TokVal := iota_neg 71.
Definition Swsh : TokVal := iota_neg 72.
Definition TabClr : TokVal := iota_neg 73.
Definition TabClrAll : TokVal := iota_neg 74.
Definition TabSet : TokVal := iota_neg 75.
Definition TestLB : TokVal := iota_neg 76.
Definition TestLBRep : TokVal := iota_neg 77.
Definition TestPU : TokVal := iota_neg 78.
Definition TestPURep : TokVal := iota_neg 79.
Definition Underline : TokVal := iota_neg 80.

(** The literal pool. *)
Definition data : string :=
  "Align AltKeypad Blink Bold ClearBOL
ClearBOS ClearEOL ClearEOS ClearLine ClearScreen CursorDn CursorHome
CursorLf CursorPos CursorRt CursorUp DevStat DhBot DhTop Dwsh GetCursor
HvHome HvPos Ident Index Invisible Led1 Led2 Led3 Led4 LedsOff LowInt
ModesOff NextLine NumKeypad Reset ResetCol ResetInter ResetRep ResetWrap
RestoreCursor Reverse RevIndex SaveCursor SetAltG0 SetAltG1 SetAltSpecG0
SetAltSpecG1 SetAppl SetCol SetCursor SetInter SetJump SetLF SetNL
SetNormScrn SetOrgAbs SetOrgRel SetRep SetRevScrn SetSmooth SetSpecG0
SetSpecG1 SetSS2 SetSS3 SetUKG0 SetUKG1 SetUSG0 SetUSG1 SetVT52 SetWin
SetWrap Swsh TabClr TabClrAll TabSet TestLB TestLBRep TestPU TestPURep
Underline".

(** White space as [fmt] sees it in ASCII text. *)
Definition is_space_ascii (a : ascii) : bool :=
  let n := ch a in ((9 <=? n) && (n <=? 13)) || (n =? 32).

(** [fmt.Fscan(data, &s)] called until it fails: every successful call
    skips white space (newlines included) and reads one maximal run of
    non-space characters.  [scan_words cur buf] is the sequence of strings
    so read from [buf], [cur] holding the characters of the word in
    progress in reverse. *)
Fixpoint scan_words (cur : list ascii) (buf : list ascii) : list string :=
  let flush := match cur with
               | [] => []
               | _ => [String.string_of_list_ascii (rev cur)]
               end in
  match buf with
  | [] => flush
  | a :: buf' =>
      if is_space_ascii a then flush ++ scan_words [] buf'
      else scan_words (a :: cur) buf'
  end.

(** The loop of [init]: [labelMap[t] = s; t--] for every word read. *)
Fixpoint init_loop (ws : list string) (t : TokVal) (m : gmap Z string)
  : gmap Z string :=
  match ws with
  | [] => m
  | s :: ws' => init_loop ws' (t - 1) (<[t := s]> m)
  end.

(** [init]: [None] stands for the panic on a symbol count other than 81. *)
Definition init : option (gmap Z string) :=
  let m := init_loop (scan_words [] (String.list_ascii_of_string data)) (-1) ∅ in
  if decide (size m = 81%nat) then Some m else None.

Definition labelMap : gmap Z string := default ∅ init.

(** [func (t TokVal) String() string] *)
Definition String (t : TokVal) : string :=
  match labelMap !! t with
  | Some l => l
  | None => "?"
  end.

(** The const pool as a table: every named discriminator with its
    identifier. *)
Definition named : list (TokVal * string) :=
  [ (Align, "Align"); (AltKeypad, "AltKeypad"); (Blink, "Blink");
    (Bold, "Bold"); (ClearBOL, "ClearBOL"); (ClearBOS, "ClearBOS");
    (ClearEOL, "ClearEOL"); (ClearEOS, "ClearEOS");
    (ClearLine, "ClearLine"); (ClearScreen, "ClearScreen");
    (CursorDn, "CursorDn"); (CursorHome, "CursorHome");
    (CursorLf, "CursorLf"); (CursorPos, "CursorPos");
    (CursorRt, "CursorRt"); (CursorUp, "CursorUp"); (DevStat, "DevStat");
    (DhBot, "DhBot"); (DhTop, "DhTop"); (Dwsh, "Dwsh");
    (GetCursor, "GetCursor"); (HvHome, "HvHome"); (HvPos, "HvPos");
    (Ident, "Ident"); (Index, "Index"); (Invisible, "Invisible");
    (Led1, "Led1"); (Led2, "Led2"); (Led3, "Led3"); (Led4, "Led4");
    (LedsOff, "LedsOff"); (LowInt, "LowInt"); (ModesOff, "ModesOff");
    (NextLine, "NextLine"); (NumKeypad, "NumKeypad"); (Reset, "Reset");
    (ResetCol, "ResetCol"); (ResetInter, "ResetInter");
    (ResetRep, "ResetRep"); (ResetWrap, "ResetWrap");
    (RestoreCursor, "RestoreCursor"); (Reverse, "Reverse");
    (RevIndex, "RevIndex"); (SaveCursor, "SaveCursor");
    (SetAltG0, "SetAltG0"); (SetAltG1, "SetAltG1");
    (SetAltSpecG0, "SetAltSpecG0"); (SetAltSpecG1, "SetAltSpecG1");
    (SetAppl, "SetAppl"); (SetCol, "SetCol"); (SetCursor, "SetCursor");
    (SetInter, "SetInter"); (SetJump, "SetJump"); (SetLF, "SetLF");
    (SetNL, "SetNL"); (SetNormScrn, "SetNormScrn");
    (SetOrgAbs, "SetOrgAbs"); (SetOrgRel, "SetOrgRel"); (SetRep, "SetRep");
    (SetRevScrn, "SetRevScrn"); (SetSmooth, "SetSmooth");
    (SetSpecG0, "SetSpecG0"); (SetSpecG1, "SetSpecG1"); (SetSS2, "SetSS2");
    (SetSS3, "SetSS3"); (SetUKG0, "SetUKG0"); (SetUKG1, "SetUKG1");
    (SetUSG0, "SetUSG0"); (SetUSG1, "SetUSG1"); (SetVT52, "SetVT52");
    (SetWin, "SetWin"); (SetWrap, "SetWrap"); (Swsh, "Swsh");
    (TabClr, "TabClr"); (TabClrAll, "TabClrAll"); (TabSet, "TabSet");
    (TestLB, "TestLB"); (TestLBRep, "TestLBRep"); (TestPU, "TestPU");
    (TestPURep, "TestPURep"); (Underline, "Underline") ].

End Catalog.
Export Catalog.

(** ** Library functions the lexer calls

    These are models of the Go standard library, restricted to what the
    lexer passes to them.  Every byte that reaches them went through
    [c &= 0x7f] in [run], so a byte is one rune. *)

Definition in_range (lo hi r : Z) : bool := (lo <=? r) && (r <=? hi).

(** Package [unicode], on the Latin-1 range (all a [byte] can hold). *)
Module unicode.

Definition IsDigit (r : Z) : bool := in_range 48 57 r.

Definition IsLetter (r : Z) : bool :=
  in_range 65 90 r || in_range 97 122 r
  || (r =? 0xAA) || (r =? 0xB5) || (r =? 0xBA)
  || in_range 0xC0 0xD6 r || in_range 0xD8 0xF6 r || in_range 0xF8 0xFF r.

Definition IsSpace (r : Z) : bool :=
  in_range 9 13 r || (r =? 32) || (r =? 0x85) || (r =? 0xA0).

Definition IsPrint (r : Z) : bool :=
  in_range 0x20 0x7E r || in_range 0xA1 0xAC r || in_range 0xAE 0xFF r.

End unicode.

(** [strconv.ParseUint(s, 10, 64)] on 64-bit unsigned arithmetic. *)
Module strconv.

Definition maxUint64 : Z := 2 ^ 64 - 1.
Definition cutoff : Z := maxUint64 / 10 + 1.

(** The digit loop; [None] is a syntax or range error. *)
Fixpoint ParseUint_loop (n : Z) (s : list byte) : option Z :=
  match s with
  | [] => Some n
  | c :: s' =>
      if in_range 48 57 c then
        let d := c - 48 in
        if cutoff <=? n then None                 (* n*base overflows *)
        else
          let n := (n * 10) mod 2 ^ 64 in
          let n1 := (n + d) mod 2 ^ 64 in
          if (n1 <? n) || (maxUint64 <? n1) then None   (* n+d overflows *)
          else ParseUint_loop n1 s'
      else None                                   (* not a digit of base 10 *)
  end.

Definition ParseUint (s : list byte) : option Z :=
  match s with
  | [] => None
  | _ => ParseUint_loop 0 s
  end.

End strconv.

(** [fmt.Sscanf] for formats made of [%d] verbs and literal characters,
    scanning into [*byte] (uint8) operands. *)
Module fmt.

(** [SkipSpace] as [Sscanf] runs it (a newline is not a space there);
    [None] is the error "unexpected newline". *)
Fixpoint SkipSpace (inp : list byte) : option (list byte) :=
  match inp with
  | [] => Some []
  | r :: inp' =>
      if (r =? 13) && (match inp' with 10 :: _ => true | _ => false end)
      then SkipSpace inp'
      else if r =? 10 then None
      else if negb (unicode.IsSpace r) then Some inp
      else SkipSpace inp'
  end.

(** [for s.accept(digits) {}]: the digits read and the input left. *)
Fixpoint accept_digits (inp : list byte) : list byte * list byte :=
  match inp with
  | r :: inp' =>
      if unicode.IsDigit r
      then let '(tok, rest) := accept_digits inp' in (r :: tok, rest)
      else ([], inp)
  | [] => ([], [])
  end.

(** [scanNumber(decimalDigits, false)]: at least one digit. *)
Definition scanNumber (inp : list byte) : option (list byte * list byte) :=
  match inp with
  | [] => None                                     (* io.EOF *)
  | r :: inp' =>
      if unicode.IsDigit r
      then let '(tok, rest) := accept_digits inp' in Some (r :: tok, rest)
      else None                                    (* expected integer *)
  end.

(** [scanUint('d', 8)]: no sign is accepted, and a value that does not
    survive truncation to 8 bits is an overflow error. *)
Definition scanUint8 (inp : list byte) : option (Z * list byte) :=
  inp ← SkipSpace inp;
  '(tok, rest) ← scanNumber inp;
  i ← strconv.ParseUint tok;
  let x := Z.shiftr (Z.shiftl i 56 mod 2 ^ 64) 56 in
  if x =? i then Some (i, rest) else None.

Inductive directive :=
| Verb_d                (* [%d] *)
| Lit (c : byte).       (* a literal character of the format *)

(** [doScanf]: [vals] are the operands stored so far (so [numProcessed] is
    their number), [nargs] the number of operands passed.  The result is
    the operands stored and whether [err] is nil. *)
Fixpoint doScanf (format : list directive) (inp : list byte)
    (nargs : nat) (vals : list Z) : list Z * bool :=
  match format with
  | [] => (vals, bool_decide (nargs ≤ length vals)%nat)   (* too many operands *)
  | Lit c :: format' =>
      match inp with
      | [] => (vals, false)                        (* unexpected EOF *)
      | r :: inp' =>
          if r =? c then doScanf format' inp' nargs vals
          else (vals, false)                       (* input does not match format *)
      end
  | Verb_d :: format' =>
      match SkipSpace inp with
      | None => (vals, false)
      | Some inp =>
          if bool_decide (nargs ≤ length vals)%nat then (vals, false)  (* too few operands *)
          else match scanUint8 inp with
               | None => (vals, false)
               | Some (v, rest) => doScanf format' rest nargs (vals ++ [v])
               end
      end
  end.

(** [n, err := fmt.Sscanf(body, format, &a1, ..., &a_nargs)]: the values
    stored (their number is [n]) and [err == nil]. *)
Definition Sscanf (body : list byte) (format : list directive) (nargs : nat)
  : list Z * bool :=
  doScanf format body nargs [].

(** The two formats of the lexer. *)
Definition fmt_d : list directive := [Verb_d].                       (* "%d" *)
Definition fmt_d_d : list directive := [Verb_d; Lit (ch ";"); Verb_d]. (* "%d;%d" *)

End fmt.

(** ** Tokens and the lexer state *)

(** [type Token struct].  The Go field [seq] is [tok_seq] here, the name
    [seq] being taken by the field of [Lexer]. *)
Record Token := mkToken {
  Value : TokVal;                 (* unique integer value *)
  Params : option (list Z);       (* parameters, if any *)
  tok_seq : option (list byte)    (* captured escape sequence *)
}.

(** The state of the scanner: which state function runs next. *)
Inductive stateFn :=
| Ground
| IntermediateChar
| AfterLeftSquareBracket
| AfterLeftParen
| AfterRightParen
| EscPound
| EscapeDigit.

(** [type Lexer struct].  [Output] holds the tokens sent on the output
    channel so far, oldest first. *)
Record Lexer := mkLexer {
  Output : list Token;
  paramCharsAccum : option (list byte);
  params : option (list Z);
  seq : option (list byte)
}.

(** [NewLexer]: all slices nil, nothing sent yet. *)
Definition NewLexer : Lexer := mkLexer [] None None None.

#[global] Instance stateFn_eq_dec : EqDecision stateFn.
Proof. solve_decision. Defined.

(** ** Methods of the lexer: a state monad with panics *)

(** A method body reads and writes the [Lexer] and may panic ([None]),
    which in this program only a slice expression out of range can cause. *)
Definition M (A : Type) : Type := Lexer → option (A * Lexer).

Definition ret {A} (a : A) : M A := λ l, Some (a, l).

Definition bind {A B} (m : M A) (k : A → M B) : M B :=
  λ l, match m l with
       | Some (a, l') => k a l'
       | None => None
       end.

Notation "'do' x <- m ;; k" := (bind m (λ x, k))
  (at level 10, x name, m at level 99, k at level 200).
Notation "m ;; k" := (bind m (λ _, k))
  (at level 100, k at level 200, right associativity).

Definition skip : M unit := ret tt.

(** [switch x { case k1: a1 ... default: d }]: the first case whose key
    equals [x]. *)
Fixpoint switch {K A} `{EqDecision K} (x : K) (cases : list (K * A))
    (default : A) : A :=
  match cases with
  | [] => default
  | (k, a) :: cases' => if decide (x = k) then a else switch x cases' default
  end.

(** [l.Output <- &Token{tv, l.params, l.seq}] *)
Definition send (tv : TokVal) : M unit :=
  λ l, Some (tt, mkLexer (Output l ++ [mkToken tv (params l) (seq l)])
                         (paramCharsAccum l) (params l) (seq l)).

(** [l.paramCharsAccum, l.params, l.seq = nil, nil, nil] *)
Definition reset : M unit :=
  λ l, Some (tt, mkLexer (Output l) None None None).

Definition set_seq (s : option (list byte)) : M unit :=
  λ l, Some (tt, mkLexer (Output l) (paramCharsAccum l) (params l) s).

Definition set_params (ps : list Z) : M unit :=
  λ l, Some (tt, mkLexer (Output l) (paramCharsAccum l) (Some ps) (seq l)).

(** [string(l.seq[low:])]; the slice expression panics unless
    [low <= len(l.seq)]. *)
Definition seq_from (low : nat) : M (list byte) :=
  λ l, let s := default [] (seq l) in
       if decide (low ≤ length s)%nat then Some (drop low s, l) else None.

(** [if l.seq != nil { l.seq = append(l.seq, c) }] *)
Definition append_seq (c : byte) : M unit :=
  λ l, match seq l with
       | Some s => set_seq (Some (s ++ [c])) l
       | None => Some (tt, l)
       end.

(** Ground state of the lexer. *)
Definition ground (c : byte) : M stateFn :=
  reset ;;
  if c =? 0x1b then
    set_seq (Some [c]) ;;
    ret IntermediateChar
  else
    send c ;;
    ret Ground.

Definition intermediateChar (c : byte) : M stateFn :=
  switch c
    [ (ch "[", ret AfterLeftSquareBracket);
      (ch "(", ret AfterLeftParen);
      (ch ")", ret AfterRightParen);
      (ch "#", ret EscPound);
      (ch "D", send Index ;; ret Ground);
      (ch "M", send RevIndex ;; ret Ground);
      (ch "N", send SetSS2 ;; ret Ground);
      (ch "O", send SetSS3 ;; ret Ground);
      (ch "E", send NextLine ;; ret Ground);
      (ch "7", send SaveCursor ;; ret Ground);
      (ch "8", send RestoreCursor ;; ret Ground);
      (ch "=", send AltKeypad ;; ret Ground);
      (ch ">", send NumKeypad ;; ret Ground);
      (ch "H", send TabSet ;; ret Ground);
      (ch "c", send Reset ;; ret Ground) ]
    (if unicode.IsDigit c
     then ret EscapeDigit          (* no left-square-bracket *)
     else ret Ground).

(** [n, err := fmt.Sscanf(body, "%d;%d", &a, &b)] followed by the test
    [(err == nil) && (n == 2)]: the two bytes on success. *)
Definition scan_two (body : list byte) : option (Z * Z) :=
  match fmt.Sscanf body fmt.fmt_d_d 2 with
  | ([a; b], true) => Some (a, b)
  | _ => None
  end.

(** [n, err := fmt.Sscanf(body, "%d", &a)] followed by the test
    [(err == nil) && (n == 1)]. *)
Definition scan_one (body : list byte) : option Z :=
  match fmt.Sscanf body fmt.fmt_d 1 with
  | ([a], true) => Some a
  | _ => None
  end.

(** The body of the cases ['A'], ['B'], ['C'], ['D']. *)
Definition one_param (body : list byte) (tv : TokVal) : M unit :=
  match scan_one body with
  | Some n => set_params [n] ;; send tv
  | None => skip
  end.

(** The Sscanf branch of the cases ['r'], ['H'], ['f']. *)
Definition two_params (body : list byte) (tv : TokVal) : M unit :=
  match scan_two body with
  | Some (a, b) => set_params [a; b] ;; send tv
  | None => skip
  end.

(** The cases of [switch body] under [case 'h']. *)
Definition cases_h : list (list byte * M unit) :=
  [ (str "20h", send SetNL);
    (str "?1h", send SetAppl);
    (str "?3h", send SetCol);
    (str "?4h", send SetSmooth);
    (str "?5h", send SetRevScrn);
    (str "?6h", send SetOrgRel);
    (str "?7h", send SetWrap);
    (str "?8h", send SetRep);
    (str "?9h", send SetInter) ].

(** The cases of [switch body] under [case 'l']. *)
Definition cases_l : list (list byte * M unit) :=
  [ (str "20l", send SetLF);
    (str "?1l", send SetCursor);
    (str "?2l", send SetVT52);
    (str "?3l", send ResetCol);
    (str "?4l", send SetJump);
    (str "?5l", send SetNormScrn);
    (str "?6l", send SetOrgAbs);
    (str "?7l", send ResetWrap);
    (str "?8l", send ResetRep);
    (str "?9l", send ResetInter) ].

(** The cases of [switch body] under [case 'm']. *)
Definition cases_m : list (list byte * M unit) :=
  [ (str "m", send ModesOff);
    (str "0m", send ModesOff);
    (str "1m", send Bold);
    (str "2m", send LowInt);
    (str "4m", send Underline);
    (str "5m", send Blink);
    (str "7m", send Reverse);
    (str "8m", send Invisible) ].

(** The cases of [switch body] under [case 'g']. *)
Definition cases_g : list (list byte * M unit) :=
  [ (str "g", send TabClr);
    (str "0g", send TabClr);
    (str "3g", send TabClrAll) ].

(** The cases of [switch body] under [case 'K']. *)
Definition cases_K : list (list byte * M unit) :=
  [ (str "K", send ClearEOL);
    (str "0K", send ClearEOL);
    (str "1K", send ClearBOL);
    (str "2K", send ClearLine) ].

(** The cases of [switch body] under [case 'J']. *)
Definition cases_J : list (list byte * M unit) :=
  [ (str "J", send ClearEOS);
    (str "0J", send ClearEOS);
    (str "1J", send ClearBOS);
    (str "2J", send ClearScreen) ].

(** The cases of [switch body] under [case 'c']. *)
Definition cases_c : list (list byte * M unit) :=
  [ (str "c", send Ident);
    (str "0c", send Ident) ].

(** The cases of [switch body] under [case 'y']. *)
Definition cases_y : list (list byte * M unit) :=
  [ (str "2;1y", send TestPU);
    (str "2;2y", send TestLB);
    (str "2;9y", send TestPURep);
    (str "2;10y", send TestLBRep) ].

(** The cases of [switch body] under [case 'q']. *)
Definition cases_q : list (list byte * M unit) :=
  [ (str "0q", send LedsOff);
    (str "1q", send Led1);
    (str "2q", send Led2);
    (str "3q", send Led3);
    (str "4q", send Led4) ].

(** The [switch c] statement of [interpTerm], [body] being
    [string(l.seq[2:])]. *)
Definition term_switch (c : byte) (body : list byte) : M unit :=
  switch c
    [ (ch "h", switch body cases_h skip);
      (ch "l", switch body cases_l skip);
      (ch "m", switch body cases_m skip);
      (ch "r", two_params body SetWin);
      (ch "A", one_param body CursorUp);
      (ch "B", one_param body CursorDn);
      (ch "C", one_param body CursorRt);
      (ch "D", one_param body CursorLf);
      (ch "H",
       if bool_decide (body = str "H") || bool_decide (body = str ";H")
       then send CursorHome
       else two_params body CursorPos);
      (ch "f",
       if bool_decide (body = str "f") || bool_decide (body = str ";f")
       then send HvHome
       else two_params body HvPos);
      (ch "g", switch body cases_g skip);
      (ch "K", switch body cases_K skip);
      (ch "J", switch body cases_J skip);
      (ch "c", switch body cases_c skip);
      (ch "y", switch body cases_y skip);
      (ch "q", switch body cases_q skip) ]
    skip.

(** Interpret the terminator letter character. *)
Definition interpTerm (c : byte) : M stateFn :=
  (* analyze everything after the esc-[ sequence *)
  do body <- seq_from 2 ;;
  term_switch c body ;;
  ret Ground.

Definition afterLeftSquareBracket (c : byte) : M stateFn :=
  if unicode.IsLetter c then                 (* terminating char *)
    interpTerm c
  else if unicode.IsPrint c && negb (unicode.IsSpace c) then
    (* all other non-whitespace printables accumulate within l.seq *)
    ret AfterLeftSquareBracket
  else                                       (* discard weird char *)
    ret Ground.

Definition escPound (c : byte) : M stateFn :=
  switch c
    [ (ch "3", send DhTop);
      (ch "4", send DhBot);
      (ch "5", send Swsh);
      (ch "6", send Dwsh);
      (ch "8", send Align) ] skip ;;
  ret Ground.

Definition afterLeftParen (c : byte) : M stateFn :=
  switch c
    [ (ch "A", send SetUKG0);
      (ch "B", send SetUSG0);
      (ch "0", send SetSpecG0);
      (ch "1", send SetAltG0);
      (ch "2", send SetAltSpecG0) ] skip ;;
  ret Ground.

Definition afterRightParen (c : byte) : M stateFn :=
  switch c
    [ (ch "A", send SetUKG1);
      (ch "B", send SetUSG1);
      (ch "0", send SetSpecG1);
      (ch "1", send SetAltG1);
      (ch "2", send SetAltSpecG1) ] skip ;;
  ret Ground.

Definition escapeDigit (c : byte) : M stateFn :=
  do body <- seq_from 1 ;;
  switch body
    [ (str "5n", send DevStat);
      (str "6n", send GetCursor) ] skip ;;
  ret Ground.

(** Calling the state function a tag stands for. *)
Definition call (state : stateFn) (c : byte) : M stateFn :=
  match state with
  | Ground => ground c
  | IntermediateChar => intermediateChar c
  | AfterLeftSquareBracket => afterLeftSquareBracket c
  | AfterLeftParen => afterLeftParen c
  | AfterRightParen => afterRightParen c
  | EscPound => escPound c
  | EscapeDigit => escapeDigit c
  end.

(** One turn of the loop of [run] on a byte [c] received from [l.input]:
    [c &= 0x7f], the append to [l.seq], then [state = state(c)]. *)
Definition step (state : stateFn) (c : byte) : M stateFn :=
  let c := Z.land c 0x7f in
  append_seq c ;;
  call state c.

(** [run] from a given state over the bytes received before the rundown
    signal.  No state function returns nil, so the loop only ends there. *)
Fixpoint run_from (state : stateFn) (input : list byte) : M stateFn :=
  match input with
  | [] => ret state
  | c :: input' => do state' <- step state c ;; run_from state' input'
  end.

(** [run]: the loop starts in [l.ground]. *)
Definition run (input : list byte) : M stateFn := run_from Ground input.

(** What a fresh lexer has sent, and the state it is in, once it has
    consumed [input]; [None] if it panicked. *)
Definition lex (input : list byte) : option (stateFn * list Token) :=
  match run input NewLexer with
  | Some (state, l) => Some (state, Output l)
  | None => None
  end.

(** ** Vocabulary of the statements *)

(** The escape introducer. *)
Definition ESC : byte := 0x1b.

Definition mask (c : byte) : byte := Z.land c 0x7f.

(** A 7-bit byte that [afterLeftSquareBracket] lets accumulate: printable,
    not white space, not a letter. *)
Definition is_body_char (c : byte) : bool :=
  in_range 0 127 c && negb (unicode.IsLetter c)
  && unicode.IsPrint c && negb (unicode.IsSpace c).

(** The number a string of decimal digits denotes. *)
Definition decval_from (n : Z) (ds : list byte) : Z :=
  fold_left (λ a d, 10 * a + (d - 48)) ds n.
Definition decval (ds : list byte) : Z := decval_from 0 ds.

(** A decimal numeral: a non-empty string of digits. *)
Definition numeral (ds : list byte) : Prop :=
  ds ≠ [] ∧ Forall (λ d, unicode.IsDigit d = true) ds.

(** The input does not go on with a digit. *)
Definition no_digit_ahead (rest : list byte) : Prop :=
  match rest with
  | [] => True
  | r :: _ => unicode.IsDigit r = false
  end.

(** The input does not start with white space. *)
Definition head_not_space (inp : list byte) : Prop :=
  match inp with
  | [] => True
  | r :: _ => unicode.IsSpace r = false
  end.

(** What is observed of a run: the state reached and the tokens sent. *)
Definition obs (r : option (stateFn * Lexer)) : option (stateFn * list Token) :=
  match r with
  | Some (state, l) => Some (state, Output l)
  | None => None
  end.

(** The lexer after the body of a method sent the tokens [toks], its
    buffers being [ps] and [sq]. *)
Definition sent (l : Lexer) (toks : list Token) (ps : option (list Z))
    (sq : option (list byte)) : Lexer :=
  mkLexer (Output l ++ toks) None ps sq.

(** The discriminators of the const pool. *)
Definition named_values : list TokVal := named.*1.


(** A method body that sends at most one token, a named one carrying the
    buffers of the moment, and leaves [l.seq] alone. *)
Definition sends_at_most_one (m : M unit) : Prop :=
  ∀ l, ∃ toks ps,
    m l = Some (tt, mkLexer (Output l ++ toks) (paramCharsAccum l) ps (seq l))
    ∧ (toks = [] ∨ ∃ tv, tv ∈ named_values ∧ toks = [mkToken tv ps (seq l)]).

(** The bytes [sq] at the end of the input [pre] are an escape sequence
    under way: the lexer was in the ground state before them, they start
    with the escape introducer, and the lexer has not been back in the
    ground state inside them. *)
Definition sequence_at (pre sq : list byte) : Prop :=
  ∃ pre0 tl l0,
    pre = pre0 ++ sq ∧ mask <$> sq = ESC :: tl
    ∧ run pre0 NewLexer = Some (Ground, l0)
    ∧ ∀ sq1 sq2, sq = sq1 ++ sq2 → sq1 ≠ [] → sq2 ≠ [] →
        ∃ state1 l1,
          run (pre0 ++ sq1) NewLexer = Some (state1, l1) ∧ state1 ≠ Ground.

(** What holds of the lexer in state [state] after the input [pre]: outside
    the ground state [l.seq] is the masked input since the escape introducer,
    and after the bracket it holds at least the two bytes [interpTerm]
    slices off. *)
Definition inv (pre : list byte) (state : stateFn) (l : Lexer) : Prop :=
  state = Ground
  ∨ state ≠ Ground
    ∧ ∃ sq, sequence_at pre sq ∧ seq l = Some (mask <$> sq)
            ∧ (state = AfterLeftSquareBracket → (2 ≤ length sq)%nat).

(** What one turn of the loop on the byte [b] may send, [pre] being the
    input consumed before it: nothing, or one token.  A token sent from the
    ground state is the plain character, with nil buffers; one sent from
    another state is a named one whose [seq] is the escape sequence that
    ends with [b]. *)
Definition turn_sends (pre : list byte) (b : byte) (state : stateFn)
    (l l' : Lexer) : Prop :=
  Output l' = Output l
  ∨ ∃ t, Output l' = Output l ++ [t]
         ∧ ((state = Ground ∧ t = mkToken (mask b) None None)
            ∨ (state ≠ Ground ∧ Value t ∈ named_values
               ∧ ∃ sq, sequence_at (pre ++ [b]) sq
                       ∧ tok_seq t = Some (mask <$> sq))).

(** A state function called on the lexer [l] returns, having sent nothing
    or one named token on its way back to the ground state. *)
Definition turn_ok (m : M stateFn) (l : Lexer) : Prop :=
  ∃ state' toks ps,
    m l = Some (state', mkLexer (Output l ++ toks) (paramCharsAccum l) ps (seq l))
    ∧ (toks = []
       ∨ state' = Ground
         ∧ ∃ tv, tv ∈ named_values ∧ toks = [mkToken tv ps (seq l)]).

(** The terminators that take two parameters, and those that take one,
    with the token each sends. *)
Definition two_param_terminators : list (byte * TokVal) :=
  [(ch "r", SetWin); (ch "H", CursorPos); (ch "f", HvPos)].
Definition one_param_terminators : list (byte * TokVal) :=
  [(ch "A", CursorUp); (ch "B", CursorDn); (ch "C", CursorRt); (ch "D", CursorLf)].

(** The text starts with the pattern [<v>;<h>], two numerals in the byte
    range, the second one read to its last digit. *)
Definition two_byte_numerals (text : list byte) : Prop :=
  ∃ dv dh rest,
    text = dv ++ ch ";" :: dh ++ rest
    ∧ numeral dv ∧ numeral dh ∧ no_digit_ahead rest
    ∧ decval dv ≤ 255 ∧ decval dh ≤ 255.

(** The text starts with a numeral in the byte range, read to its last
    digit. *)
Definition one_byte_numeral (text : list byte) : Prop :=
  ∃ dn rest,
    text = dn ++ rest ∧ numeral dn ∧ no_digit_ahead rest ∧ decval dn ≤ 255.

(** The bytes [intermediateChar] has a case for. *)
Definition follow_ups : list byte := str "[()#DMNOE78=>Hc".

(** The terminators [interpTerm] has a case for. *)
Definition terminators : list byte := str "hlmrABCDHfgKJcyq".

(** The terminators whose bodies are compared with literals, each with its
    cases. *)
Definition literal_terminators : list (byte * list (list byte * M unit)) :=
  [ (ch "h", cases_h); (ch "l", cases_l); (ch "m", cases_m);
    (ch "g", cases_g); (ch "K", cases_K); (ch "J", cases_J);
    (ch "c", cases_c); (ch "y", cases_y); (ch "q", cases_q) ].

(** The four literal bodies of the home sequences. *)
Definition home_bodies : list (list byte) :=
  [str "H"; str ";H"; str "f"; str ";f"].

(** A complete sequence of 7-bit bytes that starts with the escape
    introducer and matches no row of the grammar: an unmapped single-byte
    follow-up (after [ESC], [ESC (], [ESC )], [ESC #] or [ESC digit]), a
    byte inside a bracket sequence that is neither a letter nor a
    non-blank printable, an unrecognized terminator, or a body that matches
    no variant of its terminator. *)
Inductive malformed : list byte → Prop :=
| mal_follow_up c :
    0 ≤ c < 128 → c ∉ follow_ups → unicode.IsDigit c = false →
    malformed [ESC; c]
| mal_left_paren c :
    0 ≤ c < 128 → c ∉ str "AB012" → malformed [ESC; ch "("; c]
| mal_right_paren c :
    0 ≤ c < 128 → c ∉ str "AB012" → malformed [ESC; ch ")"; c]
| mal_pound c :
    0 ≤ c < 128 → c ∉ str "34568" → malformed [ESC; ch "#"; c]
| mal_digit d c :
    unicode.IsDigit d = true → d ∉ follow_ups → 0 ≤ c < 128 →
    [d; c] ∉ [str "5n"; str "6n"] →
    malformed [ESC; d; c]
| mal_weird_byte body c :
    Forall (λ c, is_body_char c = true) body →
    0 ≤ c < 128 → unicode.IsLetter c = false → is_body_char c = false →
    malformed (ESC :: ch "[" :: body ++ [c])
| mal_terminator body c :
    Forall (λ c, is_body_char c = true) body →
    0 ≤ c < 128 → unicode.IsLetter c = true → c ∉ terminators →
    malformed (ESC :: ch "[" :: body ++ [c])
| mal_literal body c cases :
    Forall (λ c, is_body_char c = true) body →
    (c, cases) ∈ literal_terminators → body ++ [c] ∉ cases.*1 →
    malformed (ESC :: ch "[" :: body ++ [c])
| mal_two_params body c tv :
    Forall (λ c, is_body_char c = true) body →
    (c, tv) ∈ two_param_terminators →
    body ++ [c] ∉ home_bodies → ¬ two_byte_numerals (body ++ [c]) →
    malformed (ESC :: ch "[" :: body ++ [c])
| mal_one_param body c tv :
    Forall (λ c, is_body_char c = true) body →
    (c, tv) ∈ one_param_terminators → ¬ one_byte_numeral (body ++ [c]) →
    malformed (ESC :: ch "[" :: body ++ [c]).

(** ** The table of the package's test

    [testCase] feeds a sequence to a fresh lexer and compares the value of
    the first token sent with the expected one. *)
Definition testCase (seq : list byte) (val : TokVal) : bool :=
  match lex seq with
  | Some (_, tok :: _) => Value tok =? val
  | _ => false
  end.

(** The sequences of [TestVT] with the token value each must yield. *)
Definition TestVT_cases : list (list byte * TokVal) :=
  [ (str "A", ch "A"); (ESC :: str "[H", CursorHome);
    (ESC :: str "[20h", SetNL); (ESC :: str "[?1h", SetAppl);
    (ESC :: str "[?3h", SetCol); (ESC :: str "[?4h", SetSmooth);
    (ESC :: str "[?5h", SetRevScrn); (ESC :: str "[?6h", SetOrgRel);
    (ESC :: str "[?7h", SetWrap); (ESC :: str "[?8h", SetRep);
    (ESC :: str "[?9h", SetInter); (ESC :: str "[20l", SetLF);
    (ESC :: str "[?1l", SetCursor); (ESC :: str "[?2l", SetVT52);
    (ESC :: str "[?3l", ResetCol); (ESC :: str "[?4l", SetJump);
    (ESC :: str "[?5l", SetNormScrn); (ESC :: str "[?6l", SetOrgAbs);
    (ESC :: str "[?7l", ResetWrap); (ESC :: str "[?8l", ResetRep);
    (ESC :: str "[?9l", ResetInter); (ESC :: str "=", AltKeypad);
    (ESC :: str ">", NumKeypad); (ESC :: str "(A", SetUKG0);
    (ESC :: str ")A", SetUKG1); (ESC :: str "(B", SetUSG0);
    (ESC :: str ")B", SetUSG1); (ESC :: str "(0", SetSpecG0);
    (ESC :: str ")0", SetSpecG1); (ESC :: str "(1", SetAltG0);
    (ESC :: str ")1", SetAltG1); (ESC :: str "(2", SetAltSpecG0);
    (ESC :: str ")2", SetAltSpecG1); (ESC :: str "N", SetSS2);
    (ESC :: str "O", SetSS3); (ESC :: str "[m", ModesOff);
    (ESC :: str "[0m", ModesOff); (ESC :: str "[1m", Bold);
    (ESC :: str "[2m", LowInt); (ESC :: str "[4m", Underline);
    (ESC :: str "[5m", Blink); (ESC :: str "[7m", Reverse);
    (ESC :: str "[8m", Invisible); (ESC :: str "[13;17r", SetWin);
    (ESC :: str "[3A", CursorUp); (ESC :: str "[4B", CursorDn);
    (ESC :: str "[5C", CursorRt); (ESC :: str "[6D", CursorLf);
    (ESC :: str "[H", CursorHome); (ESC :: str "[;H", CursorHome);
    (ESC :: str "[13;17H", CursorPos); (ESC :: str "[f", HvHome);
    (ESC :: str "[;f", HvHome); (ESC :: str "[13;17f", HvPos);
    (ESC :: str "D", Index); (ESC :: str "M", RevIndex);
    (ESC :: str "E", NextLine); (ESC :: str "7", SaveCursor);
    (ESC :: str "8", RestoreCursor); (ESC :: str "H", TabSet);
    (ESC :: str "[g", TabClr); (ESC :: str "[0g", TabClr);
    (ESC :: str "[3g", TabClrAll); (ESC :: str "#3", DhTop);
    (ESC :: str "#4", DhBot); (ESC :: str "#5", Swsh);
    (ESC :: str "#6", Dwsh); (ESC :: str "[K", ClearEOL);
    (ESC :: str "[0K", ClearEOL); (ESC :: str "[1K", ClearBOL);
    (ESC :: str "[2K", ClearLine); (ESC :: str "[J", ClearEOS);
    (ESC :: str "[0J", ClearEOS); (ESC :: str "[1J", ClearBOS);
    (ESC :: str "[2J", ClearScreen); (ESC :: str "5n", DevStat);
    (ESC :: str "6n", GetCursor); (ESC :: str "[c", Ident);
    (ESC :: str "[0c", Ident); (ESC :: str "c", Reset);
    (ESC :: str "#8", Align); (ESC :: str "[2;1y", TestPU);
    (ESC :: str "[2;2y", TestLB); (ESC :: str "[2;9y", TestPURep);
    (ESC :: str "[2;10y", TestLBRep); (ESC :: str "[0q", LedsOff);
    (ESC :: str "[1q", Led1); (ESC :: str "[2q", Led2);
    (ESC :: str "[3q", Led3); (ESC :: str "[4q", Led4) ].

(** A complete escape sequence: 7-bit bytes that start with the escape
    introducer and take a fresh lexer back to the ground state with their
    last byte, not before. *)
Definition complete (input : list byte) : Prop :=
  Forall (λ b, 0 ≤ b < 128) input
  ∧ (∃ rest, input = ESC :: rest)
  ∧ (∃ l, run input NewLexer = Some (Ground, l))
  ∧ ∀ pre post, input = pre ++ post → pre ≠ [] → post ≠ [] →
      ∃ state l, run pre NewLexer = Some (state, l) ∧ state ≠ Ground.

(** The longest prefix of body characters, and what follows it. *)
Fixpoint span_body (text : list byte) : list byte * list byte :=
  match text with
  | c :: text' =>
      if is_body_char c
      then let '(body, tail) := span_body text' in (c :: body, tail)
      else ([], text)
  | [] => ([], [])
  end.

(** ** Vocabulary of the further properties *)

(** The bytes of a sequence under way that sit in [l.seq]: none in the
    ground state, where [l.seq] is reset before it is looked at. *)
Definition buffered (state : stateFn) (l : Lexer) : nat :=
  if decide (state = Ground) then 0%nat else length (default [] (seq l)).

(** A fresh lexer fed [seq] sends exactly one token, of value [tv], and is
    back in the ground state. *)
Definition recognized_as (seq : list byte) (tv : TokVal) : bool :=
  match lex seq with
  | Some (Ground, [t]) => Value t =? tv
  | _ => false
  end.

(** The values of the tokens that carry one parameter, and two. *)
Definition one_param_values : list TokVal := one_param_terminators.*2.
Definition two_param_values : list TokVal := two_param_terminators.*2.

(** The parameters of a token fit its value: one byte-sized parameter for
    the cursor moves, two for the window and position tokens, none (nil)
    for all the others. *)
Definition params_fit (t : Token) : Prop :=
  match Params t with
  | None => Value t ∉ one_param_values ++ two_param_values
  | Some [a] => Value t ∈ one_param_values ∧ 0 ≤ a ≤ 255
  | Some [a; b] => Value t ∈ two_param_values ∧ 0 ≤ a ≤ 255 ∧ 0 ≤ b ≤ 255
  | Some _ => False
  end.

(** A method body that, called with nil [l.params], sends nothing and
    leaves them nil, or sends one token whose parameters fit. *)
Definition sends_fitting (m : M unit) : Prop :=
  ∀ l, params l = None →
    ∃ toks ps,
      m l = Some (tt, mkLexer (Output l ++ toks) (paramCharsAccum l) ps (seq l))
      ∧ (toks = [] ∧ ps = None ∨ ∃ t, toks = [t] ∧ params_fit t).

(** The same of a state function called on the lexer [l]. *)
Definition turn_fits (m : M stateFn) (l : Lexer) : Prop :=
  ∃ state' toks ps,
    m l = Some (state', mkLexer (Output l ++ toks) (paramCharsAccum l) ps (seq l))
    ∧ (toks = [] ∧ ps = None
       ∨ state' = Ground ∧ ∃ t, toks = [t] ∧ params_fit t).

(** The lexer [l] with the tokens [o] sent before its own. *)
Definition prepend (o : list Token) (l : Lexer) : Lexer :=
  mkLexer (o ++ Output l) (paramCharsAccum l) (params l) (seq l).

(** A method that only ever appends to the output: with more tokens sent
    beforehand it does the same and sends the same. *)
Definition framed {A} (m : M A) : Prop :=
  ∀ o l, m (prepend o l) = prod_map id (prepend o) <$> m l.

(** ** Rendering a token *)

(** [%v] of an integer: its decimal numeral. *)
Definition format_int (z : Z) : string :=
  DecimalString.NilZero.string_of_int (Z.to_int z).

(** [%v] of a slice of integers or of bytes: the elements in decimal,
    separated by blanks, in brackets; a nil slice prints as an empty one. *)
Definition format_slice (s : option (list Z)) : string :=
  "[" +:+ String.concat " " (format_int <$> default [] s) +:+ "]".

(** [func (t Token) String() string]:
    [fmt.Sprintf("%s Params: %v, Byte Seq: %v", t.Value, t.Params, t.seq)],
    where [%s] on a [TokVal] calls its [String] method. *)
Definition Token_String (t : Token) : string :=
  String (Value t) +:+ " Params: " +:+ format_slice (Params t)
  +:+ ", Byte Seq: " +:+ format_slice (tok_seq t).

(** ** The streaming interface

    [NewLexer] makes the two buffered channels and starts [run] in a
    goroutine; [SendChar] and [GetToken] are a send on [l.input] and a
    receive from [l.Output]; [Rundown] hands [run] a value on the unbuffered
    channel [l.rundown], waits for it to return and closes the channels.

    The model is a transition system over the contents of the two channels
    and the place the goroutine of [run] is at.  An event is one
    communication (or the turn of the loop that follows a receive); the
    order of the events of different goroutines is not fixed, so any event
    that is enabled may be the next one.  What the goroutine keeps to itself
    ([state], [l.seq], [l.params]) is taken from the lexer above: a turn
    computes, with [step], the state it ends in and the tokens it sends, and
    the tokens are then put on [l.Output] one by one, each send waiting for
    room in the channel.  No other goroutine reads those fields, so nothing
    is lost by computing the turn at once. *)

(** The capacity of both channels: [make(chan byte, 10)] and
    [make(chan *Token, 10)]. *)
Definition chan_cap : nat := 10.

(** Where the goroutine of [run] is: inside the loop, with the tokens
    [pending] of the current turn still to be sent (none when it is at the
    [select]), or returned. *)
Inductive worker :=
| Running (pending : list Token) (state : stateFn) (l : Lexer)
| Returned.

Record Stream := mkStream {
  input_chan : list Z;          (* l.input, oldest first *)
  Output_chan : list Token;     (* l.Output, oldest first *)
  worker_at : worker;
  closed : bool                 (* Rundown has closed the channels *)
}.

(** [NewLexer]: empty channels, [run] started in [l.ground]. *)
Definition NewStream : Stream :=
  mkStream [] [] (Running [] Ground NewLexer) false.

Inductive event :=
| EvSendChar (c : Z)         (* SendChar(c) completes: l.input <- c *)
| EvLex                      (* run receives a byte and takes its turn *)
| EvSend                     (* a send of the turn completes: l.Output <- tok *)
| EvGetToken (t : Token)     (* a receive from l.Output yields t *)
| EvRundown                  (* run receives from l.rundown and returns *)
| EvClose.                   (* Rundown, past wg.Wait, closes the channels *)

#[global] Instance Token_eq_dec : EqDecision Token.
Proof. solve_decision. Defined.

(** The tokens a turn has added to what the lexer had sent. *)
Definition new_tokens (l l' : Lexer) : list Token :=
  drop (length (Output l)) (Output l').

(** The stream after the event [e]; [None] when [e] cannot happen in [s]:
    the goroutine that would take part in it is blocked, is elsewhere, or
    would panic (a send on a closed channel). *)
Definition stream_exec (s : Stream) (e : event) : option Stream :=
  match e with
  | EvSendChar c =>
      if closed s then None
      else if decide (length (input_chan s) < chan_cap)%nat
      then Some (mkStream (input_chan s ++ [c]) (Output_chan s) (worker_at s) false)
      else None
  | EvLex =>
      match worker_at s, input_chan s with
      | Running [] state l, c :: inp =>
          match step state c l with
          | Some (state', l') =>
              Some (mkStream inp (Output_chan s)
                             (Running (new_tokens l l') state' l') (closed s))
          | None => None
          end
      | _, _ => None
      end
  | EvSend =>
      match worker_at s with
      | Running (t :: pending) state l =>
          if decide (length (Output_chan s) < chan_cap)%nat
          then Some (mkStream (input_chan s) (Output_chan s ++ [t])
                              (Running pending state l) (closed s))
          else None
      | _ => None
      end
  | EvGetToken t =>
      match Output_chan s with
      | t' :: out =>
          if decide (t' = t)
          then Some (mkStream (input_chan s) out (worker_at s) (closed s))
          else None
      | [] => None
      end
  | EvRundown =>
      match worker_at s with
      | Running [] state l =>
          Some (mkStream (input_chan s) (Output_chan s) Returned (closed s))
      | _ => None
      end
  | EvClose =>
      match worker_at s with
      | Returned =>
          if closed s then None
          else Some (mkStream (input_chan s) (Output_chan s) Returned true)
      | _ => None
      end
  end.

(** The stream after a sequence of events, if they can happen in that
    order. *)
Fixpoint stream_run (s : Stream) (tr : list event) : option Stream :=
  match tr with
  | [] => Some s
  | e :: tr' =>
      match stream_exec s e with
      | Some s' => stream_run s' tr'
      | None => None
      end
  end.

(** The bytes sent and the tokens received along a sequence of events. *)
Definition fed (tr : list event) : list Z :=
  omap (λ e, match e with EvSendChar c => Some c | _ => None end) tr.
Definition got (tr : list event) : list Token :=
  omap (λ e, match e with EvGetToken t => Some t | _ => None end) tr.

(** The pending tokens of the turn under way. *)
Definition pending_of (w : worker) : list Token :=
  match w with
  | Running pending _ _ => pending
  | Returned => []
  end.
(** ** Bytes and masking *)

Lemma mask_mod c : mask c = c mod 128.
Proof. unfold mask. apply (Z.land_ones c 7). lia. Qed.

Lemma mask_range c : 0 ≤ mask c ≤ 127.
Proof. rewrite mask_mod. pose proof (Z.mod_pos_bound c 128). lia. Qed.

Lemma mask_7bit c : 0 ≤ c < 128 → mask c = c.
Proof. intros Hc. rewrite mask_mod. apply Z.mod_small. lia. Qed.

Lemma mask_idemp c : mask (mask c) = mask c.
Proof. apply mask_7bit. pose proof (mask_range c). lia. Qed.

Lemma in_range_spec lo hi r : in_range lo hi r = true ↔ lo ≤ r ≤ hi.
Proof. unfold in_range. rewrite andb_true_iff, !Z.leb_le. tauto. Qed.

Lemma IsDigit_spec r : unicode.IsDigit r = true ↔ 48 ≤ r ≤ 57.
Proof. apply in_range_spec. Qed.

(** Decide a boolean combination of comparisons on a byte whose range is
    known from the context. *)
Ltac byte_cases :=
  unfold is_body_char, unicode.IsLetter, unicode.IsPrint, unicode.IsSpace,
    unicode.IsDigit, in_range in *;
  repeat match goal with
         | |- context [?a <=? ?b] => destruct (Z.leb_spec a b); try lia
         | |- context [?a =? ?b] => destruct (Z.eqb_spec a b); try lia
         end;
  try reflexivity; try discriminate; try lia.

Lemma IsDigit_not_space r : unicode.IsDigit r = true → unicode.IsSpace r = false.
Proof. rewrite IsDigit_spec. intros H. byte_cases. Qed.

Lemma IsDigit_body_char r : unicode.IsDigit r = true → is_body_char r = true.
Proof. rewrite IsDigit_spec. intros H. byte_cases. Qed.

Lemma body_char_7bit c : is_body_char c = true → 33 ≤ c ≤ 126.
Proof.
  unfold is_body_char. rewrite !andb_true_iff, !negb_true_iff, in_range_spec.
  intros [[[H1 H2] H3] H4]. revert H3 H4. byte_cases.
Qed.

(** ** Scanning decimal numerals *)

Lemma decval_from_cons n d ds :
  decval_from n (d :: ds) = decval_from (10 * n + (d - 48)) ds.
Proof. reflexivity. Qed.

Lemma decval_from_ge n ds :
  0 ≤ n → Forall (λ d, unicode.IsDigit d = true) ds → n ≤ decval_from n ds.
Proof.
  intros Hn Hds. revert n Hn.
  induction Hds as [|d ds Hd _ IH]; intros n Hn; [reflexivity|].
  rewrite decval_from_cons. apply IsDigit_spec in Hd.
  etrans; [|apply IH]; lia.
Qed.

Lemma decval_nonneg ds :
  Forall (λ d, unicode.IsDigit d = true) ds → 0 ≤ decval ds.
Proof. apply decval_from_ge. lia. Qed.

Lemma two_digits ds : numeral ds → (length ds ≤ 2)%nat → decval ds ≤ 99.
Proof.
  intros [Hne Hds] Hlen.
  destruct ds as [|a [|b [|c ds]]]; cbn in Hlen; try lia; [done|..].
  - apply Forall_cons in Hds as [Ha _]. apply IsDigit_spec in Ha.
    unfold decval, decval_from. cbn. lia.
  - apply Forall_cons in Hds as [Ha Hds]. apply Forall_cons in Hds as [Hb _].
    apply IsDigit_spec in Ha. apply IsDigit_spec in Hb.
    unfold decval, decval_from. cbn. lia.
Qed.

Lemma cutoff_val : strconv.cutoff = 1844674407370955162.
Proof. reflexivity. Qed.

Lemma maxUint64_val : strconv.maxUint64 = 18446744073709551615.
Proof. reflexivity. Qed.

(** The digit loop returns the denoted number exactly when it fits 64
    bits. *)
Lemma ParseUint_loop_digits ds : ∀ n,
  Forall (λ d, unicode.IsDigit d = true) ds →
  0 ≤ n ≤ strconv.maxUint64 →
  strconv.ParseUint_loop n ds =
    if decide (decval_from n ds ≤ strconv.maxUint64)
    then Some (decval_from n ds) else None.
Proof.
  induction ds as [|d ds IH]; intros n Hds Hn.
  - cbn. case_decide; [reflexivity | lia].
  - apply Forall_cons in Hds as [Hd Hds].
    pose proof (decval_from_ge (10 * n + (d - 48)) ds) as Hge.
    apply IsDigit_spec in Hd.
    rewrite decval_from_cons. cbn [strconv.ParseUint_loop].
    replace (in_range 48 57 d) with true by (symmetry; apply in_range_spec; lia).
    rewrite maxUint64_val in *. rewrite cutoff_val.
    change (2 ^ 64) with 18446744073709551616.
    destruct (Z.leb_spec 1844674407370955162 n).
    { case_decide; [|reflexivity]. specialize (Hge ltac:(lia) Hds). lia. }
    rewrite (Z.mod_small (n * 10)) by lia.
    destruct (decide (n * 10 + (d - 48) ≤ 18446744073709551615)) as [Hfit|Hover].
    + rewrite (Z.mod_small (n * 10 + (d - 48))) by lia.
      destruct (Z.ltb_spec (n * 10 + (d - 48)) (n * 10)); [lia|].
      destruct (Z.ltb_spec 18446744073709551615 (n * 10 + (d - 48))); [lia|].
      cbn [orb]. rewrite IH by first [done | lia].
      replace (10 * n) with (n * 10) by lia. reflexivity.
    + replace ((n * 10 + (d - 48)) mod 18446744073709551616)
        with (n * 10 + (d - 48) - 18446744073709551616).
      2:{ apply Z.mod_unique with 1; lia. }
      destruct (Z.ltb_spec (n * 10 + (d - 48) - 18446744073709551616) (n * 10)); [|lia].
      cbn [orb]. case_decide; [|reflexivity]. specialize (Hge ltac:(lia) Hds). lia.
Qed.

Lemma ParseUint_numeral ds :
  numeral ds →
  strconv.ParseUint ds =
    if decide (decval ds ≤ strconv.maxUint64) then Some (decval ds) else None.
Proof.
  intros [Hne Hds]. destruct ds as [|d ds]; [done|].
  unfold strconv.ParseUint, decval.
  apply ParseUint_loop_digits; [done | rewrite maxUint64_val; lia].
Qed.

(** Truncation to 8 bits, as [scanUint] computes it. *)
Lemma truncate8 i :
  0 ≤ i → Z.shiftr (Z.shiftl i 56 mod 2 ^ 64) 56 = i mod 256.
Proof.
  intros Hi. rewrite Z.shiftl_mul_pow2, Z.shiftr_div_pow2 by lia.
  change (2 ^ 64) with (256 * 2 ^ 56).
  rewrite Z.mul_mod_distr_r by lia.
  apply Z.div_mul. lia.
Qed.

Lemma accept_digits_app ds rest :
  Forall (λ d, unicode.IsDigit d = true) ds → no_digit_ahead rest →
  fmt.accept_digits (ds ++ rest) = (ds, rest).
Proof.
  intros Hds Hrest. induction Hds as [|d ds Hd _ IH]; cbn [app fmt.accept_digits].
  - destruct rest as [|r rest]; [reflexivity|].
    cbn [no_digit_ahead] in Hrest. cbn [fmt.accept_digits]. by rewrite Hrest.
  - by rewrite Hd, IH.
Qed.

Lemma accept_digits_split inp tok rest :
  fmt.accept_digits inp = (tok, rest) →
  inp = tok ++ rest ∧ Forall (λ d, unicode.IsDigit d = true) tok
  ∧ no_digit_ahead rest.
Proof.
  revert tok rest.
  induction inp as [|r inp IH]; intros tok rest; cbn [fmt.accept_digits].
  - intros [= <- <-]. done.
  - destruct (unicode.IsDigit r) eqn:Hr.
    + destruct (fmt.accept_digits inp) as [tok' rest'] eqn:Hacc.
      intros [= <- <-]. destruct (IH _ _ eq_refl) as (-> & Htok & Hrest).
      split_and!; [done | by constructor | done].
    + intros [= <- <-]. split_and!; [done | constructor | done].
Qed.

Lemma SkipSpace_nonspace r inp :
  unicode.IsSpace r = false → fmt.SkipSpace (r :: inp) = Some (r :: inp).
Proof.
  intros Hr. cbn [fmt.SkipSpace]. rewrite Hr.
  destruct (Z.eqb_spec r 13) as [->|]; [done|].
  destruct (Z.eqb_spec r 10) as [->|]; [done|]. reflexivity.
Qed.

(** A numeral followed by something that is not a digit scans to its value
    when that fits a byte, and fails otherwise. *)
Lemma scanUint8_numeral ds rest :
  numeral ds → no_digit_ahead rest →
  fmt.scanUint8 (ds ++ rest) =
    if decide (decval ds ≤ 255) then Some (decval ds, rest) else None.
Proof.
  intros Hnum Hrest. pose proof Hnum as [Hne Hds].
  destruct ds as [|d ds]; [done|]. apply Forall_cons in Hds as [Hd Hds].
  unfold fmt.scanUint8. rewrite <- app_comm_cons.
  rewrite SkipSpace_nonspace by by apply IsDigit_not_space.
  cbn [mbind option_bind fmt.scanNumber]. rewrite Hd.
  rewrite accept_digits_app by done. cbn [mbind option_bind].
  rewrite ParseUint_numeral by done.
  pose proof (decval_nonneg (d :: ds) ltac:(by constructor)) as Hpos.
  rewrite maxUint64_val.
  case_decide as Hfit; cbn [mbind option_bind].
  - rewrite truncate8 by done.
    destruct (Z.eqb_spec (decval (d :: ds) mod 256) (decval (d :: ds))) as [He|He].
    + case_decide; [done|].
      pose proof (Z.mod_pos_bound (decval (d :: ds)) 256). lia.
    + case_decide; [|done]. rewrite Z.mod_small in He; lia.
  - case_decide; [lia | done].
Qed.

(** Conversely, whatever [scanUint8] returns on an input that does not
    start with white space is the value of a numeral at its head. *)
Lemma scanUint8_inv inp v rest :
  head_not_space inp →
  fmt.scanUint8 inp = Some (v, rest) →
  ∃ ds, inp = ds ++ rest ∧ numeral ds ∧ no_digit_ahead rest
        ∧ v = decval ds ∧ v ≤ 255.
Proof.
  intros Hhead Hscan. destruct inp as [|r inp]; [discriminate|].
  unfold fmt.scanUint8 in Hscan. rewrite SkipSpace_nonspace in Hscan by done.
  cbn [mbind option_bind fmt.scanNumber] in Hscan.
  destruct (unicode.IsDigit r) eqn:Hr; [|discriminate].
  destruct (fmt.accept_digits inp) as [tok rest'] eqn:Hacc.
  apply accept_digits_split in Hacc as (-> & Htok & Hrest').
  assert (numeral (r :: tok)) as Hnum by (split; [done | by constructor]).
  pose proof (scanUint8_numeral (r :: tok) rest' Hnum Hrest') as Hfwd.
  unfold fmt.scanUint8 in Hfwd. rewrite <- app_comm_cons in Hfwd.
  rewrite SkipSpace_nonspace in Hfwd by done.
  cbn [mbind option_bind fmt.scanNumber] in Hfwd. rewrite Hr in Hfwd.
  rewrite accept_digits_app in Hfwd by done.
  rewrite Hfwd in Hscan. case_decide; [|discriminate].
  injection Hscan as <- <-. exists (r :: tok). done.
Qed.

Lemma head_not_space_numeral ds rest : numeral ds → head_not_space (ds ++ rest).
Proof.
  intros [Hne Hds]. destruct ds as [|d ds]; [done|].
  apply Forall_cons in Hds as [Hd _]. by apply IsDigit_not_space.
Qed.

Lemma SkipSpace_head inp : head_not_space inp → fmt.SkipSpace inp = Some inp.
Proof. destruct inp; [done|]. apply SkipSpace_nonspace. Qed.

Lemma scan_one_numeral ds rest :
  numeral ds → no_digit_ahead rest →
  scan_one (ds ++ rest) =
    if decide (decval ds ≤ 255) then Some (decval ds) else None.
Proof.
  intros Hnum Hrest.
  unfold scan_one, fmt.Sscanf, fmt.fmt_d. cbn [fmt.doScanf].
  rewrite SkipSpace_head by by apply head_not_space_numeral.
  rewrite scanUint8_numeral by done.
  case_decide; reflexivity.
Qed.

Lemma scan_two_numeral dv dh rest :
  numeral dv → numeral dh → no_digit_ahead rest →
  scan_two (dv ++ ch ";" :: dh ++ rest) =
    if decide (decval dv ≤ 255 ∧ decval dh ≤ 255)
    then Some (decval dv, decval dh) else None.
Proof.
  intros Hv Hh Hrest.
  unfold scan_two, fmt.Sscanf, fmt.fmt_d_d. cbn [fmt.doScanf].
  rewrite SkipSpace_head by by apply head_not_space_numeral.
  rewrite scanUint8_numeral by done.
  destruct (decide (decval dv ≤ 255)) as [Hv255|Hv255]; cbn.
  2:{ case_decide; [lia | done]. }
  rewrite SkipSpace_head by by apply head_not_space_numeral.
  rewrite scanUint8_numeral by done.
  destruct (decide (decval dh ≤ 255)) as [Hh255|Hh255]; cbn;
    case_decide; first [done | lia].
Qed.

Lemma scan_one_inv body v :
  head_not_space body → scan_one body = Some v →
  ∃ ds rest, body = ds ++ rest ∧ numeral ds ∧ no_digit_ahead rest
             ∧ v = decval ds ∧ v ≤ 255.
Proof.
  intros Hhead. unfold scan_one, fmt.Sscanf, fmt.fmt_d. cbn [fmt.doScanf].
  rewrite SkipSpace_head by done. cbn.
  destruct (fmt.scanUint8 body) as [[v' rest]|] eqn:Hscan; [|done].
  cbn. intros [= <-].
  apply scanUint8_inv in Hscan as (ds & ? & ? & ? & ? & ?); [|done].
  by exists ds, rest.
Qed.

Lemma scan_two_inv body a b :
  Forall (λ c, unicode.IsSpace c = false) body → scan_two body = Some (a, b) →
  ∃ dv dh rest, body = dv ++ ch ";" :: dh ++ rest
                ∧ numeral dv ∧ numeral dh ∧ no_digit_ahead rest
                ∧ a = decval dv ∧ b = decval dh ∧ a ≤ 255 ∧ b ≤ 255.
Proof.
  intros Hsp.
  assert (∀ inp, Forall (λ c, unicode.IsSpace c = false) inp → head_not_space inp)
    as Hhd by (intros [|??] H; [done | by apply Forall_cons in H as [? _]]).
  unfold scan_two, fmt.Sscanf, fmt.fmt_d_d. cbn [fmt.doScanf].
  rewrite SkipSpace_head by auto. cbn.
  destruct (fmt.scanUint8 body) as [[v1 rest1]|] eqn:Hscan1; [|done].
  apply scanUint8_inv in Hscan1 as (dv & -> & Hdv & _ & -> & Hv); [|by apply Hhd].
  apply Forall_app in Hsp as [_ Hsp1].
  destruct rest1 as [|r rest1]; [done|].
  destruct (Z.eqb_spec r (ch ";")) as [->|]; [|done].
  apply Forall_cons in Hsp1 as [_ Hsp2].
  rewrite SkipSpace_head by auto. cbn.
  destruct (fmt.scanUint8 rest1) as [[v2 rest2]|] eqn:Hscan2; [|done].
  apply scanUint8_inv in Hscan2 as (dh & -> & Hdh & Hrest & -> & Hh); [|by apply Hhd].
  cbn. intros [= <- <-]. by exists dv, dh, rest2.
Qed.

(** ** The state functions, one turn at a time *)

Lemma run_from_app state a b l :
  run_from state (a ++ b) l =
    match run_from state a l with
    | Some (state', l') => run_from state' b l'
    | None => None
    end.
Proof.
  revert state l. induction a as [|c a IH]; intros state l; [reflexivity|].
  cbn [app run_from]. unfold bind.
  destruct (step state c l) as [[state' l']|]; [apply IH | reflexivity].
Qed.

Lemma run_from_snoc state a c l :
  run_from state (a ++ [c]) l =
    match run_from state a l with
    | Some (state', l') => step state' c l'
    | None => None
    end.
Proof.
  rewrite run_from_app. destruct (run_from state a l) as [[state' l']|]; [|done].
  cbn [run_from]. unfold bind, ret. by destruct (step state' c l') as [[??]|].
Qed.

(** In the ground state the buffers left over from the previous sequence do
    not matter: they are reset before anything else. *)
Lemma step_Ground_esc b l :
  mask b = ESC →
  step Ground b l = Some (IntermediateChar, mkLexer (Output l) None None (Some [ESC])).
Proof.
  intros Hb. unfold step. fold (mask b). rewrite Hb.
  unfold bind, append_seq. by destruct (seq l).
Qed.

Lemma step_Ground_plain b l :
  mask b ≠ ESC →
  step Ground b l = Some (Ground, sent l [mkToken (mask b) None None] None None).
Proof.
  intros Hb. unfold step. fold (mask b).
  unfold bind, append_seq, call, ground, bind.
  destruct (seq l); cbn; by destruct (Z.eqb_spec (mask b) 27).
Qed.

(** Outside the ground state the masked byte is first appended to [l.seq]. *)
Lemma step_append state b l s :
  seq l = Some s →
  step state b l =
    call state (mask b)
      (mkLexer (Output l) (paramCharsAccum l) (params l) (Some (s ++ [mask b]))).
Proof. intros Hs. unfold step, bind, append_seq. by rewrite Hs. Qed.

Lemma switch_notin {K A} `{EqDecision K} (x : K) (cases : list (K * A)) d :
  x ∉ cases.*1 → switch x cases d = d.
Proof.
  induction cases as [|[k a] cases IH]; [done|].
  cbn. intros Hx. apply not_elem_of_cons in Hx as [? ?].
  case_decide; [done | by apply IH].
Qed.

Lemma switch_elim {K A} `{EqDecision K} (P : A → Prop) (x : K)
    (cases : list (K * A)) d :
  P d → Forall (λ ka, P ka.2) cases → P (switch x cases d).
Proof.
  intros Hd Hcases. induction Hcases as [|[k a] cases Ha _ IH]; [done|].
  cbn. by case_decide.
Qed.

(** ** Every method sends at most one token *)

Ltac is_named := apply (bool_decide_unpack _); vm_compute; exact I.

Lemma skip_sends : sends_at_most_one skip.
Proof.
  intros l. exists [], (params l). split; [|by left].
  rewrite app_nil_r. by destruct l.
Qed.

Lemma send_sends tv : tv ∈ named_values → sends_at_most_one (send tv).
Proof.
  intros Htv l. exists [mkToken tv (params l) (seq l)], (params l).
  split; [reflexivity | right; eauto].
Qed.

Lemma set_params_send_sends ps tv :
  tv ∈ named_values → sends_at_most_one (set_params ps ;; send tv).
Proof.
  intros Htv l. exists [mkToken tv (Some ps) (seq l)], (Some ps).
  split; [reflexivity | right; eauto].
Qed.

Lemma one_param_sends body tv :
  tv ∈ named_values → sends_at_most_one (one_param body tv).
Proof.
  intros Htv. unfold one_param. destruct (scan_one body).
  - by apply set_params_send_sends.
  - apply skip_sends.
Qed.

Lemma two_params_sends body tv :
  tv ∈ named_values → sends_at_most_one (two_params body tv).
Proof.
  intros Htv. unfold two_params. destruct (scan_two body) as [[a b]|].
  - by apply set_params_send_sends.
  - apply skip_sends.
Qed.

Lemma switch_sends {K} `{EqDecision K} (x : K) (cases : list (K * M unit)) :
  Forall (λ ka, sends_at_most_one ka.2) cases →
  sends_at_most_one (switch x cases skip).
Proof. apply switch_elim, skip_sends. Qed.

Ltac sends_cases :=
  repeat first
    [ apply Forall_nil_2
    | apply Forall_cons_2; cbn [snd]
    | apply send_sends; is_named
    | apply one_param_sends; is_named
    | apply two_params_sends; is_named
    | apply switch_sends ].

Lemma term_switch_sends c body : sends_at_most_one (term_switch c body).
Proof.
  unfold term_switch. apply switch_sends.
  repeat (apply Forall_cons_2; cbn [snd]); try apply Forall_nil_2;
    try (destruct (_ || _)); sends_cases.
Qed.

Lemma ret_turn_ok state l : turn_ok (ret state) l.
Proof.
  exists state, [], (params l). split; [|by left].
  rewrite app_nil_r. by destruct l.
Qed.

Lemma sends_turn_ok (m : M unit) l :
  sends_at_most_one m → turn_ok (m ;; ret Ground) l.
Proof.
  intros Hm. destruct (Hm l) as (toks & ps & Heq & Htoks).
  exists Ground, toks, ps. unfold bind. rewrite Heq. split; [done|].
  destruct Htoks; [by left | by right].
Qed.

Lemma intermediateChar_turn_ok c l : turn_ok (intermediateChar c) l.
Proof.
  unfold intermediateChar.
  apply (switch_elim (λ m, turn_ok m l)).
  - destruct (unicode.IsDigit c); apply ret_turn_ok.
  - repeat (apply Forall_cons_2; cbn [snd]); try apply Forall_nil_2;
      first [ apply ret_turn_ok | apply sends_turn_ok, send_sends; is_named ].
Qed.

Lemma seq_from_ok low l s :
  seq l = Some s → (low ≤ length s)%nat → seq_from low l = Some (drop low s, l).
Proof. intros Hs Hlen. unfold seq_from. rewrite Hs. cbn. by case_decide. Qed.

Lemma interpTerm_turn_ok c l s :
  seq l = Some s → (2 ≤ length s)%nat → turn_ok (interpTerm c) l.
Proof.
  intros Hs Hlen. unfold interpTerm.
  pose proof (sends_turn_ok (term_switch c (drop 2 s)) l
                (term_switch_sends _ _)) as Hok.
  unfold turn_ok, bind in *. by rewrite (seq_from_ok 2 l s).
Qed.

Lemma afterLeftSquareBracket_turn_ok c l s :
  seq l = Some s → (2 ≤ length s)%nat → turn_ok (afterLeftSquareBracket c) l.
Proof.
  intros Hs Hlen. unfold afterLeftSquareBracket.
  destruct (unicode.IsLetter c); [by eapply interpTerm_turn_ok|].
  destruct (_ && _); apply ret_turn_ok.
Qed.

Lemma escPound_turn_ok c l : turn_ok (escPound c) l.
Proof. apply sends_turn_ok, switch_sends. sends_cases. Qed.

Lemma afterLeftParen_turn_ok c l : turn_ok (afterLeftParen c) l.
Proof. apply sends_turn_ok, switch_sends. sends_cases. Qed.

Lemma afterRightParen_turn_ok c l : turn_ok (afterRightParen c) l.
Proof. apply sends_turn_ok, switch_sends. sends_cases. Qed.

Lemma escapeDigit_turn_ok c l s :
  seq l = Some s → (1 ≤ length s)%nat → turn_ok (escapeDigit c) l.
Proof.
  intros Hs Hlen. unfold escapeDigit.
  pose proof (sends_turn_ok
    (switch (drop 1 s) [(str "5n", send DevStat); (str "6n", send GetCursor)] skip)
    l ltac:(apply switch_sends; sends_cases)) as Hok.
  unfold turn_ok, bind in *. by rewrite (seq_from_ok 1 l s).
Qed.

(** Outside the ground state, a state function called with at least two
    bytes in [l.seq] returns. *)
Lemma call_turn_ok state c l s :
  state ≠ Ground → seq l = Some s → (2 ≤ length s)%nat →
  turn_ok (call state c) l.
Proof.
  intros Hst Hs Hlen. destruct state; cbn [call]; [done|..].
  - apply intermediateChar_turn_ok.
  - by eapply afterLeftSquareBracket_turn_ok.
  - apply afterLeftParen_turn_ok.
  - apply afterRightParen_turn_ok.
  - apply escPound_turn_ok.
  - eapply escapeDigit_turn_ok; [done | lia].
Qed.

(** ** The invariant of the loop *)

Lemma sequence_at_start pre b l :
  run pre NewLexer = Some (Ground, l) → mask b = ESC →
  sequence_at (pre ++ [b]) [b].
Proof.
  intros Hrun Hb. exists pre, [], l. cbn. rewrite Hb. split_and!; [done..|].
  intros [|? [|??]] [|??] [=]; done.
Qed.

Lemma sequence_at_snoc pre sq b state l :
  run pre NewLexer = Some (state, l) → state ≠ Ground →
  sequence_at pre sq → sequence_at (pre ++ [b]) (sq ++ [b]).
Proof.
  intros Hrun Hst (pre0 & tl & l0 & -> & Hsq & Hrun0 & Hinside).
  exists pre0, (tl ++ [mask b]), l0. split_and!; [| |done|].
  - by rewrite app_assoc.
  - by rewrite fmap_app, Hsq.
  - intros sq1 sq2 Heq Hsq1 Hsq2.
    destruct sq2 as [|c sq2 _] using rev_ind; [done|].
    rewrite app_assoc in Heq. apply app_inj_tail in Heq as [-> ->].
    destruct sq2 as [|c' sq2]; [|by eapply Hinside].
    rewrite app_nil_r in Hrun. eauto.
Qed.

Lemma sequence_at_nonempty pre sq : sequence_at pre sq → (1 ≤ length sq)%nat.
Proof.
  intros (pre0 & tl & l0 & _ & Hsq & _). destruct sq; [done|]. cbn. lia.
Qed.

(** One turn of the loop keeps the invariant, does not panic, and sends
    what [turn_sends] says. *)
Lemma step_inv pre b state l :
  run pre NewLexer = Some (state, l) → inv pre state l →
  ∃ state' l',
    step state b l = Some (state', l')
    ∧ inv (pre ++ [b]) state' l'
    ∧ turn_sends pre b state l l'.
Proof.
  intros Hrun Hinv.
  destruct (decide (state = Ground)) as [->|Hst].
  - destruct (decide (mask b = ESC)) as [Hb|Hb].
    + eexists _, _. split; [by apply step_Ground_esc|]. split.
      * right. split; [done|]. exists [b].
        split_and!; [by eapply sequence_at_start | | done].
        cbn. by rewrite Hb.
      * by left.
    + eexists _, _. split; [by apply step_Ground_plain|]. split; [by left|].
      right. eexists. split; [reflexivity|]. by left.
  - destruct Hinv as [?|(_ & sq & Hat & Hseq & _)]; [done|].
    rewrite (step_append _ _ _ _ Hseq).
    pose proof (sequence_at_nonempty _ _ Hat) as Hlen.
    pose proof (sequence_at_snoc _ _ b _ _ Hrun Hst Hat) as Hat'.
    assert (mask <$> sq ++ [b] = (mask <$> sq) ++ [mask b]) as Hmap
      by by rewrite fmap_app.
    rewrite <- Hmap.
    destruct (call_turn_ok state (mask b)
                (mkLexer (Output l) (paramCharsAccum l) (params l)
                         (Some (mask <$> sq ++ [b])))
                (mask <$> sq ++ [b]) Hst eq_refl)
      as (state' & toks & ps & Hcall & Htoks).
    { rewrite length_fmap, length_app. cbn. lia. }
    rewrite Hcall. cbn [Output paramCharsAccum seq] in *.
    eexists _, _. split; [reflexivity|]. split.
    + destruct (decide (state' = Ground)) as [?|Hst']; [by left|].
      right. split; [done|]. exists (sq ++ [b]). split_and!; [done..|].
      intros _. rewrite length_app. cbn. lia.
    + destruct Htoks as [->|(-> & tv & Htv & ->)].
      * left. cbn. apply app_nil_r.
      * right. eexists. split; [reflexivity|]. right. split_and!; [done..|].
        by exists (sq ++ [b]).
Qed.

(** The lexer never panics, and the invariant holds after any input. *)
Lemma run_inv input :
  ∃ state l, run input NewLexer = Some (state, l) ∧ inv input state l.
Proof.
  induction input as [|b input (state & l & Hrun & Hinv)] using rev_ind.
  - exists Ground, NewLexer. split; [reflexivity | by left].
  - destruct (step_inv input b state l Hrun Hinv) as (state' & l' & Hstep & Hinv' & _).
    exists state', l'. split; [|done].
    unfold run in *. by rewrite run_from_snoc, Hrun.
Qed.

(** ** Bracket sequences *)

(** Body characters accumulate in [l.seq] and nothing else happens. *)
Lemma run_body body : ∀ l s,
  Forall (λ c, is_body_char c = true) body → seq l = Some s →
  run_from AfterLeftSquareBracket body l =
    Some (AfterLeftSquareBracket,
          mkLexer (Output l) (paramCharsAccum l) (params l) (Some (s ++ body))).
Proof.
  induction body as [|c body IH]; intros l s Hbody Hs.
  - cbn. rewrite app_nil_r, <- Hs. by destruct l.
  - apply Forall_cons in Hbody as [Hc Hbody].
    cbn [run_from]. unfold bind. rewrite (step_append _ _ _ _ Hs).
    pose proof (body_char_7bit _ Hc) as H7.
    rewrite mask_7bit by lia. cbn [call]. unfold afterLeftSquareBracket.
    unfold is_body_char in Hc.
    rewrite !andb_true_iff, !negb_true_iff in Hc. destruct Hc as [[[_ Hl] Hp] Hsp].
    rewrite Hl, Hp, Hsp. cbn [andb negb]. unfold ret.
    rewrite (IH _ (s ++ [c])) by done. cbn [Output paramCharsAccum params].
    by rewrite <- app_assoc.
Qed.

(** A complete bracket sequence, fed in the ground state, ends in the
    switch of [interpTerm] on everything after [ESC \[]. *)
Lemma run_bracket l body c :
  Forall (λ c, is_body_char c = true) body →
  0 ≤ c < 128 → unicode.IsLetter c = true →
  run_from Ground (ESC :: ch "[" :: body ++ [c]) l =
    (term_switch c (body ++ [c]) ;; ret Ground)
      (mkLexer (Output l) None None (Some (ESC :: ch "[" :: body ++ [c]))).
Proof.
  intros Hbody Hc Hletter.
  cbn [run_from]. unfold bind at 1. rewrite step_Ground_esc by done.
  unfold bind at 1. erewrite step_append by reflexivity.
  change (call IntermediateChar (mask (ch "[")) ?l)
    with (Some (AfterLeftSquareBracket, l)).
  cbn [Output paramCharsAccum params app].
  rewrite run_from_snoc. erewrite run_body by done.
  erewrite step_append by reflexivity. rewrite mask_7bit by done.
  cbn [call Output paramCharsAccum params]. unfold afterLeftSquareBracket.
  rewrite Hletter. unfold interpTerm. unfold bind at 1.
  erewrite seq_from_ok; [|reflexivity|cbn; lia].
  cbn [app drop]. rewrite drop_0. reflexivity.
Qed.

(** Which case of the switch a terminator selects. *)
Lemma term_switch_r body : term_switch (ch "r") body = two_params body SetWin.
Proof. reflexivity. Qed.
Lemma term_switch_A body : term_switch (ch "A") body = one_param body CursorUp.
Proof. reflexivity. Qed.
Lemma term_switch_B body : term_switch (ch "B") body = one_param body CursorDn.
Proof. reflexivity. Qed.
Lemma term_switch_C body : term_switch (ch "C") body = one_param body CursorRt.
Proof. reflexivity. Qed.
Lemma term_switch_D body : term_switch (ch "D") body = one_param body CursorLf.
Proof. reflexivity. Qed.
Lemma term_switch_H body :
  term_switch (ch "H") body =
    if bool_decide (body = str "H") || bool_decide (body = str ";H")
    then send CursorHome else two_params body CursorPos.
Proof. reflexivity. Qed.
Lemma term_switch_f body :
  term_switch (ch "f") body =
    if bool_decide (body = str "f") || bool_decide (body = str ";f")
    then send HvHome else two_params body HvPos.
Proof. reflexivity. Qed.

Lemma one_param_hit body tv n l :
  scan_one body = Some n →
  one_param body tv l =
    Some (tt, mkLexer (Output l ++ [mkToken tv (Some [n]) (seq l)])
                      (paramCharsAccum l) (Some [n]) (seq l)).
Proof. intros Hscan. unfold one_param. by rewrite Hscan. Qed.

Lemma one_param_miss body tv l :
  scan_one body = None → one_param body tv l = Some (tt, l).
Proof. intros Hscan. unfold one_param. by rewrite Hscan. Qed.

Lemma two_params_hit body tv a b l :
  scan_two body = Some (a, b) →
  two_params body tv l =
    Some (tt, mkLexer (Output l ++ [mkToken tv (Some [a; b]) (seq l)])
                      (paramCharsAccum l) (Some [a; b]) (seq l)).
Proof. intros Hscan. unfold two_params. by rewrite Hscan. Qed.

Lemma two_params_miss body tv l :
  scan_two body = None → two_params body tv l = Some (tt, l).
Proof. intros Hscan. unfold two_params. by rewrite Hscan. Qed.

Lemma numeral_body ds : numeral ds → Forall (λ c, is_body_char c = true) ds.
Proof. intros [_ Hds]. eapply Forall_impl; [done|]. apply IsDigit_body_char. Qed.

Lemma numeral_head ds rest :
  numeral ds → ∃ d tl, ds ++ rest = d :: tl ∧ unicode.IsDigit d = true.
Proof.
  intros [Hne Hds]. destruct ds as [|d ds]; [done|].
  apply Forall_cons in Hds as [Hd _]. by exists d, (ds ++ rest).
Qed.

Lemma no_digit_ahead_snoc extra c :
  no_digit_ahead extra → unicode.IsDigit c = false → no_digit_ahead (extra ++ [c]).
Proof. by destruct extra. Qed.

Lemma letter_not_digit c : unicode.IsLetter c = true → unicode.IsDigit c = false.
Proof.
  intros Hc. destruct (unicode.IsDigit c) eqn:Hd; [|done].
  apply IsDigit_spec in Hd. revert Hc. byte_cases.
Qed.

(** *** Sequences with two parameters: [ESC \[ v ; h extra c] *)

Lemma run_two_params l dv dh extra c tv :
  (c, tv) ∈ two_param_terminators →
  numeral dv → numeral dh →
  Forall (λ c, is_body_char c = true) extra → no_digit_ahead extra →
  let input := ESC :: ch "[" :: (dv ++ ch ";" :: dh ++ extra) ++ [c] in
  run_from Ground input l =
    Some (Ground,
          if decide (decval dv ≤ 255 ∧ decval dh ≤ 255)
          then sent l [mkToken tv (Some [decval dv; decval dh]) (Some input)]
                    (Some [decval dv; decval dh]) (Some input)
          else mkLexer (Output l) None None (Some input)).
Proof.
  intros Hc Hv Hh Hextra Hahead input. unfold two_param_terminators in Hc.
  assert (0 ≤ c < 128 ∧ unicode.IsLetter c = true) as [H7 Hletter].
  { rewrite !elem_of_cons, elem_of_nil in Hc.
    destruct Hc as [[= -> _]|[[= -> _]|[[= -> _]|[]]]]; by vm_compute. }
  assert (Forall (λ c, is_body_char c = true) (dv ++ ch ";" :: dh ++ extra)) as Hbody.
  { apply Forall_app. split; [by apply numeral_body|].
    apply Forall_cons. split; [done|].
    apply Forall_app. split; [by apply numeral_body | done]. }
  unfold input. rewrite run_bracket by done. unfold bind.
  assert (scan_two ((dv ++ ch ";" :: dh ++ extra) ++ [c]) =
          if decide (decval dv ≤ 255 ∧ decval dh ≤ 255)
          then Some (decval dv, decval dh) else None) as Hscan.
  { rewrite <- app_assoc. cbn [app]. rewrite <- app_assoc.
    apply scan_two_numeral; [done..|].
    by apply no_digit_ahead_snoc, letter_not_digit. }
  destruct (numeral_head dv (ch ";" :: (dh ++ extra) ++ [c]) Hv) as (d & tl & Hhd & Hd).
  assert ((dv ++ ch ";" :: dh ++ extra) ++ [c] = d :: tl) as Hbody'
    by by rewrite <- app_assoc.
  apply IsDigit_spec in Hd.
  assert (∀ k s, k ≠ d → bool_decide ((dv ++ ch ";" :: dh ++ extra) ++ [c] = k :: s) = false)
    as Hne by (intros k s Hk; rewrite Hbody'; apply bool_decide_eq_false; congruence).
  rewrite !elem_of_cons, elem_of_nil in Hc.
  destruct Hc as [[= -> ->]|[[= -> ->]|[[= -> ->]|[]]]].
  - rewrite term_switch_r.
    case_decide; [erewrite two_params_hit by done | rewrite two_params_miss by done];
      reflexivity.
  - rewrite term_switch_H.
    change (str "H") with [72]. change (str ";H") with [59; 72].
    rewrite !Hne by lia. cbn [orb].
    case_decide; [erewrite two_params_hit by done | rewrite two_params_miss by done];
      reflexivity.
  - rewrite term_switch_f.
    change (str "f") with [102]. change (str ";f") with [59; 102].
    rewrite !Hne by lia. cbn [orb].
    case_decide; [erewrite two_params_hit by done | rewrite two_params_miss by done];
      reflexivity.
Qed.

(** *** Sequences with one parameter: [ESC \[ n extra c] *)

Lemma run_one_param l dn extra c tv :
  (c, tv) ∈ one_param_terminators →
  numeral dn →
  Forall (λ c, is_body_char c = true) extra → no_digit_ahead extra →
  let input := ESC :: ch "[" :: (dn ++ extra) ++ [c] in
  run_from Ground input l =
    Some (Ground,
          if decide (decval dn ≤ 255)
          then sent l [mkToken tv (Some [decval dn]) (Some input)]
                    (Some [decval dn]) (Some input)
          else mkLexer (Output l) None None (Some input)).
Proof.
  intros Hc Hn Hextra Hahead input. unfold one_param_terminators in Hc.
  assert (0 ≤ c < 128 ∧ unicode.IsLetter c = true) as [H7 Hletter].
  { rewrite !elem_of_cons, elem_of_nil in Hc.
    destruct Hc as [[= -> _]|[[= -> _]|[[= -> _]|[[= -> _]|[]]]]]; by vm_compute. }
  assert (Forall (λ c, is_body_char c = true) (dn ++ extra)) as Hbody
    by (apply Forall_app; split; [by apply numeral_body | done]).
  unfold input. rewrite run_bracket by done. unfold bind.
  assert (scan_one ((dn ++ extra) ++ [c]) =
          if decide (decval dn ≤ 255) then Some (decval dn) else None) as Hscan.
  { rewrite <- app_assoc. apply scan_one_numeral; [done|].
    by apply no_digit_ahead_snoc, letter_not_digit. }
  rewrite !elem_of_cons, elem_of_nil in Hc.
  destruct Hc as [[= -> ->]|[[= -> ->]|[[= -> ->]|[[= -> ->]|[]]]]];
    rewrite ?term_switch_A, ?term_switch_B, ?term_switch_C, ?term_switch_D;
    (case_decide; [erewrite one_param_hit by done | rewrite one_param_miss by done]);
    reflexivity.
Qed.

(** *** Bodies that do not scan *)

Lemma body_not_space body c :
  Forall (λ c, is_body_char c = true) body → unicode.IsLetter c = true →
  0 ≤ c < 128 →
  Forall (λ c, unicode.IsSpace c = false) (body ++ [c]).
Proof.
  intros Hbody Hc H7. apply Forall_app. split.
  - eapply Forall_impl; [done|]. intros x Hx. cbn in Hx.
    unfold is_body_char in Hx. rewrite !andb_true_iff, !negb_true_iff in Hx. tauto.
  - apply Forall_singleton. revert Hc. byte_cases.
Qed.

Lemma scan_two_None text :
  Forall (λ c, unicode.IsSpace c = false) text →
  ¬ two_byte_numerals text → scan_two text = None.
Proof.
  intros Hsp Hnot. destruct (scan_two text) as [[a b]|] eqn:Hscan; [|done].
  destruct Hnot.
  apply scan_two_inv in Hscan as (dv & dh & rest & ? & ? & ? & ? & ? & ? & ? & ?);
    [|done].
  exists dv, dh, rest. naive_solver.
Qed.

Lemma scan_one_None text :
  Forall (λ c, unicode.IsSpace c = false) text →
  ¬ one_byte_numeral text → scan_one text = None.
Proof.
  intros Hsp Hnot. destruct (scan_one text) as [n|] eqn:Hscan; [|done].
  destruct Hnot.
  apply scan_one_inv in Hscan as (dn & rest & ? & ? & ? & ? & ?).
  - exists dn, rest. naive_solver.
  - destruct text; [done|]. by apply Forall_cons in Hsp as [? _].
Qed.

Lemma run_two_params_fail l body c tv :
  (c, tv) ∈ two_param_terminators →
  Forall (λ c, is_body_char c = true) body →
  body ++ [c] ∉ home_bodies →
  ¬ two_byte_numerals (body ++ [c]) →
  let input := ESC :: ch "[" :: body ++ [c] in
  run_from Ground input l = Some (Ground, mkLexer (Output l) None None (Some input)).
Proof.
  intros Hc Hbody Hhome Hnot input. unfold two_param_terminators in Hc.
  assert (0 ≤ c < 128 ∧ unicode.IsLetter c = true) as [H7 Hletter].
  { rewrite !elem_of_cons, elem_of_nil in Hc.
    destruct Hc as [[= -> _]|[[= -> _]|[[= -> _]|[]]]]; by vm_compute. }
  unfold input. rewrite run_bracket by done. unfold bind.
  pose proof (scan_two_None _ (body_not_space _ _ Hbody Hletter H7) Hnot) as Hscan.
  unfold home_bodies in Hhome.
  rewrite !not_elem_of_cons in Hhome. destruct Hhome as (H1 & H2 & H3 & H4 & _).
  rewrite !elem_of_cons, elem_of_nil in Hc.
  destruct Hc as [[= -> ->]|[[= -> ->]|[[= -> ->]|[]]]].
  - rewrite term_switch_r. by rewrite two_params_miss.
  - rewrite term_switch_H. rewrite !bool_decide_eq_false_2 by done.
    cbn [orb]. by rewrite two_params_miss.
  - rewrite term_switch_f. rewrite !bool_decide_eq_false_2 by done.
    cbn [orb]. by rewrite two_params_miss.
Qed.

Lemma run_one_param_fail l body c tv :
  (c, tv) ∈ one_param_terminators →
  Forall (λ c, is_body_char c = true) body →
  ¬ one_byte_numeral (body ++ [c]) →
  let input := ESC :: ch "[" :: body ++ [c] in
  run_from Ground input l = Some (Ground, mkLexer (Output l) None None (Some input)).
Proof.
  intros Hc Hbody Hnot input. unfold one_param_terminators in Hc.
  assert (0 ≤ c < 128 ∧ unicode.IsLetter c = true) as [H7 Hletter].
  { rewrite !elem_of_cons, elem_of_nil in Hc.
    destruct Hc as [[= -> _]|[[= -> _]|[[= -> _]|[[= -> _]|[]]]]]; by vm_compute. }
  unfold input. rewrite run_bracket by done. unfold bind.
  pose proof (scan_one_None _ (body_not_space _ _ Hbody Hletter H7) Hnot) as Hscan.
  rewrite !elem_of_cons, elem_of_nil in Hc.
  destruct Hc as [[= -> ->]|[[= -> ->]|[[= -> ->]|[[= -> ->]|[]]]]];
    rewrite ?term_switch_A, ?term_switch_B, ?term_switch_C, ?term_switch_D;
    by rewrite one_param_miss.
Qed.

(** ** The label map *)

(** What the loop of [init] leaves in the map: the words read, at the keys
    [t], [t - 1], ... downwards, and elsewhere what was there before. *)
Lemma init_loop_lookup ws : ∀ t (m : gmap Z string) k,
  init_loop ws t m !! k =
    if decide (t - Z.of_nat (length ws) < k ≤ t)
    then ws !! Z.to_nat (t - k) else m !! k.
Proof.
  induction ws as [|s ws IH]; intros t m k; cbn [init_loop length].
  - case_decide; [lia | done].
  - rewrite IH. destruct (decide (k = t)) as [->|Hk].
    + rewrite decide_False by lia. rewrite lookup_insert_eq.
      rewrite decide_True by lia. by replace (t - t) with 0 by lia.
    + rewrite lookup_insert_ne by done.
      case_decide; case_decide; try lia; [|done].
      replace (Z.to_nat (t - k)) with (S (Z.to_nat (t - 1 - k))) by lia.
      done.
Qed.

Lemma labelMap_eq :
  labelMap = init_loop (scan_words [] (String.list_ascii_of_string data)) (-1) ∅.
Proof.
  unfold labelMap, init. rewrite decide_True; [done|]. by vm_compute.
Qed.

Lemma init_ok : Catalog.init = Some labelMap.
Proof.
  unfold labelMap. unfold Catalog.init. rewrite decide_True; [done|]. by vm_compute.
Qed.

Lemma named_values_range t : t ∈ named_values ↔ -81 ≤ t ≤ -1.
Proof.
  assert (named_values = Z.opp <$> seqZ 1 81) as -> by by vm_compute.
  rewrite list_elem_of_fmap. setoid_rewrite elem_of_seqZ. split.
  - intros (y & -> & Hy). lia.
  - intros Ht. exists (- t). lia.
Qed.

Lemma String_unnamed t : ¬ (-81 ≤ t ≤ -1) → String t = "?".
Proof.
  intros Ht. unfold String. rewrite labelMap_eq, init_loop_lookup.
  replace (length (scan_words [] (String.list_ascii_of_string data)))
    with 81%nat by by vm_compute.
  rewrite decide_False by lia. by rewrite lookup_empty.
Qed.

(** ** Sequences that match no row of the grammar *)

(** In the ground state only the tokens sent so far matter for what
    follows. *)
Lemma run_from_Ground_stale input l1 l2 :
  Output l1 = Output l2 →
  run_from Ground input l1 = run_from Ground input l2
  ∨ input = [].
Proof.
  intros Hout. destruct input as [|b input]; [by right|]. left.
  cbn [run_from]. unfold bind.
  destruct (decide (mask b = ESC)) as [Hb|Hb].
  - by rewrite !step_Ground_esc, Hout.
  - rewrite !step_Ground_plain by done. unfold sent. by rewrite Hout.
Qed.

Lemma obs_run_from_Ground_stale input l1 l2 :
  Output l1 = Output l2 →
  obs (run_from Ground input l1) = obs (run_from Ground input l2).
Proof.
  intros Hout. destruct (run_from_Ground_stale input l1 l2 Hout) as [->| ->].
  - done.
  - cbn. by rewrite Hout.
Qed.

(** The state after [ESC c] for the four introducers of a family. *)
Lemma run_ESC_family l c state :
  (c, state) ∈ [ (ch "[", AfterLeftSquareBracket); (ch "(", AfterLeftParen);
                 (ch ")", AfterRightParen); (ch "#", EscPound) ] →
  run_from Ground [ESC; c] l =
    Some (state, mkLexer (Output l) None None (Some [ESC; c])).
Proof.
  intros Hc. cbn [run_from]. unfold bind at 1. rewrite step_Ground_esc by done.
  unfold bind. erewrite step_append by reflexivity.
  rewrite !elem_of_cons, elem_of_nil in Hc.
  destruct Hc as [[= -> ->]|[[= -> ->]|[[= -> ->]|[[= -> ->]|[]]]]]; reflexivity.
Qed.

(** A single byte after [ESC (], [ESC )] or [ESC #] that has no case sends
    nothing. *)
Lemma run_family_miss l f state (cases : list (byte * M unit)) c :
  (f, state) ∈ [ (ch "(", AfterLeftParen); (ch ")", AfterRightParen);
                 (ch "#", EscPound) ] →
  (∀ c, call state c = (switch c cases skip ;; ret Ground)) →
  0 ≤ c < 128 → c ∉ cases.*1 →
  run_from Ground [ESC; f; c] l =
    Some (Ground, mkLexer (Output l) None None (Some [ESC; f; c])).
Proof.
  intros Hf Hcall H7 Hc.
  change [ESC; f; c] with ([ESC; f] ++ [c]). rewrite run_from_snoc.
  rewrite (run_ESC_family l f state) by by apply list_elem_of_further.
  erewrite step_append by reflexivity. rewrite mask_7bit by done.
  rewrite Hcall. unfold bind. by rewrite switch_notin.
Qed.

Lemma run_follow_up_miss l c :
  0 ≤ c < 128 → c ∉ follow_ups → unicode.IsDigit c = false →
  run_from Ground [ESC; c] l =
    Some (Ground, mkLexer (Output l) None None (Some [ESC; c])).
Proof.
  intros H7 Hc Hd. cbn [run_from]. unfold bind at 1.
  rewrite step_Ground_esc by done. unfold bind.
  erewrite step_append by reflexivity. rewrite mask_7bit by done.
  cbn [call]. unfold intermediateChar. rewrite switch_notin by done.
  by rewrite Hd.
Qed.

Lemma run_digit_miss l d c :
  unicode.IsDigit d = true → d ∉ follow_ups → 0 ≤ c < 128 →
  [d; c] ∉ [str "5n"; str "6n"] →
  run_from Ground [ESC; d; c] l =
    Some (Ground, mkLexer (Output l) None None (Some [ESC; d; c])).
Proof.
  intros Hd Hfollow H7 Hbody.
  assert (0 ≤ d < 128) as Hd7 by (apply IsDigit_spec in Hd; lia).
  cbn [run_from]. unfold bind at 1. rewrite step_Ground_esc by done.
  unfold bind at 1. erewrite step_append by reflexivity.
  rewrite mask_7bit by done.
  cbn [call]. unfold intermediateChar at 1. rewrite switch_notin by done.
  rewrite Hd. unfold ret at 1. unfold bind.
  erewrite step_append by reflexivity. rewrite mask_7bit by done.
  cbn [call Output paramCharsAccum params app]. unfold escapeDigit, bind.
  erewrite seq_from_ok; [|reflexivity|cbn; lia].
  cbn [drop]. by rewrite switch_notin.
Qed.

(** A bracket sequence up to its last byte, whatever that byte is. *)
Lemma run_bracket_last l body c :
  Forall (λ c, is_body_char c = true) body → 0 ≤ c < 128 →
  run_from Ground (ESC :: ch "[" :: body ++ [c]) l =
    afterLeftSquareBracket c
      (mkLexer (Output l) None None (Some (ESC :: ch "[" :: body ++ [c]))).
Proof.
  intros Hbody Hc.
  change (ESC :: ch "[" :: body ++ [c]) with ([ESC; ch "["] ++ body ++ [c]).
  rewrite run_from_app.
  rewrite (run_ESC_family l _ AfterLeftSquareBracket) by by apply list_elem_of_here.
  rewrite run_from_snoc. erewrite run_body by done.
  erewrite step_append by reflexivity. by rewrite mask_7bit.
Qed.

Lemma run_weird_byte l body c :
  Forall (λ c, is_body_char c = true) body →
  0 ≤ c < 128 → unicode.IsLetter c = false → is_body_char c = false →
  run_from Ground (ESC :: ch "[" :: body ++ [c]) l =
    Some (Ground, mkLexer (Output l) None None (Some (ESC :: ch "[" :: body ++ [c]))).
Proof.
  intros Hbody H7 Hletter Hc. rewrite run_bracket_last by done.
  unfold afterLeftSquareBracket. rewrite Hletter.
  unfold is_body_char in Hc. rewrite Hletter in Hc.
  replace (in_range 0 127 c) with true in Hc
    by (symmetry; apply in_range_spec; lia).
  cbn [andb negb] in Hc. by rewrite Hc.
Qed.

Lemma run_terminator_miss l body c :
  Forall (λ c, is_body_char c = true) body →
  0 ≤ c < 128 → unicode.IsLetter c = true → c ∉ terminators →
  run_from Ground (ESC :: ch "[" :: body ++ [c]) l =
    Some (Ground, mkLexer (Output l) None None (Some (ESC :: ch "[" :: body ++ [c]))).
Proof.
  intros Hbody H7 Hletter Hc. rewrite run_bracket by done.
  unfold bind, term_switch. by rewrite switch_notin.
Qed.

Lemma term_switch_literal c cases text :
  (c, cases) ∈ literal_terminators →
  term_switch c text = switch text cases skip.
Proof.
  unfold literal_terminators. rewrite !elem_of_cons, elem_of_nil.
  intros [[= -> ->]|[[= -> ->]|[[= -> ->]|[[= -> ->]|[[= -> ->]|[[= -> ->]|
          [[= -> ->]|[[= -> ->]|[[= -> ->]|[]]]]]]]]]]; reflexivity.
Qed.

Lemma literal_terminator_letter c cases :
  (c, cases) ∈ literal_terminators → 0 ≤ c < 128 ∧ unicode.IsLetter c = true.
Proof.
  unfold literal_terminators. rewrite !elem_of_cons, elem_of_nil.
  intros [[= -> _]|[[= -> _]|[[= -> _]|[[= -> _]|[[= -> _]|[[= -> _]|
          [[= -> _]|[[= -> _]|[[= -> _]|[]]]]]]]]]]; by vm_compute.
Qed.

Lemma run_literal_miss l body c cases :
  Forall (λ c, is_body_char c = true) body →
  (c, cases) ∈ literal_terminators → body ++ [c] ∉ cases.*1 →
  run_from Ground (ESC :: ch "[" :: body ++ [c]) l =
    Some (Ground, mkLexer (Output l) None None (Some (ESC :: ch "[" :: body ++ [c]))).
Proof.
  intros Hbody Hc Hmiss.
  destruct (literal_terminator_letter _ _ Hc) as [H7 Hletter].
  rewrite run_bracket by done. unfold bind.
  rewrite (term_switch_literal _ _ _ Hc). by rewrite switch_notin.
Qed.

(** A malformed sequence sends nothing and leaves the lexer in the ground
    state, with the sequence in [l.seq] until the next byte resets it. *)
Lemma run_malformed l input :
  malformed input →
  run_from Ground input l =
    Some (Ground, mkLexer (Output l) None None (Some input)).
Proof.
  intros Hmal. destruct Hmal.
  - by apply run_follow_up_miss.
  - eapply (run_family_miss l _ AfterLeftParen
              [ (ch "A", send SetUKG0); (ch "B", send SetUSG0);
                (ch "0", send SetSpecG0); (ch "1", send SetAltG0);
                (ch "2", send SetAltSpecG0) ]);
      [by apply list_elem_of_here | done..].
  - eapply (run_family_miss l _ AfterRightParen
              [ (ch "A", send SetUKG1); (ch "B", send SetUSG1);
                (ch "0", send SetSpecG1); (ch "1", send SetAltG1);
                (ch "2", send SetAltSpecG1) ]);
      [by apply list_elem_of_further, list_elem_of_here | done..].
  - eapply (run_family_miss l _ EscPound
              [ (ch "3", send DhTop); (ch "4", send DhBot); (ch "5", send Swsh);
                (ch "6", send Dwsh); (ch "8", send Align) ]);
      [by do 2 apply list_elem_of_further; apply list_elem_of_here | done..].
  - by apply run_digit_miss.
  - by apply run_weird_byte.
  - by apply run_terminator_miss.
  - by eapply run_literal_miss.
  - by eapply run_two_params_fail.
  - by eapply run_one_param_fail.
Qed.

(** ** The package's own test table *)

Lemma TestVT_passes : forallb (λ '(seq, val), testCase seq val) TestVT_cases = true.
Proof. by vm_compute. Qed.

(** ** The malformed sequences are all the silent ones

    Among the complete escape sequences, the malformed ones are exactly
    those that send no token: the predicate [malformed] leaves out no way
    of matching no row of the grammar. *)

Lemma span_body_spec text body tail :
  span_body text = (body, tail) →
  text = body ++ tail ∧ Forall (λ c, is_body_char c = true) body
  ∧ match tail with [] => True | t :: _ => is_body_char t = false end.
Proof.
  revert body tail.
  induction text as [|c text IH]; intros body tail; cbn [span_body].
  - intros [= <- <-]. done.
  - destruct (is_body_char c) eqn:Hc.
    + destruct (span_body text) as [body' tail'] eqn:Hspan.
      intros [= <- <-]. destruct (IH _ _ eq_refl) as (-> & Hbody & Htail).
      split_and!; [done | by constructor | done].
    + intros [= <- <-]. split_and!; [done | constructor | done].
Qed.

Lemma switch_send_hit {K} `{EqDecision K} (x : K) (cases : list (K * M unit)) :
  Forall (λ ka, ∃ tv, ka.2 = send tv) cases → x ∈ cases.*1 →
  ∃ tv, switch x cases skip = send tv.
Proof.
  intros Hcases Hx. induction Hcases as [|[k a] cases [tv Ha] _ IH]; cbn.
  - by apply elem_of_nil in Hx.
  - cbn in Hx, Ha. case_decide; [by exists tv|].
    apply elem_of_cons in Hx as [?|Hx]; [done|]. by apply IH.
Qed.

Ltac all_sends :=
  repeat first [ apply Forall_nil_2
               | apply Forall_cons_2; [eexists; reflexivity|] ].

Lemma literal_cases_send c cases :
  (c, cases) ∈ literal_terminators → Forall (λ ka, ∃ tv, ka.2 = send tv) cases.
Proof.
  unfold literal_terminators. rewrite !elem_of_cons, elem_of_nil.
  intros [[= _ ->]|[[= _ ->]|[[= _ ->]|[[= _ ->]|[[= _ ->]|[[= _ ->]|
          [[= _ ->]|[[= _ ->]|[[= _ ->]|[]]]]]]]]]]; all_sends.
Qed.

Lemma snoc_ne {A} (l : list A) x : l ++ [x] ≠ l.
Proof.
  intros Heq. apply (f_equal length) in Heq. rewrite length_app in Heq.
  cbn in Heq. lia.
Qed.

(** A state function that sends a token does not leave the output as it
    was. *)
Lemma send_ret_loud tv l :
  obs ((send tv ;; ret Ground) l) ≠ Some (Ground, Output l).
Proof. cbn. intros [= Heq]. by apply snoc_ne in Heq. Qed.

Lemma run_ESC_byte c :
  0 ≤ c < 128 →
  run [ESC; c] NewLexer =
    intermediateChar c (mkLexer [] None None (Some [ESC; c])).
Proof.
  intros H7. unfold run. cbn [run_from]. unfold bind at 1.
  rewrite step_Ground_esc by done. unfold bind.
  erewrite step_append by reflexivity. rewrite mask_7bit by done.
  cbn [call Output paramCharsAccum params app].
  by destruct (intermediateChar c _) as [[??]|].
Qed.

(** After [ESC c] the lexer is outside the ground state only for the four
    introducers and for a digit without a case of its own; it has sent
    nothing then. *)
Lemma run_ESC_byte_state c state l :
  0 ≤ c < 128 → run [ESC; c] NewLexer = Some (state, l) → state ≠ Ground →
  l = mkLexer [] None None (Some [ESC; c])
  ∧ ((c, state) ∈ [ (ch "[", AfterLeftSquareBracket); (ch "(", AfterLeftParen);
                    (ch ")", AfterRightParen); (ch "#", EscPound) ]
     ∨ state = EscapeDigit ∧ unicode.IsDigit c = true ∧ c ∉ follow_ups).
Proof.
  intros H7 Hrun Hst. rewrite run_ESC_byte in Hrun by done.
  destruct (decide (c ∈ follow_ups)) as [Hc|Hc].
  - unfold follow_ups in Hc. vm_compute (str _) in Hc.
    rewrite !elem_of_cons, elem_of_nil in Hc.
    destruct Hc as [->|[->|[->|[->|[->|[->|[->|[->|[->|[->|[->|[->|[->|[->|
                   [->|[]]]]]]]]]]]]]]]];
      vm_compute in Hrun; injection Hrun as <- <-; try done;
      (split; [reflexivity|]); left; rewrite !elem_of_cons; tauto.
  - unfold intermediateChar in Hrun. rewrite switch_notin in Hrun by done.
    destruct (unicode.IsDigit c); injection Hrun as <- <-; [|done].
    split; [reflexivity|]. by right.
Qed.

Lemma sends_to_ground (m : M unit) l :
  sends_at_most_one m → ∃ l', (m ;; ret Ground) l = Some (Ground, l').
Proof.
  intros Hm. destruct (Hm l) as (toks & ps & Heq & _).
  unfold bind. rewrite Heq. eauto.
Qed.

(** From the states that take a single byte, and from the bracket state on
    a byte that does not accumulate, the lexer goes back to the ground
    state. *)
Lemma call_to_ground state c l s :
  seq l = Some s → (2 ≤ length s)%nat →
  state ∈ [AfterLeftParen; AfterRightParen; EscPound; EscapeDigit]
  ∨ state = AfterLeftSquareBracket ∧ 0 ≤ c < 128 ∧ is_body_char c = false →
  ∃ l', call state c l = Some (Ground, l').
Proof.
  intros Hs Hlen [Hst|(-> & H7 & Hc)].
  - rewrite !elem_of_cons, elem_of_nil in Hst.
    destruct Hst as [->|[->|[->|[->|[]]]]]; cbn [call].
    + apply sends_to_ground, switch_sends. sends_cases.
    + apply sends_to_ground, switch_sends. sends_cases.
    + apply sends_to_ground, switch_sends. sends_cases.
    + unfold escapeDigit, bind at 1. rewrite (seq_from_ok 1 l s) by (done || lia).
      apply sends_to_ground, switch_sends. sends_cases.
  - cbn [call]. unfold afterLeftSquareBracket.
    destruct (unicode.IsLetter c) eqn:Hletter.
    + unfold interpTerm, bind at 1. rewrite (seq_from_ok 2 l s) by done.
      apply sends_to_ground, term_switch_sends.
    + unfold is_body_char in Hc. rewrite Hletter in Hc.
      replace (in_range 0 127 c) with true in Hc
        by (symmetry; apply in_range_spec; lia).
      cbn [andb negb] in Hc. rewrite Hc. eauto.
Qed.

(** The three shapes of a complete escape sequence. *)
Lemma complete_shape input :
  complete input →
  (∃ c, input = [ESC; c])
  ∨ (∃ f c state,
       input = [ESC; f; c]
       ∧ run [ESC; f] NewLexer =
           Some (state, mkLexer [] None None (Some [ESC; f]))
       ∧ ((f, state) ∈ [ (ch "(", AfterLeftParen); (ch ")", AfterRightParen);
                          (ch "#", EscPound) ]
          ∨ state = EscapeDigit ∧ unicode.IsDigit f = true ∧ f ∉ follow_ups))
  ∨ (∃ body t,
       input = ESC :: ch "[" :: body ++ [t]
       ∧ Forall (λ c, is_body_char c = true) body ∧ is_body_char t = false).
Proof.
  intros (H7 & [rest ->] & [lf Hfinal] & Hproper).
  destruct rest as [|c rest]; [by vm_compute in Hfinal|].
  destruct rest as [|c2 rest]; [left; by exists c|]. right.
  apply Forall_cons in H7 as [_ H7]. apply Forall_cons in H7 as [Hc7 H7].
  destruct (Hproper [ESC; c] (c2 :: rest) eq_refl) as (state & l & Hrun & Hst);
    [done..|].
  destruct (run_ESC_byte_state c state l Hc7 Hrun Hst) as [-> Hclass].
  assert (state ∈ [AfterLeftParen; AfterRightParen; EscPound; EscapeDigit] →
          rest = []) as Hsingle.
  { intros Hstate. destruct rest as [|c3 rest]; [done|].
    destruct (Hproper [ESC; c; c2] (c3 :: rest) eq_refl)
      as (state' & l' & Hrun' & Hst'); [done..|].
    change [ESC; c; c2] with ([ESC; c] ++ [c2]) in Hrun'.
    unfold run in Hrun, Hrun'. rewrite run_from_snoc, Hrun in Hrun'.
    erewrite step_append in Hrun' by reflexivity.
    cbn [Output paramCharsAccum params app] in Hrun'.
    destruct (call_to_ground state (mask c2)
                (mkLexer [] None None (Some [ESC; c; mask c2]))
                [ESC; c; mask c2] eq_refl ltac:(cbn; lia) (or_introl Hstate))
      as [l'' Hcall].
    rewrite Hcall in Hrun'. by injection Hrun' as <- _. }
  destruct Hclass as [Hfam|(-> & Hd & Hf)].
  - apply elem_of_cons in Hfam as [[= -> ->]|Hfam].
    + (* the bracket family *)
      right. destruct (span_body (c2 :: rest)) as [body tail] eqn:Hspan.
      apply span_body_spec in Hspan as (Htext & Hbody & Htail).
      rewrite Htext in *. clear Htext. destruct tail as [|t tail].
      { unfold run in Hfinal, Hrun.
        change (ESC :: ch "[" :: body ++ []) with ([ESC; ch "["] ++ body ++ [])
          in Hfinal.
        rewrite run_from_app, Hrun, app_nil_r in Hfinal.
        erewrite run_body in Hfinal by done. discriminate. }
      destruct tail as [|t2 tail]; [by exists body, t|].
      destruct (Hproper (ESC :: ch "[" :: body ++ [t]) (t2 :: tail))
        as (state' & l' & Hrun' & Hst');
        [by cbn [app]; rewrite <- app_assoc | done..|].
      apply Forall_app in H7 as [_ H7]. apply Forall_cons in H7 as [Ht7 _].
      unfold run in Hrun'. rewrite run_bracket_last in Hrun' by done.
      change (Output NewLexer) with (@nil Token) in Hrun'.
      destruct (call_to_ground AfterLeftSquareBracket t
                  (mkLexer [] None None (Some (ESC :: ch "[" :: body ++ [t])))
                  (ESC :: ch "[" :: body ++ [t]) eq_refl ltac:(cbn; lia)
                  (or_intror (conj eq_refl (conj Ht7 Htail))))
        as [l'' Hcall].
      cbn [call] in Hcall. rewrite Hcall in Hrun'. by injection Hrun' as <- _.
    + (* the single-byte families *)
      left. exists c, c2, state. rewrite Hsingle; [by eauto|].
      rewrite !elem_of_cons, elem_of_nil in Hfam. rewrite !elem_of_cons.
      destruct Hfam as [[= _ ->]|[[= _ ->]|[[= _ ->]|[]]]]; tauto.
  - (* an escape followed by a digit *)
    left. exists c, c2, EscapeDigit. rewrite Hsingle; [by eauto 10|].
    rewrite !elem_of_cons. tauto.
Qed.

Lemma loud (m : M unit) l l' tok :
  m l = Some (tt, l') → Output l' = Output l ++ [tok] →
  obs ((m ;; ret Ground) l) ≠ Some (Ground, Output l).
Proof.
  intros Hm Hout. unfold bind. rewrite Hm. cbn. rewrite Hout.
  intros [= Heq]. by apply snoc_ne in Heq.
Qed.

Lemma switch_loud {K} `{EqDecision K} (x : K) (cases : list (K * M unit)) l :
  Forall (λ ka, ∃ tv, ka.2 = send tv) cases → x ∈ cases.*1 →
  obs ((switch x cases skip ;; ret Ground) l) ≠ Some (Ground, Output l).
Proof.
  intros Hcases Hx. destruct (switch_send_hit x cases Hcases Hx) as [tv ->].
  apply send_ret_loud.
Qed.

Lemma scan_two_Some text :
  two_byte_numerals text → ∃ a b, scan_two text = Some (a, b).
Proof.
  intros (dv & dh & rest & -> & Hv & Hh & Hrest & Hv255 & Hh255).
  rewrite scan_two_numeral by done. rewrite decide_True by done. eauto.
Qed.

Lemma scan_one_Some text :
  one_byte_numeral text → ∃ n, scan_one text = Some n.
Proof.
  intros (dn & rest & -> & Hn & Hrest & Hn255).
  rewrite scan_one_numeral by done. rewrite decide_True by done. eauto.
Qed.

Ltac elem_step :=
  first [ apply list_elem_of_here | apply list_elem_of_further; elem_step ].

(** Every terminator belongs to one of the three kinds. *)
Lemma terminators_kinds t :
  t ∈ terminators →
  unicode.IsLetter t = true
  ∧ ((∃ cases, (t, cases) ∈ literal_terminators)
     ∨ (∃ tv, (t, tv) ∈ two_param_terminators)
     ∨ (∃ tv, (t, tv) ∈ one_param_terminators)).
Proof.
  unfold terminators. vm_compute (str _).
  rewrite !elem_of_cons, elem_of_nil.
  intros [->|[->|[->|[->|[->|[->|[->|[->|[->|[->|[->|[->|[->|[->|[->|[->|
          []]]]]]]]]]]]]]]]]; (split; [reflexivity|]);
    first [ left; eexists; elem_step
          | right; left; eexists; elem_step
          | right; right; eexists; elem_step ].
Qed.

(** A two-parameter sequence that sends nothing is malformed. *)
Lemma silent_two_params body t tv :
  Forall (λ c, is_body_char c = true) body →
  (t, tv) ∈ two_param_terminators →
  obs ((term_switch t (body ++ [t]) ;; ret Ground)
         (mkLexer [] None None (Some (ESC :: ch "[" :: body ++ [t])))) =
    Some (Ground, []) →
  ¬ two_byte_numerals (body ++ [t]) ∧ body ++ [t] ∉ home_bodies.
Proof.
  intros Hbody Ht Hsilent.
  set (l := mkLexer [] None None (Some (ESC :: ch "[" :: body ++ [t]))) in *.
  assert (scan_two (body ++ [t]) = None) as Hscan.
  { destruct (scan_two (body ++ [t])) as [[a b]|] eqn:Hscan; [|done].
    exfalso. revert Hsilent. unfold two_param_terminators in Ht.
    rewrite !elem_of_cons, elem_of_nil in Ht.
    destruct Ht as [[= -> ->]|[[= -> ->]|[[= -> ->]|[]]]].
    - rewrite term_switch_r. eapply (loud _ l); [by apply two_params_hit|done].
    - rewrite term_switch_H. destruct (_ || _).
      + apply send_ret_loud.
      + eapply (loud _ l); [by apply two_params_hit|done].
    - rewrite term_switch_f. destruct (_ || _).
      + apply send_ret_loud.
      + eapply (loud _ l); [by apply two_params_hit|done]. }
  split; [intros Htwo; apply scan_two_Some in Htwo as (a & b & Hsome); congruence|].
  intros Hhome. revert Hsilent. unfold home_bodies in Hhome.
  unfold two_param_terminators in Ht.
  rewrite !elem_of_cons, elem_of_nil in Ht.
  rewrite !elem_of_cons, elem_of_nil in Hhome.
  destruct Ht as [[= -> ->]|[[= -> ->]|[[= -> ->]|[]]]];
    destruct Hhome as [Heq|[Heq|[Heq|[Heq|[]]]]];
    vm_compute in Heq;
    destruct body as [|b1 [|b2 [|b3 body]]]; simplify_eq/=;
    by vm_compute.
Qed.

(** A one-parameter sequence that sends nothing is malformed. *)
Lemma silent_one_param body t tv :
  (t, tv) ∈ one_param_terminators →
  obs ((term_switch t (body ++ [t]) ;; ret Ground)
         (mkLexer [] None None (Some (ESC :: ch "[" :: body ++ [t])))) =
    Some (Ground, []) →
  ¬ one_byte_numeral (body ++ [t]).
Proof.
  intros Ht Hsilent Hone. apply scan_one_Some in Hone as [n Hscan].
  set (l := mkLexer [] None None (Some (ESC :: ch "[" :: body ++ [t]))) in *.
  revert Hsilent. unfold one_param_terminators in Ht.
  rewrite !elem_of_cons, elem_of_nil in Ht.
  destruct Ht as [[= -> ->]|[[= -> ->]|[[= -> ->]|[[= -> ->]|[]]]]];
    rewrite ?term_switch_A, ?term_switch_B, ?term_switch_C, ?term_switch_D;
    (eapply (loud _ l); [by apply one_param_hit|done]).
Qed.

(** Among the complete escape sequences the malformed ones are exactly
    those for which nothing is sent. *)
Theorem malformed_iff_silent input :
  complete input →
  malformed input ↔ obs (run input NewLexer) = Some (Ground, []).
Proof.
  intros Hcomplete. split.
  { intros Hmal. unfold run. by rewrite (run_malformed NewLexer input Hmal). }
  intros Hsilent. pose proof Hcomplete as (H7 & _).
  destruct (complete_shape input Hcomplete)
    as [[c ->]|[(f & c & state & -> & Hrun & Hclass)|(body & t & -> & Hbody & Ht)]].
  - (* ESC c *)
    apply Forall_cons in H7 as [_ H7]. apply Forall_cons in H7 as [Hc7 _].
    rewrite run_ESC_byte in Hsilent by done.
    destruct (decide (c ∈ follow_ups)) as [Hc|Hc].
    + exfalso. unfold follow_ups in Hc. vm_compute (str _) in Hc.
      rewrite !elem_of_cons, elem_of_nil in Hc.
      destruct Hc as [->|[->|[->|[->|[->|[->|[->|[->|[->|[->|[->|[->|[->|[->|
                     [->|[]]]]]]]]]]]]]]]]; by vm_compute in Hsilent.
    + unfold intermediateChar in Hsilent. rewrite switch_notin in Hsilent by done.
      destruct (unicode.IsDigit c) eqn:Hd; [done|]. by apply mal_follow_up.
  - (* ESC f c *)
    apply Forall_cons in H7 as [_ H7]. apply Forall_cons in H7 as [Hf7 H7].
    apply Forall_cons in H7 as [Hc7 _].
    change [ESC; f; c] with ([ESC; f] ++ [c]) in Hsilent.
    unfold run in Hsilent, Hrun. rewrite run_from_snoc, Hrun in Hsilent.
    erewrite step_append in Hsilent by reflexivity.
    rewrite mask_7bit in Hsilent by done.
    cbn [Output paramCharsAccum params app] in Hsilent.
    destruct Hclass as [Hfam|(-> & Hd & Hf)].
    + rewrite !elem_of_cons, elem_of_nil in Hfam.
      destruct Hfam as [[= -> ->]|[[= -> ->]|[[= -> ->]|[]]]].
      * apply mal_left_paren; [done|]. intros Hc.
        revert Hsilent. apply (switch_loud c); [all_sends | done].
      * apply mal_right_paren; [done|]. intros Hc.
        revert Hsilent. apply (switch_loud c); [all_sends | done].
      * apply mal_pound; [done|]. intros Hc.
        revert Hsilent. apply (switch_loud c); [all_sends | done].
    + apply mal_digit; [done..|]. intros Hc.
      cbn [call] in Hsilent. unfold escapeDigit, bind at 1 in Hsilent.
      erewrite seq_from_ok in Hsilent; [|reflexivity|cbn; lia].
      revert Hsilent. apply (switch_loud [f; c]); [all_sends | done].
  - (* ESC [ body t *)
    apply Forall_cons in H7 as [_ H7]. apply Forall_cons in H7 as [_ H7].
    apply Forall_app in H7 as [_ H7]. apply Forall_cons in H7 as [Ht7 _].
    destruct (unicode.IsLetter t) eqn:Hletter; [|by apply mal_weird_byte].
    unfold run in Hsilent. rewrite run_bracket in Hsilent by done.
    change (Output NewLexer) with (@nil Token) in Hsilent.
    destruct (decide (t ∈ terminators)) as [Hterm|Hterm];
      [|by apply mal_terminator].
    destruct (terminators_kinds t Hterm)
      as (_ & [[cases Hlit]|[[tv Htwo]|[tv Hone]]]).
    + eapply mal_literal; [done..|]. intros Hin.
      rewrite (term_switch_literal _ _ _ Hlit) in Hsilent.
      revert Hsilent. apply (switch_loud (body ++ [t])); [|done].
      by eapply literal_cases_send.
    + destruct (silent_two_params body t tv Hbody Htwo Hsilent) as [Hno Hhome].
      by eapply mal_two_params.
    + pose proof (silent_one_param body t tv Hone Hsilent) as Hno.
      by eapply mal_one_param.
Qed.

Lemma bracket_prefixes body c pre post :
  Forall (λ c, is_body_char c = true) body →
  ESC :: ch "[" :: body ++ [c] = pre ++ post → pre ≠ [] → post ≠ [] →
  ∃ state l, run pre NewLexer = Some (state, l) ∧ state ≠ Ground.
Proof.
  intros Hbody Heq Hpre Hpost.
  destruct pre as [|p1 [|p2 pre]]; [done| |]; cbn [app] in Heq.
  - injection Heq as <- _. eexists _, _. split; [by vm_compute | done].
  - injection Heq as <- <- Heq.
    destruct post as [|x post _] using rev_ind; [done|].
    rewrite app_assoc in Heq. apply app_inj_tail in Heq as [-> ->].
    apply Forall_app in Hbody as [Hpre' _].
    change (ESC :: ch "[" :: pre) with ([ESC; ch "["] ++ pre).
    unfold run. rewrite run_from_app.
    rewrite (run_ESC_family NewLexer _ AfterLeftSquareBracket)
      by by apply list_elem_of_here.
    erewrite run_body by done. eauto.
Qed.

Lemma single_prefixes f c state pre post :
  run [ESC; f] NewLexer = Some (state, mkLexer [] None None (Some [ESC; f])) →
  state ≠ Ground →
  [ESC; f; c] = pre ++ post → pre ≠ [] → post ≠ [] →
  ∃ state l, run pre NewLexer = Some (state, l) ∧ state ≠ Ground.
Proof.
  intros Hrun Hst Heq Hpre Hpost.
  destruct pre as [|p1 [|p2 [|p3 pre]]]; [done| | |]; simplify_eq/=.
  - eexists _, _. split; [by vm_compute | done].
  - eauto.
  - by destruct pre.
Qed.

Lemma param_terminator_7bit (c tv : Z) :
  (c, tv) ∈ two_param_terminators ++ one_param_terminators → 0 ≤ c < 128.
Proof.
  unfold two_param_terminators, one_param_terminators. cbn [app].
  rewrite !elem_of_cons, elem_of_nil.
  intros [[= -> _]|[[= -> _]|[[= -> _]|[[= -> _]|[[= -> _]|[[= -> _]|
          [[= -> _]|[]]]]]]]]; done.
Qed.

(** A malformed sequence is a complete escape sequence. *)
Lemma malformed_complete input : malformed input → complete input.
Proof.
  intros Hmal.
  assert (∀ body c, Forall (λ c, is_body_char c = true) body → 0 ≤ c < 128 →
            Forall (λ b, 0 ≤ b < 128) (ESC :: ch "[" :: body ++ [c])) as Hseven.
  { intros body c Hbody Hc. repeat (apply Forall_cons; split; [done|]).
    apply Forall_app. split; [|by apply Forall_singleton].
    eapply Forall_impl; [done|]. intros x Hx. apply body_char_7bit in Hx. lia. }
  split_and!.
  - destruct Hmal
      as [ c Hc7 _ _ | c Hc7 _ | c Hc7 _ | c Hc7 _ | d c Hd _ Hc7 _
         | body c Hbody Hc7 _ _ | body c Hbody Hc7 _ _ | body c cases Hbody Hc _
         | body c tv Hbody Hc _ _ | body c tv Hbody Hc _ ];
      try (apply Hseven; [done|]); try done.
    + by repeat (apply Forall_cons; split; [done|]).
    + by repeat (apply Forall_cons; split; [done|]).
    + by repeat (apply Forall_cons; split; [done|]).
    + by repeat (apply Forall_cons; split; [done|]).
    + apply IsDigit_spec in Hd.
      by repeat (apply Forall_cons; split; [done || lia|]).
    + by apply literal_terminator_letter in Hc as [? _].
    + apply (param_terminator_7bit c tv), elem_of_app. by left.
    + apply (param_terminator_7bit c tv), elem_of_app. by right.
  - destruct Hmal; eauto.
  - unfold run. rewrite (run_malformed NewLexer input Hmal). eauto.
  - intros pre post Heq Hpre Hpost.
    destruct Hmal
      as [ c _ _ _ | c _ _ | c _ _ | c _ _ | d c Hd Hf _ _
         | body c Hbody _ _ _ | body c Hbody _ _ _ | body c cases Hbody _ _
         | body c tv Hbody _ _ _ | body c tv Hbody _ _ ];
      try (by eapply bracket_prefixes).
    + destruct pre as [|p1 [|p2 pre]]; [done| |]; simplify_eq/=.
      * eexists _, _. split; [by vm_compute | done].
      * by destruct pre.
    + eapply (single_prefixes (ch "(") c AfterLeftParen); [by vm_compute|done..].
    + eapply (single_prefixes (ch ")") c AfterRightParen); [by vm_compute|done..].
    + eapply (single_prefixes (ch "#") c EscPound); [by vm_compute|done..].
    + eapply (single_prefixes d c EscapeDigit); [|done..].
      rewrite run_ESC_byte by (apply IsDigit_spec in Hd; lia).
      unfold intermediateChar. rewrite switch_notin by done. by rewrite Hd.
Qed.

(** The malformed sequences are the complete escape sequences that send
    nothing. *)
Theorem malformed_characterised input :
  malformed input ↔ complete input ∧ obs (run input NewLexer) = Some (Ground, []).
Proof.
  split.
  - intros Hmal. pose proof (malformed_complete input Hmal) as Hcomplete.
    split; [done|]. by apply malformed_iff_silent.
  - intros [Hcomplete Hsilent]. by apply malformed_iff_silent.
Qed.

(** ** Cursor positioning and the other parameterized sequences *)

(** A bracket sequence given as the text after [ESC \[]. *)
Lemma run_bracket_text l text body c :
  text = body ++ [c] →
  Forall (λ c, is_body_char c = true) body →
  0 ≤ c < 128 → unicode.IsLetter c = true →
  run_from Ground (ESC :: ch "[" :: text) l =
    (term_switch c text ;; ret Ground)
      (mkLexer (Output l) None None (Some (ESC :: ch "[" :: text))).
Proof. intros ->. apply run_bracket. Qed.

(** Run a bracket sequence whose text is a closed list. *)
Ltac run_closed_bracket :=
  match goal with
  | |- context [run_from Ground (ESC :: ?lb :: ?text) ?l] =>
      let body := eval vm_compute in (removelast text) in
      let c := eval vm_compute in (List.last text 0) in
      rewrite (run_bracket_text l text body c);
      [ | reflexivity | by repeat constructor | by vm_compute | reflexivity ]
  end.

(** C1 (amended).  For numerals [dv] and [dh] whose values fit a byte, the
    bytes [ESC \[ dv ; dh H] fed in the ground state send exactly one token,
    [CursorPos] with params [\[v; h\]]; [ESC \[ H] and [ESC \[ ; H] send
    exactly one token, [CursorHome] without params; each time the lexer is
    back in the ground state. *)
Theorem C1_cursor_position l dv dh :
  numeral dv → numeral dh → decval dv ≤ 255 → decval dh ≤ 255 →
  let pos := ESC :: ch "[" :: (dv ++ ch ";" :: dh) ++ [ch "H"] in
  obs (run_from Ground pos l) =
    Some (Ground,
          Output l ++ [mkToken CursorPos (Some [decval dv; decval dh]) (Some pos)])
  ∧ obs (run_from Ground (ESC :: str "[H") l) =
      Some (Ground, Output l ++ [mkToken CursorHome None (Some (ESC :: str "[H"))])
  ∧ obs (run_from Ground (ESC :: str "[;H") l) =
      Some (Ground, Output l ++ [mkToken CursorHome None (Some (ESC :: str "[;H"))]).
Proof.
  intros Hv Hh Hv255 Hh255 pos. split_and!.
  - pose proof (run_two_params l dv dh [] (ch "H") CursorPos) as Hrun.
    rewrite app_nil_r in Hrun. unfold pos.
    rewrite Hrun; [|by apply list_elem_of_further, list_elem_of_here|done..].
    by rewrite decide_True.
  - change (str "[H") with (ch "[" :: [ch "H"]). run_closed_bracket. reflexivity.
  - change (str "[;H") with (ch "[" :: [ch ";"; ch "H"]). run_closed_bracket.
    reflexivity.
Qed.

Lemma C1_cursor_position_witness :
  obs (run (ESC :: str "[13;17H") NewLexer) =
    Some (Ground, [mkToken CursorPos (Some [13; 17]) (Some (ESC :: str "[13;17H"))]).
Proof.
  refine (proj1 (C1_cursor_position NewLexer (str "13") (str "17") _ _ _ _));
    try (split; [done | by repeat constructor]); by vm_compute.
Defined.

(** The claim as stated fails at v = 256: no token is sent. *)
Lemma C1_counterexample :
  numeral (str "256") ∧ numeral (str "1")
  ∧ lex (ESC :: str "[256;1H") = Some (Ground, []).
Proof. split_and!; [split; [done | by repeat constructor]..|]. by vm_compute. Qed.

(** C5 (amended).  The numeric parameters of the sequences ending in [r],
    [A], [B], [C], [D], [H] and [f] are decoded as non-negative integers in
    the single-byte range 0-255, which covers every numeral of at most two
    digits: a sequence whose numerals all have a value of at most 255 sends
    its token with the decoded values, one with a numeral above 255 sends
    nothing.
    When the text after [ESC \[] does not start with the expected integer
    pattern, nothing is sent either.  In every case the lexer is back in the
    ground state. *)
Theorem C5_parameters_fit_a_byte l :
  (∀ dv dh c tv,
     (c, tv) ∈ two_param_terminators → numeral dv → numeral dh →
     let input := ESC :: ch "[" :: (dv ++ ch ";" :: dh) ++ [c] in
     0 ≤ decval dv ∧ 0 ≤ decval dh
     ∧ obs (run_from Ground input l) =
         Some (Ground,
               Output l ++
                 if decide (decval dv ≤ 255 ∧ decval dh ≤ 255)
                 then [mkToken tv (Some [decval dv; decval dh]) (Some input)]
                 else []))
  ∧ (∀ dn c tv,
       (c, tv) ∈ one_param_terminators → numeral dn →
       let input := ESC :: ch "[" :: dn ++ [c] in
       0 ≤ decval dn
       ∧ obs (run_from Ground input l) =
           Some (Ground,
                 Output l ++
                   if decide (decval dn ≤ 255)
                   then [mkToken tv (Some [decval dn]) (Some input)]
                   else []))
  ∧ (∀ dn, numeral dn → (length dn ≤ 2)%nat → decval dn ≤ 255)
  ∧ (∀ body c tv,
       (c, tv) ∈ two_param_terminators →
       Forall (λ c, is_body_char c = true) body →
       body ++ [c] ∉ home_bodies →
       ¬ two_byte_numerals (body ++ [c]) →
       obs (run_from Ground (ESC :: ch "[" :: body ++ [c]) l) =
         Some (Ground, Output l))
  ∧ (∀ body c tv,
       (c, tv) ∈ one_param_terminators →
       Forall (λ c, is_body_char c = true) body →
       ¬ one_byte_numeral (body ++ [c]) →
       obs (run_from Ground (ESC :: ch "[" :: body ++ [c]) l) =
         Some (Ground, Output l)).
Proof.
  split_and!.
  - intros dv dh c tv Hc Hv Hh input.
    split; [apply decval_nonneg, Hv|]. split; [apply decval_nonneg, Hh|].
    pose proof (run_two_params l dv dh [] c tv Hc Hv Hh) as Hrun.
    rewrite app_nil_r in Hrun. unfold input.
    rewrite Hrun by done. case_decide; [done|]. cbn. by rewrite app_nil_r.
  - intros dn c tv Hc Hn input. split; [apply decval_nonneg, Hn|].
    pose proof (run_one_param l dn [] c tv Hc Hn) as Hrun.
    rewrite app_nil_r in Hrun. unfold input.
    rewrite Hrun by done. case_decide; [done|]. cbn. by rewrite app_nil_r.
  - intros dn Hn Hlen. pose proof (two_digits dn Hn Hlen). lia.
  - intros body c tv Hc Hbody Hhome Hnot. by erewrite run_two_params_fail.
  - intros body c tv Hc Hbody Hnot. by erewrite run_one_param_fail.
Qed.

Lemma C5_parameters_fit_a_byte_witness :
  obs (run (ESC :: str "[99;255r") NewLexer) =
    Some (Ground, [mkToken SetWin (Some [99; 255]) (Some (ESC :: str "[99;255r"))])
  ∧ obs (run (ESC :: str "[7C") NewLexer) =
      Some (Ground, [mkToken CursorRt (Some [7]) (Some (ESC :: str "[7C"))])
  ∧ obs (run (ESC :: str "[1;f") NewLexer) = Some (Ground, [])
  ∧ obs (run (ESC :: str "[;5B") NewLexer) = Some (Ground, []).
Proof.
  split_and!.
  - refine (proj2 (proj2 (proj1 (C5_parameters_fit_a_byte NewLexer)
              (str "99") (str "255") (ch "r") SetWin _ _ _)));
      [by apply list_elem_of_here | split; [done | by repeat constructor]..].
  - refine (proj2 (proj1 (proj2 (C5_parameters_fit_a_byte NewLexer))
              (str "7") (ch "C") CursorRt _ _));
      [by do 2 apply list_elem_of_further; apply list_elem_of_here
      | split; [done | by repeat constructor]].
  - refine (proj1 (proj2 (proj2 (proj2 (C5_parameters_fit_a_byte NewLexer))))
              (str "1;") (ch "f") HvPos _ _ _ _).
    + by do 2 apply list_elem_of_further; apply list_elem_of_here.
    + by repeat constructor.
    + apply (bool_decide_unpack _). by vm_compute.
    + intros (dv & dh & rest & Heq & [_ Hdv] & [Hne Hdh] & _).
      change (str "1;" ++ [ch "f"]) with [49; 59; 102] in Heq.
      change (ch ";") with 59 in Heq.
      destruct dv as [|d1 [|d2 dv]]; simplify_eq/=.
      * destruct dh as [|d dh]; simplify_eq/=.
        apply Forall_cons in Hdh as [Hd _]. by vm_compute in Hd.
      * apply Forall_cons in Hdv as [_ Hdv].
        apply Forall_cons in Hdv as [Hd _]. by vm_compute in Hd.
  - refine (proj2 (proj2 (proj2 (proj2 (C5_parameters_fit_a_byte NewLexer))))
              (str ";5") (ch "B") CursorDn _ _ _).
    + by apply list_elem_of_further, list_elem_of_here.
    + by repeat constructor.
    + intros (dn & rest & Heq & [Hne Hdn] & _).
      change (str ";5" ++ [ch "B"]) with [59; 53; 66] in Heq.
      destruct dn as [|d dn]; simplify_eq/=.
      apply Forall_cons in Hdn as [Hd _]. by vm_compute in Hd.
Defined.

(** The claim as stated fails at v = 300: [ESC \[ 300 ; 5 H] sends no
    token. *)
Lemma C5_counterexample :
  numeral (str "300") ∧ numeral (str "5") ∧ decval (str "300") ≤ 999
  ∧ lex (ESC :: str "[300;5H") = Some (Ground, []).
Proof. split_and!; [split; [done | by repeat constructor]..| |]; by vm_compute. Qed.

(** C9.  The parameterized terminators match the text after [ESC \[] by
    prefix: once its leading characters are the expected numerals (in the
    byte range), the token is sent with the decoded parameters whatever body
    characters [extra] stand between them and the terminator, as long as
    [extra] does not go on with a digit (which would belong to the last
    numeral). *)
Theorem C9_prefix_match l extra :
  Forall (λ c, is_body_char c = true) extra → no_digit_ahead extra →
  (∀ dv dh c tv,
     (c, tv) ∈ two_param_terminators →
     numeral dv → numeral dh → decval dv ≤ 255 → decval dh ≤ 255 →
     let input := ESC :: ch "[" :: (dv ++ ch ";" :: dh ++ extra) ++ [c] in
     obs (run_from Ground input l) =
       Some (Ground,
             Output l ++ [mkToken tv (Some [decval dv; decval dh]) (Some input)]))
  ∧ (∀ dn c tv,
       (c, tv) ∈ one_param_terminators →
       numeral dn → decval dn ≤ 255 →
       let input := ESC :: ch "[" :: (dn ++ extra) ++ [c] in
       obs (run_from Ground input l) =
         Some (Ground, Output l ++ [mkToken tv (Some [decval dn]) (Some input)])).
Proof.
  intros Hextra Hahead. split.
  - intros dv dh c tv Hc Hv Hh Hv255 Hh255 input. unfold input.
    rewrite (run_two_params l dv dh extra c tv) by done. by rewrite decide_True.
  - intros dn c tv Hc Hn Hn255 input. unfold input.
    rewrite (run_one_param l dn extra c tv) by done. by rewrite decide_True.
Qed.

Lemma C9_prefix_match_witness :
  obs (run (ESC :: str "[1;2;3H") NewLexer) =
    Some (Ground, [mkToken CursorPos (Some [1; 2]) (Some (ESC :: str "[1;2;3H"))])
  ∧ obs (run (ESC :: str "[5;6A") NewLexer) =
      Some (Ground, [mkToken CursorUp (Some [5]) (Some (ESC :: str "[5;6A"))]).
Proof.
  split.
  - refine (proj1 (C9_prefix_match NewLexer (str ";3") _ _)
              (str "1") (str "2") (ch "H") CursorPos _ _ _ _ _);
      [by repeat constructor | done
      | by apply list_elem_of_further, list_elem_of_here
      | split; [done | by repeat constructor]..
      | by vm_compute | by vm_compute ].
  - refine (proj2 (C9_prefix_match NewLexer (str ";6") _ _)
              (str "5") (ch "A") CursorUp _ _ _);
      [by repeat constructor | done
      | by apply list_elem_of_here
      | split; [done | by repeat constructor]
      | by vm_compute ].
Defined.

(** ** The mode-setting family *)

(** C4 (amended).  For each digit n among 1, 3, 4, 5, 6, 7, 8 and 9 the
    bytes [ESC \[ ? n h] send exactly one token: [SetAppl], [SetCol],
    [SetSmooth], [SetRevScrn], [SetOrgRel], [SetWrap], [SetRep] and
    [SetInter] respectively.  [ESC \[ ? 2 h] sends no token.  (These eight
    discriminators are not consecutive values of the catalog.) *)
Theorem C4_set_modes l :
  Forall (λ '(n, tv),
            obs (run_from Ground (ESC :: ch "[" :: [ch "?"; n; ch "h"]) l) =
              Some (Ground,
                    Output l ++
                      [mkToken tv None (Some (ESC :: ch "[" :: [ch "?"; n; ch "h"]))]))
    [ (ch "1", SetAppl); (ch "3", SetCol); (ch "4", SetSmooth);
      (ch "5", SetRevScrn); (ch "6", SetOrgRel); (ch "7", SetWrap);
      (ch "8", SetRep); (ch "9", SetInter) ]
  ∧ obs (run_from Ground (ESC :: str "[?2h") l) = Some (Ground, Output l).
Proof.
  split.
  - repeat (apply Forall_cons_2; [run_closed_bracket; reflexivity|]).
    apply Forall_nil_2.
  - change (str "[?2h") with (ch "[" :: [ch "?"; ch "2"; ch "h"]).
    run_closed_bracket. reflexivity.
Qed.

(** The claim as stated fails at n = 2: [ESC \[ ? 2 h] sends no token. *)
Lemma C4_counterexample : lex (ESC :: str "[?2h") = Some (Ground, []).
Proof. by vm_compute. Qed.

(** The tokens the family sends are not consecutive catalog values either:
    [SetAppl] is -49 and [SetInter] is -52, with [SetCursor] between them. *)
Lemma set_mode_values :
  [SetAppl; SetCol; SetSmooth; SetRevScrn; SetOrgRel; SetWrap; SetRep; SetInter]
  = [-49; -50; -61; -60; -58; -72; -59; -52].
Proof. reflexivity. Qed.

(** ** The ground state and the 7-bit mask *)

Lemma ground_eq c l :
  ground c l =
    if decide (c = ESC)
    then Some (IntermediateChar, mkLexer (Output l) None None (Some [c]))
    else Some (Ground, sent l [mkToken c None None] None None).
Proof.
  unfold ground, bind, reset. cbn.
  destruct (Z.eqb_spec c 27); case_decide; done.
Qed.

Lemma run_plain input : ∀ l,
  Forall (λ b, 0 ≤ b < 128 ∧ b ≠ ESC) input →
  obs (run_from Ground input l) =
    Some (Ground, Output l ++ ((λ b, mkToken b None None) <$> input)).
Proof.
  induction input as [|b input IH]; intros l Hin.
  - cbn. by rewrite app_nil_r.
  - apply Forall_cons in Hin as [[H7 Hb] Hin].
    cbn [run_from]. unfold bind.
    rewrite step_Ground_plain by by rewrite mask_7bit.
    rewrite IH by done. rewrite mask_7bit by done.
    cbn. by rewrite <- app_assoc.
Qed.

(** C2.  In the ground state the escape introducer 0x1B sends nothing,
    starts a new sequence buffer and selects the state after the escape;
    any other byte sends exactly one token whose discriminator is that
    byte, with the lexer staying in the ground state.  This holds of the
    state function [ground] for every byte it is called with, hence of one
    turn of the loop for the byte as masked by [run]; a run of n plain 7-bit
    bytes sends exactly n tokens, one per byte. *)
Theorem C2_ground_state l :
  (∀ c, ground c l =
          if decide (c = 0x1b)
          then Some (IntermediateChar, mkLexer (Output l) None None (Some [c]))
          else Some (Ground,
                     mkLexer (Output l ++ [mkToken c None None]) None None None))
  ∧ (∀ b, step Ground b l =
            if decide (mask b = 0x1b)
            then Some (IntermediateChar,
                       mkLexer (Output l) None None (Some [mask b]))
            else Some (Ground,
                       mkLexer (Output l ++ [mkToken (mask b) None None])
                               None None None))
  ∧ (∀ b, 0 ≤ b < 128 → mask b = b)
  ∧ (∀ input, Forall (λ b, 0 ≤ b < 128 ∧ b ≠ 0x1b) input →
       ∃ toks, obs (run_from Ground input l) = Some (Ground, Output l ++ toks)
               ∧ length toks = length input
               ∧ Value <$> toks = input).
Proof.
  split_and!.
  - intros c. apply ground_eq.
  - intros b. case_decide as Hb.
    + rewrite Hb. by apply step_Ground_esc.
    + by apply step_Ground_plain.
  - apply mask_7bit.
  - intros input Hin. exists ((λ b, mkToken b None None) <$> input).
    split_and!; [by apply run_plain | by rewrite length_fmap |].
    rewrite <- list_fmap_compose. apply list_fmap_id.
Qed.

Lemma C2_ground_state_witness :
  mask (ch "A") = ch "A"
  ∧ ∃ toks, obs (run (str "vt100") NewLexer) = Some (Ground, toks)
            ∧ length toks = 5%nat ∧ Value <$> toks = str "vt100".
Proof.
  split.
  - refine (proj1 (proj2 (proj2 (C2_ground_state NewLexer))) (ch "A") _).
    by vm_compute.
  - refine (proj2 (proj2 (proj2 (C2_ground_state NewLexer))) (str "vt100") _).
    repeat constructor; by vm_compute.
Defined.

(** C8.  Every input byte is masked to 7 bits before anything else: one
    turn of the loop on [b] is the same as on [b AND 0x7F], from every
    state and lexer, so two inputs that differ only in the high bit of their
    bytes behave alike.  Byte 0x9B acts as the escape introducer, and a
    plain byte [b >= 0x80] fed in the ground state sends the token whose
    discriminator is [b - 128]. *)
Theorem C8_seven_bit_mask :
  (∀ state b l, step state b l = step state (Z.land b 0x7f) l)
  ∧ (∀ input state l,
       run_from state input l = run_from state ((λ b, Z.land b 0x7f) <$> input) l)
  ∧ (∀ l, step Ground 0x9b l = step Ground 0x1b l
          ∧ step Ground 0x9b l =
              Some (IntermediateChar, mkLexer (Output l) None None (Some [0x1b])))
  ∧ (∀ l b, 0x80 ≤ b ≤ 0xff → b ≠ 0x9b →
       step Ground b l =
         Some (Ground,
               mkLexer (Output l ++ [mkToken (b - 128) None None]) None None None)).
Proof.
  assert (∀ state b l, step state b l = step state (Z.land b 0x7f) l) as Hstep.
  { intros state b l. unfold step. fold (mask b). fold (mask (mask b)).
    by rewrite mask_idemp. }
  split_and!.
  - done.
  - induction input as [|b input IH]; intros state l; [done|].
    cbn [fmap list_fmap run_from]. unfold bind. rewrite <- Hstep.
    destruct (step state b l) as [[state' l']|]; [apply IH | done].
  - intros l. split; [apply Hstep | by apply step_Ground_esc].
  - intros l b Hb Hne.
    assert (mask b = b - 128) as Hm.
    { rewrite mask_mod. symmetry. apply Z.mod_unique with 1; lia. }
    rewrite step_Ground_plain by (rewrite Hm; unfold ESC; lia).
    by rewrite Hm.
Qed.

Lemma C8_seven_bit_mask_witness :
  step Ground 0xc1 NewLexer =
    Some (Ground, mkLexer [mkToken (ch "A") None None] None None None).
Proof.
  refine (proj2 (proj2 (proj2 C8_seven_bit_mask)) NewLexer 0xc1 _ _); lia.
Defined.

(** ** The token catalog *)

(** C7.  [init] builds the label map without panicking, and with it the
    name lookup [String] returns, for each of the 81 named discriminators,
    its identifier, and for any other value, among them every raw character
    value 0-127, the marker ["?"]. *)
Theorem C7_name_lookup :
  Catalog.init = Some labelMap
  ∧ length named = 81%nat
  ∧ NoDup named_values
  ∧ Forall (λ '(tv, name), String tv = name) named
  ∧ (∀ t, t ∉ named_values → String t = "?")
  ∧ (∀ c, 0 ≤ c ≤ 127 → String c = "?").
Proof.
  split_and!.
  - apply init_ok.
  - reflexivity.
  - apply (bool_decide_unpack _). by vm_compute.
  - apply (bool_decide_unpack _). by vm_compute.
  - intros t Ht. apply String_unnamed. by rewrite <- named_values_range.
  - intros c Hc. apply String_unnamed. lia.
Qed.

Lemma C7_name_lookup_witness : String (ch "A") = "?" ∧ String (-82) = "?".
Proof.
  split.
  - refine (proj2 (proj2 (proj2 (proj2 (proj2 C7_name_lookup)))) (ch "A") _).
    by vm_compute.
  - refine (proj1 (proj2 (proj2 (proj2 (proj2 C7_name_lookup)))) (-82) _).
    apply (bool_decide_unpack _). by vm_compute.
Defined.

(** ** What every token looks like *)

Lemma run_inv_values input :
  ∃ state l,
    run input NewLexer = Some (state, l) ∧ inv input state l
    ∧ Forall (λ t, Value t ∈ named_values ∨ 0 ≤ Value t ≤ 127) (Output l).
Proof.
  induction input as [|b input (state & l & Hrun & Hinv & Hvals)] using rev_ind.
  - exists Ground, NewLexer. split_and!; [done | by left | constructor].
  - destruct (step_inv input b state l Hrun Hinv)
      as (state' & l' & Hstep & Hinv' & Hsends).
    exists state', l'. split_and!; [|done|].
    + unfold run in *. by rewrite run_from_snoc, Hrun.
    + destruct Hsends as [->|(t & -> & Ht)]; [done|].
      apply Forall_app. split; [done|]. apply Forall_singleton.
      destruct Ht as [[_ ->]|(_ & Hnamed & _)]; [|by left].
      right. apply mask_range.
Qed.

(** C10.  The lexer never panics, and every token it ever sends has a
    discriminator that is one of the 81 named catalog values, all of them
    strictly negative, or a raw byte value in 0-127: the two sets are
    disjoint. *)
Theorem C10_discriminators :
  length named_values = 81%nat
  ∧ Forall (λ tv, tv < 0) named_values
  ∧ ∀ input, ∃ state l,
      run input NewLexer = Some (state, l)
      ∧ Forall (λ t, Value t ∈ named_values ∨ 0 ≤ Value t ≤ 127) (Output l).
Proof.
  split_and!.
  - reflexivity.
  - apply Forall_forall. intros tv Htv. apply named_values_range in Htv. lia.
  - intros input.
    destruct (run_inv_values input) as (state & l & Hrun & _ & Hvals). eauto.
Qed.

(** C6 (amended).  After any input [pre], one more byte [b] makes the lexer
    send nothing or exactly one token.  A token for a recognized escape
    sequence carries in its raw field exactly the 7-bit-masked input bytes
    [sq] of that sequence, from the escape introducer, fed in the ground
    state, through [b], the lexer not having been back in the ground state
    in between; a token for a plain character sent from the ground state
    has a nil raw field. *)
Theorem C6_raw_bytes pre b :
  ∃ state l state' l',
    run pre NewLexer = Some (state, l)
    ∧ step state b l = Some (state', l')
    ∧ (Output l' = Output l
       ∨ ∃ t, Output l' = Output l ++ [t]
              ∧ ((state = Ground ∧ t = mkToken (mask b) None None)
                 ∨ (state ≠ Ground ∧ Value t ∈ named_values
                    ∧ ∃ sq, sequence_at (pre ++ [b]) sq
                            ∧ tok_seq t = Some (mask <$> sq)))).
Proof.
  destruct (run_inv pre) as (state & l & Hrun & Hinv).
  destruct (step_inv pre b state l Hrun Hinv) as (state' & l' & Hstep & _ & Hsends).
  by exists state, l, state', l'.
Qed.

Lemma C6_raw_bytes_witness :
  ∃ state l state' l',
    run (ESC :: str "[13;17") NewLexer = Some (state, l)
    ∧ step state (ch "H") l = Some (state', l')
    ∧ (Output l' = Output l
       ∨ ∃ t, Output l' = Output l ++ [t]
              ∧ ((state = Ground ∧ t = mkToken (mask (ch "H")) None None)
                 ∨ (state ≠ Ground ∧ Value t ∈ named_values
                    ∧ ∃ sq, sequence_at ((ESC :: str "[13;17") ++ [ch "H"]) sq
                            ∧ tok_seq t = Some (mask <$> sq)))).
Proof. exact (C6_raw_bytes (ESC :: str "[13;17") (ch "H")). Defined.

(** The claim as stated fails for a plain character: the token sent for
    ["A"] has a nil raw field, not the byte ["A"]. *)
Lemma C6_counterexample :
  ∃ t, lex (str "A") = Some (Ground, [t])
       ∧ Value t = ch "A" ∧ tok_seq t = None ∧ tok_seq t ≠ Some (str "A").
Proof. exists (mkToken (ch "A") None None). by vm_compute. Qed.

(** ** Malformed sequences *)



(** Each way of being malformed, on an example. *)
Lemma malformed_examples :
  malformed (ESC :: str "Z") ∧ malformed (ESC :: str "(C")
  ∧ malformed (ESC :: str ")3") ∧ malformed (ESC :: str "#7")
  ∧ malformed (ESC :: str "5x") ∧ malformed (ESC :: str "[12 ")
  ∧ malformed (ESC :: str "[99z") ∧ malformed (ESC :: str "[?2h")
  ∧ malformed (ESC :: str "[256;1H") ∧ malformed (ESC :: str "[A").
Proof.
  split_and!.
  - apply mal_follow_up; [by vm_compute | | done].
    apply (bool_decide_unpack _). by vm_compute.
  - apply mal_left_paren; [by vm_compute|].
    apply (bool_decide_unpack _). by vm_compute.
  - apply mal_right_paren; [by vm_compute|].
    apply (bool_decide_unpack _). by vm_compute.
  - apply mal_pound; [by vm_compute|].
    apply (bool_decide_unpack _). by vm_compute.
  - apply mal_digit; [done | | by vm_compute | ];
      apply (bool_decide_unpack _); by vm_compute.
  - apply (mal_weird_byte (str "12") (ch " ")); [by repeat constructor|by vm_compute|done..].
  - apply (mal_terminator (str "99") (ch "z"));
      [by repeat constructor | by vm_compute | done |].
    apply (bool_decide_unpack _). by vm_compute.
  - apply (mal_literal (str "?2") (ch "h") cases_h);
      [by repeat constructor | by apply list_elem_of_here |].
    apply (bool_decide_unpack _). by vm_compute.
  - apply (mal_two_params (str "256;1") (ch "H") CursorPos);
      [by repeat constructor | by apply list_elem_of_further, list_elem_of_here | |].
    + apply (bool_decide_unpack _). by vm_compute.
    + intros (dv & dh & rest & Heq & [_ Hdv] & _ & _ & Hv & _).
      change (str "256;1" ++ [ch "H"]) with [50; 53; 54; 59; 49; 72] in Heq.
      change (ch ";") with 59 in Heq.
      destruct dv as [|d1 [|d2 [|d3 [|d4 dv]]]]; simplify_eq/=.
      * by vm_compute in Hv.
      * do 3 apply Forall_cons in Hdv as [_ Hdv].
        apply Forall_cons in Hdv as [Hd _]. by vm_compute in Hd.
  - apply (mal_one_param [] (ch "A") CursorUp);
      [by repeat constructor | by apply list_elem_of_here |].
    intros (dn & rest & Heq & [Hne Hdn] & _).
    destruct dn as [|d dn]; simplify_eq/=.
    apply Forall_cons in Hdn as [Hd _]. by vm_compute in Hd.
Qed.

(** * Further properties of the lexer *)

(** ** One turn of the loop, from any state the lexer can be in *)

Lemma inv_seq pre state l :
  inv pre state l → state ≠ Ground →
  ∃ s, seq l = Some s ∧ (1 ≤ length s)%nat.
Proof.
  intros [?|(_ & sq & Hat & Hseq & _)] Hst; [done|].
  exists (mask <$> sq). split; [done|].
  rewrite length_fmap. by eapply sequence_at_nonempty.
Qed.

(** What one turn does to the output and to the buffer: it sends nothing
    or, on its way to the ground state, one token; outside the ground state
    the buffer has grown by the byte. *)
Lemma step_turn pre b state l :
  run pre NewLexer = Some (state, l) → inv pre state l →
  ∃ state' l' toks,
    step state b l = Some (state', l')
    ∧ Output l' = Output l ++ toks
    ∧ (toks = [] ∨ state' = Ground ∧ ∃ t, toks = [t])
    ∧ (state' ≠ Ground → buffered state' l' = S (buffered state l)).
Proof.
  intros Hrun Hinv. unfold buffered.
  destruct (decide (state = Ground)) as [->|Hst].
  - destruct (decide (mask b = ESC)) as [Hb|Hb].
    + rewrite step_Ground_esc by done. eexists _, _, []. split; [done|].
      rewrite app_nil_r. split_and!; [done | by left | done].
    + rewrite step_Ground_plain by done. eexists _, _, _.
      split; [done|]. split_and!; [done | right; eauto | done].
  - destruct (inv_seq _ _ _ Hinv Hst) as (s & Hseq & Hlen).
    rewrite (step_append _ _ _ _ Hseq).
    destruct (call_turn_ok state (mask b)
                (mkLexer (Output l) (paramCharsAccum l) (params l)
                         (Some (s ++ [mask b])))
                (s ++ [mask b]) Hst eq_refl)
      as (state' & toks & ps & Hcall & Htoks).
    { rewrite length_app. cbn. lia. }
    rewrite Hcall. eexists _, _, toks. split; [done|].
    cbn [Output seq]. split_and!; [done| |].
    + destruct Htoks as [->|(-> & tv & _ & ->)]; [by left | right; eauto].
    + intros Hst'. rewrite decide_False by done. rewrite Hseq. cbn.
      rewrite length_app. cbn. lia.
Qed.


(** ** Bytes that always bring the lexer back to the ground state *)

Lemma follow_up_keys c :
  c ∉ follow_ups →
  ∀ l, intermediateChar c l =
         (if unicode.IsDigit c then ret EscapeDigit else ret Ground) l.
Proof. intros Hc l. unfold intermediateChar. by rewrite switch_notin. Qed.

(** The escape introducer, called outside the ground state, is dropped
    along with the sequence under way. *)
Lemma call_ESC state l s :
  state ≠ Ground → seq l = Some (s ++ [ESC]) → (1 ≤ length s)%nat →
  call state ESC l = Some (Ground, l).
Proof.
  intros Hst Hseq Hlen. destruct state; [done|..]; cbn [call].
  - rewrite follow_up_keys; [done|]. apply (bool_decide_unpack _). by vm_compute.
  - reflexivity.
  - unfold afterLeftParen, bind. rewrite switch_notin; [done|].
    apply (bool_decide_unpack _). by vm_compute.
  - unfold afterRightParen, bind. rewrite switch_notin; [done|].
    apply (bool_decide_unpack _). by vm_compute.
  - unfold escPound, bind. rewrite switch_notin; [done|].
    apply (bool_decide_unpack _). by vm_compute.
  - unfold escapeDigit, bind.
    rewrite (seq_from_ok 1 l (s ++ [ESC])) by (done || rewrite length_app; lia).
    rewrite switch_notin; [done|].
    rewrite drop_app_le by done. cbn [fmap list_fmap fst].
    rewrite !not_elem_of_cons. split_and!; [| |apply not_elem_of_nil].
    + change (str "5n") with ([53] ++ [110]). intros [_ [=]]%app_inj_tail.
    + change (str "6n") with ([54] ++ [110]). intros [_ [=]]%app_inj_tail.
Qed.

(** X2.  An escape introducer that arrives while a sequence is under way
    does not start a new sequence: in every state but the ground state it
    is consumed, nothing is sent, and the lexer goes to the ground state, so
    that the bytes after it are lexed as plain input. *)
Theorem escape_inside_sequence_dropped input b :
  mask b = ESC →
  ∃ state l,
    run input NewLexer = Some (state, l)
    ∧ (state ≠ Ground →
       ∃ l', step state b l = Some (Ground, l') ∧ Output l' = Output l).
Proof.
  intros Hb. destruct (run_inv input) as (state & l & Hrun & Hinv).
  exists state, l. split; [done|]. intros Hst.
  destruct (inv_seq _ _ _ Hinv Hst) as (s & Hseq & Hlen).
  rewrite (step_append _ _ _ _ Hseq), Hb.
  erewrite call_ESC; [eauto|done|reflexivity|done].
Qed.

Lemma escape_inside_sequence_dropped_witness :
  ∃ state l,
    run (ESC :: str "[12") NewLexer = Some (state, l)
    ∧ (state ≠ Ground →
       ∃ l', step state 0x9b l = Some (Ground, l') ∧ Output l' = Output l).
Proof.
  apply (escape_inside_sequence_dropped (ESC :: str "[12") 0x9b). reflexivity.
Defined.

(** For instance the second escape of [ESC ESC \[ H] ends the sequence the
    first one started, and [\[ H] comes out as two plain characters. *)
Lemma escape_twice :
  lex (ESC :: ESC :: str "[H") =
    Some (Ground, [mkToken (ch "[") None None; mkToken (ch "H") None None]).
Proof. by vm_compute. Qed.

Lemma letter_range c :
  0 ≤ c < 128 → unicode.IsLetter c = true → 65 ≤ c ≤ 90 ∨ 97 ≤ c ≤ 122.
Proof.
  intros H7. unfold unicode.IsLetter, in_range.
  repeat match goal with
         | |- context [?a <=? ?b] => destruct (Z.leb_spec a b)
         | |- context [?a =? ?b] => destruct (Z.eqb_spec a b)
         end; cbn; intros; first [lia | discriminate].
Qed.

Lemma letter_not_body_char c : unicode.IsLetter c = true → is_body_char c = false.
Proof.
  intros Hc. unfold is_body_char. rewrite Hc. cbn [negb].
  by rewrite andb_false_r.
Qed.

Lemma intermediateChar_letter c l :
  0 ≤ c < 128 → unicode.IsLetter c = true →
  ∃ l', intermediateChar c l = Some (Ground, l').
Proof.
  intros H7 Hletter. destruct (decide (c ∈ follow_ups)) as [Hc|Hc].
  - unfold follow_ups in Hc. vm_compute (str _) in Hc.
    rewrite !elem_of_cons, elem_of_nil in Hc.
    destruct Hc as [->|[->|[->|[->|[->|[->|[->|[->|[->|[->|[->|[->|[->|[->|
                   [->|[]]]]]]]]]]]]]]]]; try discriminate Hletter;
      eexists; reflexivity.
  - rewrite follow_up_keys by done. rewrite (letter_not_digit c) by done. eauto.
Qed.

(** X3.  Whatever came before, one letter brings the lexer back to the
    ground state: a letter ends every sequence, recognized or not. *)
Theorem letter_resynchronizes input c :
  unicode.IsLetter (mask c) = true →
  ∃ l, run (input ++ [c]) NewLexer = Some (Ground, l).
Proof.
  intros Hletter. pose proof (mask_range c) as H7.
  destruct (run_inv input) as (state & l & Hrun & Hinv).
  unfold run in *. rewrite run_from_snoc, Hrun.
  destruct (decide (state = Ground)) as [->|Hst].
  - rewrite step_Ground_plain; [eauto|]. intros Hesc. by rewrite Hesc in Hletter.
  - destruct (inv_seq _ _ _ Hinv Hst) as (s & Hseq & Hlen).
    rewrite (step_append _ _ _ _ Hseq).
    destruct (decide (state = IntermediateChar)) as [->|Hst'].
    + apply intermediateChar_letter; [lia | done].
    + eapply (call_to_ground state (mask c) _ (s ++ [mask c]));
        [reflexivity | rewrite length_app; cbn; lia |].
      destruct state; try done;
        first [ right; split; [done|];
                split; [lia | by apply letter_not_body_char]
              | left; rewrite !elem_of_cons; tauto ].
Qed.

Lemma letter_resynchronizes_witness :
  ∃ l, run ((ESC :: str "[1;2;;?") ++ [ch "z"]) NewLexer = Some (Ground, l).
Proof. apply (letter_resynchronizes (ESC :: str "[1;2;;?") (ch "z")). reflexivity. Defined.

(** ** The sequence buffer has no bound *)

(** X4.  After [ESC \[] every printable byte that is neither a blank nor a
    letter is appended to [l.seq] and nothing else happens: the lexer stays
    in the bracket state, sends nothing, and the buffer holds the whole
    input, however long. *)
Theorem bracket_body_accumulates l body :
  Forall (λ c, is_body_char c = true) body →
  run_from Ground (ESC :: ch "[" :: body) l =
    Some (AfterLeftSquareBracket,
          mkLexer (Output l) None None (Some (ESC :: ch "[" :: body)))
  ∧ buffered AfterLeftSquareBracket
      (mkLexer (Output l) None None (Some (ESC :: ch "[" :: body)))
    = (2 + length body)%nat.
Proof.
  intros Hbody. split; [|reflexivity].
  change (ESC :: ch "[" :: body) with ([ESC; ch "["] ++ body).
  rewrite run_from_app.
  rewrite (run_ESC_family l _ AfterLeftSquareBracket) by by apply list_elem_of_here.
  by erewrite run_body.
Qed.

Lemma bracket_body_accumulates_witness :
  run (ESC :: ch "[" :: replicate 40 (ch "7")) NewLexer =
    Some (AfterLeftSquareBracket,
          mkLexer [] None None (Some (ESC :: ch "[" :: replicate 40 (ch "7")))).
Proof.
  refine (proj1 (bracket_body_accumulates NewLexer (replicate 40 (ch "7")) _)).
  by apply Forall_replicate.
Defined.

(** ** The catalog and the grammar *)

Lemma recognized_as_spec seq tv :
  recognized_as seq tv = true →
  ∃ t, lex seq = Some (Ground, [t]) ∧ Value t = tv.
Proof.
  unfold recognized_as.
  destruct (lex seq) as [[[] [|t []]]|]; try discriminate.
  intros Heq%Z.eqb_eq. eauto.
Qed.

(** X5.  No named discriminator is unused: each of the 81 values of the
    const pool is sent by some escape sequence (one of the sequences of the
    package's test), as the single token of that sequence. *)
Theorem every_named_value_is_sent tv :
  tv ∈ named_values →
  ∃ input t,
    (input, tv) ∈ TestVT_cases
    ∧ lex input = Some (Ground, [t]) ∧ Value t = tv.
Proof.
  intros Htv.
  assert (Forall (λ tv, Exists (λ row, row.2 = tv
                                     ∧ recognized_as row.1 tv = true)
                          TestVT_cases) named_values) as Hall.
  { apply (bool_decide_unpack _). by vm_compute. }
  rewrite Forall_forall in Hall.
  destruct (proj1 (Exists_exists _ _) (Hall tv Htv))
    as ([input tv'] & Hrow & <- & Hrec).
  apply recognized_as_spec in Hrec as (t & Hlex & Hval). by exists input, t.
Qed.

Lemma every_named_value_is_sent_witness :
  ∃ input t,
    (input, SetVT52) ∈ TestVT_cases
    ∧ lex input = Some (Ground, [t]) ∧ Value t = SetVT52.
Proof.
  apply (every_named_value_is_sent SetVT52).
  apply (bool_decide_unpack _). by vm_compute.
Defined.

Lemma String_named t : t ∈ named_values → (t, String t) ∈ named.
Proof.
  assert (Forall (λ p, String p.1 = p.2) named) as Hall
    by (apply (bool_decide_unpack _); by vm_compute).
  rewrite Forall_forall in Hall.
  intros ([t' name] & -> & Hin)%list_elem_of_fmap.
  by rewrite (Hall _ Hin).
Qed.

(** X6.  The name identifies the discriminator: [String] returns ["?"]
    exactly for the values that are not named, and two values with the same
    name, one of them named, are equal. *)
Theorem name_identifies_value :
  (∀ t, String t = "?" ↔ t ∉ named_values)
  ∧ (∀ t1 t2, t1 ∈ named_values → String t1 = String t2 → t1 = t2).
Proof.
  assert (Forall (λ p, p.2 ≠ "?") named) as Hmark
    by (apply (bool_decide_unpack _); by vm_compute).
  assert (Forall (λ p1, Forall (λ p2, p1.2 = p2.2 → p1.1 = p2.1) named) named)
    as Hinj by (apply (bool_decide_unpack _); by vm_compute).
  rewrite Forall_forall in Hmark. rewrite Forall_forall in Hinj.
  assert (∀ t, String t = "?" ↔ t ∉ named_values) as Hiff.
  { intros t. split.
    - intros Hq Hin. apply String_named in Hin.
      by apply (Hmark _ Hin).
    - intros Hout. apply String_unnamed. by rewrite <- named_values_range. }
  split; [done|].
  intros t1 t2 H1 Heq.
  destruct (decide (t2 ∈ named_values)) as [H2|H2].
  - pose proof (String_named t1 H1) as Hp1.
    pose proof (String_named t2 H2) as Hp2.
    pose proof (Hinj _ Hp1) as Hrow. rewrite Forall_forall in Hrow.
    by apply (Hrow _ Hp2).
  - apply Hiff in H2. rewrite H2 in Heq. by apply Hiff in Heq.
Qed.

Lemma name_identifies_value_witness :
  String (ch "A") = "?" ∧ (String CursorHome = String (-12) → CursorHome = -12).
Proof.
  split.
  - apply (proj1 name_identifies_value (ch "A")).
    apply (bool_decide_unpack _). by vm_compute.
  - apply (proj2 name_identifies_value CursorHome (-12)).
    apply (bool_decide_unpack _). by vm_compute.
Defined.

(** ** A complete escape sequence is malformed or recognized *)

(** While the lexer stays outside the ground state it sends nothing. *)
Lemma silent_outside_ground pre :
  (∀ p q, pre = p ++ q → p ≠ [] →
     ∃ state l, run p NewLexer = Some (state, l) ∧ state ≠ Ground) →
  ∃ state l, run pre NewLexer = Some (state, l) ∧ inv pre state l ∧ Output l = [].
Proof.
  induction pre as [|b pre IH] using rev_ind; intros Hout.
  - exists Ground, NewLexer. split_and!; [done | by left | done].
  - destruct IH as (state & l & Hrun & Hinv & Hsilent).
    { intros p q -> Hp. apply (Hout p (q ++ [b])); [by rewrite app_assoc | done]. }
    destruct (step_inv pre b state l Hrun Hinv) as (st1 & l1 & Hstep & Hinv' & _).
    destruct (step_turn pre b state l Hrun Hinv)
      as (state' & l' & toks & Hstep' & Houtput & Htoks & _).
    rewrite Hstep in Hstep'. injection Hstep' as <- <-.
    assert (run (pre ++ [b]) NewLexer = Some (st1, l1)) as Hrun'
      by (unfold run in *; by rewrite run_from_snoc, Hrun).
    exists st1, l1. split_and!; [done..|].
    destruct (Hout (pre ++ [b]) []) as (st2 & l2 & Hrun2 & Hst2);
      [by rewrite app_nil_r | by destruct pre |].
    rewrite Hrun' in Hrun2. injection Hrun2 as <- <-.
    destruct Htoks as [->|[? _]]; [|done]. by rewrite Houtput, Hsilent.
Qed.

Lemma mask_7bit_list input :
  Forall (λ b, 0 ≤ b < 128) input → mask <$> input = input.
Proof.
  induction 1 as [|b input Hb _ IH]; [done|].
  cbn. by rewrite mask_7bit, IH.
Qed.

(** X7.  A complete escape sequence has one of two outcomes: it is
    malformed and nothing is sent, or it is recognized and exactly one
    token is sent, a named one whose raw field is the whole sequence. *)
Theorem complete_sequence_outcome input :
  complete input →
  (malformed input ∧ lex input = Some (Ground, []))
  ∨ (¬ malformed input
     ∧ ∃ t, lex input = Some (Ground, [t])
            ∧ Value t ∈ named_values ∧ tok_seq t = Some input).
Proof.
  intros Hcomplete. pose proof Hcomplete as (H7 & [rest ->] & [lf Hfinal] & Hproper).
  destruct rest as [|b pre _] using rev_ind; [by vm_compute in Hfinal|].
  destruct (silent_outside_ground (ESC :: pre)) as (state & l & Hrun & Hinv & Hsilent).
  { intros p q Heq Hp. apply (Hproper p (q ++ [b])); [|done|by destruct q].
    by rewrite app_assoc, <- Heq. }
  destruct (Hproper (ESC :: pre) [b] eq_refl) as (st0 & l0 & Hrun0 & Hst); [done..|].
  rewrite Hrun in Hrun0. injection Hrun0 as <- <-.
  destruct (step_inv (ESC :: pre) b state l Hrun Hinv)
    as (state' & l' & Hstep & _ & Hsends).
  assert (run (ESC :: pre ++ [b]) NewLexer = Some (state', l')) as Hrun'.
  { change (ESC :: pre ++ [b]) with ((ESC :: pre) ++ [b]).
    unfold run in *. by rewrite run_from_snoc, Hrun. }
  rewrite Hrun' in Hfinal. injection Hfinal as -> ->.
  assert (lex (ESC :: pre ++ [b]) = Some (Ground, Output lf)) as Hlex
    by (unfold lex; by rewrite Hrun').
  destruct Hsends as [Hnone|(t & Hone & [[? _]|(_ & Hnamed & sq & Hat & Hseq)])];
    [|done|].
  - left. rewrite Hlex, Hnone, Hsilent. split; [|done].
    apply malformed_iff_silent; [done|]. rewrite Hrun'. cbn [obs].
    by rewrite Hnone, Hsilent.
  - right. rewrite Hlex, Hone, Hsilent. split.
    + intros Hmal. apply malformed_iff_silent in Hmal; [|done].
      rewrite Hrun' in Hmal. cbn [obs] in Hmal.
      rewrite Hone, Hsilent in Hmal. discriminate.
    + exists t. split_and!; [done..|].
      destruct Hat as (pre0 & tl & l0 & Heq & Hsq & Hrun0 & _).
      destruct pre0 as [|p0 pre0].
      * cbn in Heq. rewrite Hseq, <- Heq.
        f_equal. by apply mask_7bit_list.
      * destruct sq as [|x sq]; [done|].
        destruct (Hproper (p0 :: pre0) (x :: sq)) as (st2 & l2 & Hrun2 & Hst2);
          [done..|].
        rewrite Hrun0 in Hrun2. by injection Hrun2 as <- _.
Qed.

Lemma complete_sequence_outcome_witness :
  (malformed (ESC :: str "[H") ∧ lex (ESC :: str "[H") = Some (Ground, []))
  ∨ (¬ malformed (ESC :: str "[H")
     ∧ ∃ t, lex (ESC :: str "[H") = Some (Ground, [t])
            ∧ Value t ∈ named_values ∧ tok_seq t = Some (ESC :: str "[H")).
Proof.
  apply (complete_sequence_outcome (ESC :: str "[H")).
  split_and!.
  - repeat constructor; by vm_compute.
  - by eexists.
  - eexists. by vm_compute.
  - intros pre post Heq Hpre Hpost. vm_compute in Heq.
    destruct pre as [|p1 [|p2 [|p3 pre]]]; simplify_eq/=.
    + eexists _, _. split; [by vm_compute | done].
    + eexists _, _. split; [by vm_compute | done].
    + by destruct pre.
Defined.

(** ** The parameters of a token *)

Lemma ParseUint_loop_nonneg s : ∀ n i,
  0 ≤ n → strconv.ParseUint_loop n s = Some i → 0 ≤ i.
Proof.
  induction s as [|c s IH]; intros n i Hn; cbn [strconv.ParseUint_loop].
  - by intros [= <-].
  - destruct (in_range 48 57 c); [|done].
    destruct (strconv.cutoff <=? n); [done|].
    destruct (_ || _); [done|].
    apply IH. apply Z.mod_pos_bound. done.
Qed.

(** Whatever the text, a scanned byte is a byte. *)
Lemma scanUint8_range inp v rest :
  fmt.scanUint8 inp = Some (v, rest) → 0 ≤ v ≤ 255.
Proof.
  unfold fmt.scanUint8.
  destruct (fmt.SkipSpace inp) as [inp'|]; [|done]. cbn.
  destruct (fmt.scanNumber inp') as [[tok rest']|]; [|done]. cbn.
  destruct (strconv.ParseUint tok) as [i|] eqn:Hparse; [|done]. cbn.
  assert (0 ≤ i) as Hi.
  { unfold strconv.ParseUint in Hparse. destruct tok; [done|].
    by eapply ParseUint_loop_nonneg. }
  rewrite truncate8 by done.
  destruct (Z.eqb_spec (i mod 256) i) as [Heq|]; [|done].
  intros [= <- _]. pose proof (Z.mod_pos_bound i 256). lia.
Qed.

Lemma scan_one_range body n : scan_one body = Some n → 0 ≤ n ≤ 255.
Proof.
  unfold scan_one, fmt.Sscanf, fmt.fmt_d. cbn [fmt.doScanf].
  destruct (fmt.SkipSpace body) as [inp|]; [|done]. cbn.
  destruct (fmt.scanUint8 inp) as [[v rest]|] eqn:Hscan; [|done].
  cbn. intros [= <-]. by eapply scanUint8_range.
Qed.

Lemma scan_two_range body a b :
  scan_two body = Some (a, b) → 0 ≤ a ≤ 255 ∧ 0 ≤ b ≤ 255.
Proof.
  unfold scan_two, fmt.Sscanf, fmt.fmt_d_d. cbn [fmt.doScanf].
  destruct (fmt.SkipSpace body) as [inp|]; [|done]. cbn.
  destruct (fmt.scanUint8 inp) as [[v1 rest1]|] eqn:Hscan1; [|done].
  destruct rest1 as [|r rest1]; [done|].
  destruct (r =? ch ";"); [|done].
  destruct (fmt.SkipSpace rest1) as [inp2|]; [|done]. cbn.
  destruct (fmt.scanUint8 inp2) as [[v2 rest2]|] eqn:Hscan2; [|done].
  cbn. intros [= <- <-].
  split; by eapply scanUint8_range.
Qed.

Lemma skip_fits : sends_fitting skip.
Proof.
  intros l Hps. exists [], None. split; [|by left].
  rewrite app_nil_r, <- Hps. by destruct l.
Qed.

Lemma send_fits tv :
  tv ∉ one_param_values ++ two_param_values → sends_fitting (send tv).
Proof.
  intros Htv l Hps. exists [mkToken tv None (seq l)], None.
  split; [unfold send; by rewrite Hps|]. right. eauto.
Qed.

Lemma one_param_fits body tv :
  tv ∈ one_param_values → sends_fitting (one_param body tv).
Proof.
  intros Htv. unfold one_param. destruct (scan_one body) as [n|] eqn:Hscan.
  - intros l _. exists [mkToken tv (Some [n]) (seq l)], (Some [n]).
    split; [done|]. right. eexists. split; [done|].
    split; [done|]. by eapply scan_one_range.
  - apply skip_fits.
Qed.

Lemma two_params_fits body tv :
  tv ∈ two_param_values → sends_fitting (two_params body tv).
Proof.
  intros Htv. unfold two_params. destruct (scan_two body) as [[a b]|] eqn:Hscan.
  - intros l _. exists [mkToken tv (Some [a; b]) (seq l)], (Some [a; b]).
    split; [done|]. right. eexists. split; [done|].
    split; [done|]. by eapply scan_two_range.
  - apply skip_fits.
Qed.

Lemma switch_fits {K} `{EqDecision K} (x : K) (cases : list (K * M unit)) :
  Forall (λ ka, sends_fitting ka.2) cases →
  sends_fitting (switch x cases skip).
Proof. apply switch_elim, skip_fits. Qed.

Ltac decide_closed := apply (bool_decide_unpack _); vm_compute; exact I.

Ltac fits_cases :=
  repeat first
    [ apply Forall_nil_2
    | apply Forall_cons_2; cbn [snd]
    | apply send_fits; decide_closed
    | apply one_param_fits; decide_closed
    | apply two_params_fits; decide_closed
    | apply switch_fits ].

Lemma term_switch_fits c body : sends_fitting (term_switch c body).
Proof.
  unfold term_switch. apply switch_fits.
  repeat (apply Forall_cons_2; cbn [snd]); try apply Forall_nil_2;
    try (destruct (_ || _)); fits_cases.
Qed.

Lemma ret_turn_fits state l : params l = None → turn_fits (ret state) l.
Proof.
  intros Hps. exists state, [], None. split; [|by left].
  rewrite app_nil_r, <- Hps. by destruct l.
Qed.

Lemma sends_turn_fits (m : M unit) l :
  params l = None → sends_fitting m → turn_fits (m ;; ret Ground) l.
Proof.
  intros Hps Hm. destruct (Hm l Hps) as (toks & ps & Heq & Htoks).
  exists Ground, toks, ps. unfold bind. rewrite Heq. split; [done|].
  destruct Htoks; [by left | by right].
Qed.

(** Outside the ground state, with nil [l.params] and at least two bytes
    in [l.seq], a state function sends nothing or one fitting token. *)
Lemma call_turn_fits state c l s :
  state ≠ Ground → params l = None → seq l = Some s → (2 ≤ length s)%nat →
  turn_fits (call state c) l.
Proof.
  intros Hst Hps Hs Hlen. destruct state; cbn [call]; [done|..].
  - unfold intermediateChar. apply (switch_elim (λ m, turn_fits m l)).
    + destruct (unicode.IsDigit c); by apply ret_turn_fits.
    + repeat (apply Forall_cons_2; cbn [snd]); try apply Forall_nil_2;
        first [ by apply ret_turn_fits
              | apply sends_turn_fits; [done|]; apply send_fits; decide_closed ].
  - unfold afterLeftSquareBracket. destruct (unicode.IsLetter c).
    + pose proof (sends_turn_fits (term_switch c (drop 2 s)) l Hps
                    (term_switch_fits _ _)) as Hok.
      unfold interpTerm, turn_fits, bind in *. by rewrite (seq_from_ok 2 l s).
    + destruct (_ && _); by apply ret_turn_fits.
  - apply sends_turn_fits; [done|]. apply switch_fits. fits_cases.
  - apply sends_turn_fits; [done|]. apply switch_fits. fits_cases.
  - apply sends_turn_fits; [done|]. apply switch_fits. fits_cases.
  - pose proof (sends_turn_fits
      (switch (drop 1 s) [(str "5n", send DevStat); (str "6n", send GetCursor)] skip)
      l Hps ltac:(apply switch_fits; fits_cases)) as Hok.
    unfold escapeDigit, turn_fits, bind in *.
    by rewrite (seq_from_ok 1 l s) by (done || lia).
Qed.

Lemma plain_fits c : 0 ≤ c → params_fit (mkToken c None None).
Proof.
  intros Hc. unfold params_fit. cbn [Params Value].
  assert (Forall (λ v, v < 0) (one_param_values ++ two_param_values)) as Hneg
    by (apply (bool_decide_unpack _); by vm_compute).
  rewrite Forall_forall in Hneg. intros Hin%Hneg. lia.
Qed.

(** X8.  Every token the lexer sends has parameters that fit its value:
    exactly one for [CursorUp], [CursorDn], [CursorRt] and [CursorLf],
    exactly two for [SetWin], [CursorPos] and [HvPos], each in 0-255, and
    nil for every other token, plain characters included. *)
Theorem params_fit_value input :
  ∃ state l,
    run input NewLexer = Some (state, l) ∧ Forall params_fit (Output l).
Proof.
  assert (∃ state l, run input NewLexer = Some (state, l)
            ∧ Forall params_fit (Output l)
            ∧ (state = Ground
               ∨ params l = None ∧ ∃ s, seq l = Some s ∧ (1 ≤ length s)%nat))
    as (state & l & Hrun & Hfit & _); [|by eauto].
  induction input as [|b input (state & l & Hrun & Hfit & Hinv)] using rev_ind.
  - exists Ground, NewLexer. split_and!; [done | constructor | by left].
  - unfold run in *. rewrite run_from_snoc, Hrun.
    destruct (decide (state = Ground)) as [->|Hst].
    + destruct (decide (mask b = ESC)) as [Hb|Hb].
      * rewrite step_Ground_esc by done. eexists _, _.
        split_and!; [done..|]. right. split; [done|]. exists [ESC]. by cbn.
      * rewrite step_Ground_plain by done. eexists _, _.
        split_and!; [done| |by left].
        apply Forall_app. split; [done|]. apply Forall_singleton.
        apply plain_fits, mask_range.
    + destruct Hinv as [?|(Hps & s & Hseq & Hlen)]; [done|].
      rewrite (step_append _ _ _ _ Hseq).
      destruct (call_turn_fits state (mask b)
                  (mkLexer (Output l) (paramCharsAccum l) (params l)
                           (Some (s ++ [mask b])))
                  (s ++ [mask b]) Hst Hps eq_refl)
        as (state' & toks & ps & Hcall & Htoks).
      { rewrite length_app. cbn. lia. }
      rewrite Hcall. eexists _, _. split; [done|]. cbn [Output params seq].
      destruct Htoks as [[-> ->]|(-> & t & -> & Ht)].
      * rewrite app_nil_r. split; [done|]. right. split; [done|].
        eexists. split; [done|]. rewrite length_app. cbn. lia.
      * split; [|by left].
        apply Forall_app. split; [done | by apply Forall_singleton].
Qed.

(** ** Lexing a concatenation *)

Lemma framed_ret {A} (a : A) : framed (ret a).
Proof. by intros o l. Qed.

Lemma framed_bind {A B} (m : M A) (k : A → M B) :
  framed m → (∀ a, framed (k a)) → framed (bind m k).
Proof.
  intros Hm Hk o l. unfold bind. rewrite Hm.
  destruct (m l) as [[a l']|]; [apply Hk | done].
Qed.

Lemma framed_send tv : framed (send tv).
Proof. intros o l. unfold send, prepend. cbn. by rewrite app_assoc. Qed.

Lemma framed_reset : framed reset.
Proof. by intros o l. Qed.

Lemma framed_set_seq s : framed (set_seq s).
Proof. by intros o l. Qed.

Lemma framed_set_params ps : framed (set_params ps).
Proof. by intros o l. Qed.

Lemma framed_seq_from low : framed (seq_from low).
Proof. intros o l. unfold seq_from. cbn. by case_decide. Qed.

Lemma framed_append_seq c : framed (append_seq c).
Proof. intros o l. unfold append_seq. cbn. by destruct (seq l). Qed.

Lemma framed_switch {K A} `{EqDecision K} (x : K) (cases : list (K * M A)) d :
  framed d → Forall (λ ka, framed ka.2) cases → framed (switch x cases d).
Proof. apply (switch_elim framed). Qed.

Ltac framed_tac :=
  repeat first
    [ apply framed_ret | apply framed_send | apply framed_reset
    | apply framed_set_seq | apply framed_set_params | apply framed_seq_from
    | apply framed_append_seq
    | apply framed_bind; [|intros ?]
    | apply framed_switch
    | apply Forall_nil_2
    | apply Forall_cons_2; cbn [snd]
    | match goal with
      | |- framed (if ?b then _ else _) => destruct b
      | |- framed (match ?x with _ => _ end) => destruct x
      end ].

Lemma framed_call state c : framed (call state c).
Proof.
  destruct state; cbn [call];
    unfold ground, intermediateChar, afterLeftSquareBracket, interpTerm,
      term_switch, one_param, two_params, afterLeftParen, afterRightParen,
      escPound, escapeDigit, skip, cases_h, cases_l, cases_m, cases_g,
      cases_K, cases_J, cases_c, cases_y, cases_q;
    framed_tac.
Qed.

Lemma framed_step state c : framed (step state c).
Proof.
  unfold step. apply framed_bind; [apply framed_append_seq|].
  intros _. apply framed_call.
Qed.

Lemma framed_run_from input : ∀ state, framed (run_from state input).
Proof.
  induction input as [|c input IH]; intros state; cbn [run_from].
  - apply framed_ret.
  - apply framed_bind; [apply framed_step | intros state'; apply IH].
Qed.

(** X9.  Lexing composes: when the input [a] leaves the lexer in the
    ground state, the tokens of [a ++ b] are the tokens of [a] followed by
    the tokens of [b], and the state reached is the one [b] alone leads
    to. *)
Theorem lex_app a b la state lb :
  run a NewLexer = Some (Ground, la) →
  run b NewLexer = Some (state, lb) →
  obs (run (a ++ b) NewLexer) = Some (state, Output la ++ Output lb).
Proof.
  intros Ha Hb. unfold run in *. rewrite run_from_app, Ha.
  rewrite (obs_run_from_Ground_stale b la (prepend (Output la) NewLexer))
    by (cbn; by rewrite app_nil_r).
  rewrite framed_run_from, Hb. reflexivity.
Qed.

Lemma lex_app_witness :
  obs (run ((ESC :: str "[2J") ++ (ESC :: str "[13;17H")) NewLexer) =
    Some (Ground,
          [ mkToken ClearScreen None (Some (ESC :: str "[2J"));
            mkToken CursorPos (Some [13; 17]) (Some (ESC :: str "[13;17H")) ]).
Proof.
  refine (lex_app (ESC :: str "[2J") (ESC :: str "[13;17H")
            (mkLexer [mkToken ClearScreen None (Some (ESC :: str "[2J"))]
                     None None (Some (ESC :: str "[2J")))
            Ground
            (mkLexer [mkToken CursorPos (Some [13; 17]) (Some (ESC :: str "[13;17H"))]
                     None (Some [13; 17]) (Some (ESC :: str "[13;17H"))) _ _);
    by vm_compute.
Defined.

(** ** Rendering *)

(** X10.  The rendering of a token does not show a plain character: every
    token the lexer sends either has a named value or renders as the one
    string ["? Params: \[\], Byte Seq: \[\]"], whatever the character. *)
Theorem plain_tokens_render_alike input :
  ∃ state l,
    run input NewLexer = Some (state, l)
    ∧ Forall (λ t, Value t ∈ named_values
                   ∨ Token_String t = "? Params: [], Byte Seq: []") (Output l).
Proof.
  assert (∃ state l, run input NewLexer = Some (state, l) ∧ inv input state l
            ∧ Forall (λ t, Value t ∈ named_values
                           ∨ Token_String t = "? Params: [], Byte Seq: []")
                (Output l))
    as (state & l & Hrun & _ & Hall); [|by eauto].
  induction input as [|b input (state & l & Hrun & Hinv & Hall)] using rev_ind.
  - exists Ground, NewLexer. split_and!; [done | by left | constructor].
  - destruct (step_inv input b state l Hrun Hinv)
      as (state' & l' & Hstep & Hinv' & Hsends).
    exists state', l'. split_and!; [|done|].
    + unfold run in *. by rewrite run_from_snoc, Hrun.
    + destruct Hsends as [->|(t & -> & Ht)]; [done|].
      apply Forall_app. split; [done|]. apply Forall_singleton.
      destruct Ht as [[_ ->]|(_ & Hnamed & _)]; [|by left].
      right. unfold Token_String. cbn [Value Params tok_seq].
      rewrite String_unnamed; [done|]. pose proof (mask_range b). lia.
Qed.

Lemma plain_tokens_render_alike_example :
  (λ r : stateFn * list Token, Token_String <$> r.2)
    <$> lex (str "Hi" ++ ESC :: str "[13;17H") =
    Some [ "? Params: [], Byte Seq: []"; "? Params: [], Byte Seq: []";
           "CursorPos Params: [13 17], Byte Seq: [27 91 49 51 59 49 55 72]" ].
Proof. by vm_compute. Qed.

(** * The streaming interface *)

Lemma stream_run_snoc s tr e :
  stream_run s (tr ++ [e]) =
    match stream_run s tr with
    | Some s' => stream_exec s' e
    | None => None
    end.
Proof.
  revert s. induction tr as [|e' tr IH]; intros s; cbn [app stream_run].
  - by destruct (stream_exec s e).
  - destruct (stream_exec s e'); [apply IH | done].
Qed.

Lemma fed_app a b : fed (a ++ b) = fed a ++ fed b.
Proof. apply omap_app. Qed.

Lemma fed_snoc tr e : fed (tr ++ [e]) = fed tr ++ fed [e].
Proof. apply fed_app. Qed.

Lemma got_snoc tr e : got (tr ++ [e]) = got tr ++ got [e].
Proof. apply omap_app. Qed.

(** What the pure lexer says of a turn taken after the input [consumed]. *)
Lemma turn_new_tokens consumed c state l state' l' :
  run consumed NewLexer = Some (state, l) →
  step state c l = Some (state', l') →
  run (consumed ++ [c]) NewLexer = Some (state', l')
  ∧ Output l' = Output l ++ new_tokens l l'
  ∧ (length (new_tokens l l') ≤ 1)%nat.
Proof.
  intros Hrun Hstep. split.
  { unfold run in *. by rewrite run_from_snoc, Hrun. }
  destruct (run_inv consumed) as (state0 & l0 & Hrun0 & Hinv).
  rewrite Hrun in Hrun0. injection Hrun0 as <- <-.
  destruct (step_turn consumed c state l Hrun Hinv)
    as (st1 & l1 & toks & Hstep1 & Hout & Htoks & _).
  rewrite Hstep in Hstep1. injection Hstep1 as <- <-.
  unfold new_tokens. rewrite Hout, drop_app_length. split; [done|].
  destruct Htoks as [->|(_ & t & ->)]; cbn; lia.
Qed.

(** The invariant of the stream: the bytes sent are those the goroutine
    has consumed followed by those waiting in [l.input]; what the lexer has
    sent on the consumed bytes is what was received, followed by what waits
    in [l.Output], followed by what the turn under way has still to send;
    the channels hold at most ten elements and a turn at most one pending
    token. *)
Lemma stream_invariant tr s :
  stream_run NewStream tr = Some s →
  ∃ consumed state l,
    fed tr = consumed ++ input_chan s
    ∧ run consumed NewLexer = Some (state, l)
    ∧ Output l = got tr ++ Output_chan s ++ pending_of (worker_at s)
    ∧ (worker_at s = Returned
       ∨ worker_at s = Running (pending_of (worker_at s)) state l)
    ∧ (length (input_chan s) ≤ chan_cap)%nat
    ∧ (length (Output_chan s) ≤ chan_cap)%nat
    ∧ (length (pending_of (worker_at s)) ≤ 1)%nat.
Proof.
  revert s. induction tr as [|e tr IH] using rev_ind; intros s.
  - intros [= <-]. exists [], Ground, NewLexer. cbn.
    split_and!; [done..|by right|lia|lia|lia].
  - rewrite stream_run_snoc.
    destruct (stream_run NewStream tr) as [s0|]; [|done].
    destruct (IH s0 eq_refl)
      as (consumed & state & l & Hfed & Hrun & Hout & Hw & Hin & Hcap & Hpend).
    rewrite fed_snoc, got_snoc. unfold chan_cap in *.
    destruct s0 as [inp out w cl]. cbn [input_chan Output_chan worker_at closed] in *.
    destruct e as [c| | |t| |]; cbn [stream_exec input_chan Output_chan worker_at closed].
    + (* SendChar *)
      destruct cl; [done|]. case_decide as Hroom; [|done]. intros [= <-].
      exists consumed, state, l. cbn. rewrite Hfed, app_nil_r in *.
      split_and!; [by rewrite app_assoc|done..| |done|done].
      rewrite length_app. cbn. unfold chan_cap in Hroom. lia.
    + (* a turn of the loop *)
      destruct w as [[|??] st lx|]; [|done..].
      destruct inp as [|c inp]; [done|].
      destruct Hw as [?|[= -> ->]]; [done|].
      destruct (step state c l) as [[state' l']|] eqn:Hstep; [|done].
      intros [= <-].
      destruct (turn_new_tokens consumed c state l state' l' Hrun Hstep)
        as (Hrun' & Hout' & Hone).
      exists (consumed ++ [c]), state', l'. cbn in *.
      rewrite !app_nil_r in *.
      split_and!; [by rewrite Hfed, <- app_assoc|done| |by right|lia|done|done].
      by rewrite Hout', Hout, <- app_assoc.
    + (* a send completes *)
      destruct w as [[|t pending] st lx|]; [done| |done].
      case_decide as Hroom; [|done]. intros [= <-].
      destruct Hw as [?|[= -> ->]]; [done|].
      exists consumed, state, l. cbn in *. rewrite !app_nil_r in *.
      split_and!; [done|done| |by right|done| |lia].
      * rewrite Hout, <- !app_assoc. done.
      * rewrite length_app. cbn. unfold chan_cap in Hroom. lia.
    + (* GetToken *)
      destruct out as [|t' out]; [done|]. case_decide as Heq; [|done].
      subst t'. intros [= <-].
      exists consumed, state, l. cbn in *. rewrite !app_nil_r in *.
      split_and!; [done|done| |done|done|lia|done].
      by rewrite Hout, <- !app_assoc.
    + (* Rundown *)
      destruct w as [[|??] st lx|]; [|done..]. intros [= <-].
      exists consumed, state, l. cbn in *. rewrite !app_nil_r in *.
      split_and!; [done..|by left|done|done|lia].
    + (* the channels are closed *)
      destruct w as [|]; [done|]. destruct cl; [done|]. intros [= <-].
      exists consumed, state, l. cbn in *. rewrite !app_nil_r in *.
      split_and!; done.
Qed.

Lemma stream_run_app s a b :
  stream_run s (a ++ b) =
    match stream_run s a with
    | Some s' => stream_run s' b
    | None => None
    end.
Proof.
  revert s. induction a as [|e a IH]; intros s; cbn [app stream_run]; [done|].
  destruct (stream_exec s e); [apply IH | done].
Qed.

(** X11.  The stream delivers what the lexer computes, in order and without
    loss: after any sequence of events that can happen, the bytes sent are
    the bytes consumed followed by those queued in [l.input], and the tokens
    of the lexer on the consumed bytes are those received, then those
    queued in [l.Output], then the one the current turn is about to send. *)
Theorem stream_delivers_lexer_tokens tr s :
  stream_run NewStream tr = Some s →
  ∃ consumed state,
    fed tr = consumed ++ input_chan s
    ∧ lex consumed =
        Some (state, got tr ++ Output_chan s ++ pending_of (worker_at s)).
Proof.
  intros Hs.
  destruct (stream_invariant tr s Hs)
    as (consumed & state & l & Hfed & Hrun & Hout & _).
  exists consumed, state. split; [done|].
  unfold lex. by rewrite Hrun, Hout.
Qed.

Lemma stream_delivers_lexer_tokens_witness :
  let tr := [EvSendChar 0x1b; EvSendChar 0x63; EvLex; EvSendChar 0x41; EvLex;
             EvSend; EvGetToken (mkToken Reset None (Some [0x1b; 0x63]))] in
  ∃ s, stream_run NewStream tr = Some s
       ∧ ∃ consumed state,
           fed tr = consumed ++ input_chan s
           ∧ lex consumed =
               Some (state, got tr ++ Output_chan s ++ pending_of (worker_at s)).
Proof.
  intros tr. eexists. split; [vm_compute; reflexivity|].
  apply stream_delivers_lexer_tokens. vm_compute. reflexivity.
Defined.

(** Reading until [l.Output] is empty. *)
Lemma drain_Output inp out w cl :
  stream_run (mkStream inp out w cl) (EvGetToken <$> out)
  = Some (mkStream inp [] w cl).
Proof.
  induction out as [|t out IH]; [done|].
  cbn [fmap list_fmap stream_run stream_exec Output_chan].
  rewrite decide_True by done. apply IH.
Qed.

(** Letting the turn under way send its tokens, each read at once. *)
Lemma drain_pending inp pending state l cl :
  stream_run (mkStream inp [] (Running pending state l) cl)
             (pending ≫= λ t, [EvSend; EvGetToken t])
  = Some (mkStream inp [] (Running [] state l) cl).
Proof.
  induction pending as [|t pending IH]; [done|].
  cbn [mbind list_bind app stream_run stream_exec worker_at Output_chan
       input_chan closed length].
  rewrite decide_True by (unfold chan_cap; lia).
  cbn [app stream_run stream_exec Output_chan].
  rewrite decide_True by done. apply IH.
Qed.

Lemma fed_GetToken out : fed (EvGetToken <$> out) = [].
Proof. by induction out. Qed.

Lemma fed_pending (pending : list Token) :
  fed (pending ≫= λ t, [EvSend; EvGetToken t]) = [].
Proof. by induction pending. Qed.

(** From a state of the running goroutine the queued bytes can all be lexed
    and every token read, with no further byte sent. *)
Lemma drain_input inp : ∀ consumed state l cl,
  run consumed NewLexer = Some (state, l) →
  ∃ tr' state' l',
    fed tr' = []
    ∧ stream_run (mkStream inp [] (Running [] state l) cl) tr'
      = Some (mkStream [] [] (Running [] state' l') cl).
Proof.
  induction inp as [|c inp IH]; intros consumed state l cl Hrun.
  - by exists [], state, l.
  - destruct (run_inv consumed) as (state0 & l0 & Hrun0 & Hinv).
    rewrite Hrun in Hrun0. injection Hrun0 as <- <-.
    destruct (step_turn consumed c state l Hrun Hinv)
      as (state' & l' & toks & Hstep & _).
    destruct (turn_new_tokens consumed c state l state' l' Hrun Hstep)
      as (Hrun' & _).
    destruct (IH (consumed ++ [c]) state' l' cl Hrun') as (tr' & st2 & l2 & Hfed & Htr).
    exists (EvLex :: (new_tokens l l' ≫= λ t, [EvSend; EvGetToken t]) ++ tr'),
      st2, l2.
    split.
    + change (fed ((new_tokens l l' ≫= λ t, [EvSend; EvGetToken t]) ++ tr') = []).
      by rewrite fed_app, Hfed, fed_pending.
    + cbn [stream_run stream_exec worker_at input_chan Output_chan closed].
      rewrite Hstep, stream_run_app, drain_pending. exact Htr.
Qed.

(** X12.  As long as [run] has not returned, a reader that keeps reading
    gets everything: the events can be continued, with no further byte
    sent, until both channels are empty, and the tokens received are then
    exactly those of the lexer on all the bytes sent. *)
Theorem stream_can_drain tr s :
  stream_run NewStream tr = Some s →
  worker_at s ≠ Returned →
  ∃ tr' s' state,
    fed tr' = []
    ∧ stream_run NewStream (tr ++ tr') = Some s'
    ∧ input_chan s' = [] ∧ Output_chan s' = []
    ∧ lex (fed tr) = Some (state, got (tr ++ tr')).
Proof.
  intros Hs Hw.
  destruct (stream_invariant tr s Hs)
    as (consumed & state & l & Hfed & Hrun & Hout & [?|Hrunning] & _); [done|].
  destruct s as [inp out w cl]. cbn [input_chan Output_chan worker_at] in *.
  destruct (drain_input inp consumed state l cl Hrun)
    as (tr3 & state' & l' & Hfed3 & Htr3).
  set (tr1 := EvGetToken <$> out).
  set (tr2 := pending_of w ≫= λ t, [EvSend; EvGetToken t]).
  assert (Hall : stream_run NewStream (tr ++ tr1 ++ tr2 ++ tr3)
                 = Some (mkStream [] [] (Running [] state' l') cl)).
  { rewrite stream_run_app, Hs. subst tr1. rewrite stream_run_app, drain_Output.
    rewrite Hrunning. subst tr2. by rewrite stream_run_app, drain_pending. }
  assert (Hnone : fed (tr1 ++ tr2 ++ tr3) = []).
  { subst tr1 tr2. by rewrite !fed_app, Hfed3, fed_GetToken, fed_pending. }
  destruct (stream_invariant _ _ Hall)
    as (consumed' & st2 & l2 & Hfed' & Hrun' & Hout' & _).
  cbn [input_chan Output_chan worker_at pending_of] in *.
  rewrite !app_nil_r in *.
  exists (tr1 ++ tr2 ++ tr3), (mkStream [] [] (Running [] state' l') cl), st2.
  split_and!; [done..|].
  assert (Hsame : fed (tr ++ tr1 ++ tr2 ++ tr3) = fed tr).
  { by rewrite fed_app, Hnone, app_nil_r. }
  unfold lex. by rewrite <- Hsame, Hfed', Hrun', Hout'.
Qed.

Lemma stream_can_drain_witness :
  let tr := [EvSendChar 0x41; EvSendChar 0x1b; EvLex; EvSendChar 0x63] in
  ∃ tr' s' state,
    fed tr' = []
    ∧ stream_run NewStream (tr ++ tr') = Some s'
    ∧ input_chan s' = [] ∧ Output_chan s' = []
    ∧ lex (fed tr) = Some (state, got (tr ++ tr')).
Proof.
  intros tr. eapply stream_can_drain; [vm_compute; reflexivity|].
  vm_compute. discriminate.
Defined.

(** Bytes other than ESC, lexed from the ground state, give a token each. *)
Lemma run_plain_length input : ∀ l,
  Forall (λ c, mask c ≠ ESC) input →
  ∃ l', run_from Ground input l = Some (Ground, l')
        ∧ length (Output l') = (length (Output l) + length input)%nat.
Proof.
  induction input as [|c input IH]; intros l Hin.
  - exists l. split; [done | cbn; lia].
  - apply Forall_cons in Hin as [Hc Hin].
    cbn [run_from]. unfold bind. rewrite step_Ground_plain by done.
    destruct (IH (sent l [mkToken (mask c) None None] None None) Hin)
      as (l' & -> & Hlen).
    exists l'. split; [done|].
    rewrite Hlen. cbn. rewrite length_app. cbn. lia.
Qed.

(** X13.  A writer whose tokens nobody reads comes to a halt: of bytes
    other than ESC, each of which gives a token, at most twenty-one are
    accepted by [SendChar] before a token is received (ten tokens queued in
    [l.Output], one held by the blocked [send], ten bytes queued in
    [l.input]). *)
Theorem writer_without_reader_stalls tr s :
  stream_run NewStream tr = Some s →
  got tr = [] →
  Forall (λ c, mask c ≠ ESC) (fed tr) →
  (length (fed tr) ≤ 21)%nat.
Proof.
  intros Hs Hgot Hplain.
  destruct (stream_invariant tr s Hs)
    as (consumed & state & l & Hfed & Hrun & Hout & _ & Hin & Hcap & Hpend).
  rewrite Hfed in Hplain. apply Forall_app in Hplain as [Hplain _].
  destruct (run_plain_length consumed NewLexer Hplain) as (l' & Hrun' & Hlen).
  unfold run in Hrun. rewrite Hrun in Hrun'. injection Hrun' as _ <-.
  rewrite Hout, Hgot in Hlen. cbn in Hlen. rewrite length_app in Hlen.
  rewrite Hfed, length_app. unfold chan_cap in *. lia.
Qed.

(** The bound is reached, and the twenty-second [SendChar] does not
    complete. *)
Lemma writer_without_reader_stalls_witness :
  let tr := (replicate 10 0x41 ≫= λ c, [EvSendChar c; EvLex; EvSend])
            ++ [EvSendChar 0x41; EvLex] ++ (EvSendChar <$> replicate 10 0x41) in
  length (fed tr) = 21%nat
  ∧ (length (fed tr) ≤ 21)%nat
  ∧ ∃ s, stream_run NewStream tr = Some s
         ∧ stream_exec s (EvSendChar 0x41) = None
         ∧ stream_exec s EvLex = None
         ∧ stream_exec s EvSend = None.
Proof.
  intros tr. split; [by vm_compute|]. split.
  - eapply writer_without_reader_stalls.
    + vm_compute. reflexivity.
    + vm_compute. reflexivity.
    + apply (bool_decide_unpack _). by vm_compute.
  - eexists. split; [vm_compute; reflexivity|]. by vm_compute.
Defined.

(** Once [run] has returned nothing is lexed or sent any more. *)
Lemma returned_is_final tr : ∀ s s',
  worker_at s = Returned →
  stream_run s tr = Some s' →
  worker_at s' = Returned
  ∧ got tr ++ Output_chan s' = Output_chan s
  ∧ input_chan s' = input_chan s ++ fed tr.
Proof.
  induction tr as [|e tr IH]; intros s s' Hw.
  - intros [= <-]. cbn. by rewrite app_nil_r.
  - cbn [stream_run].
    destruct (stream_exec s e) as [s1|] eqn:He; [|done]. intros Htr.
    destruct s as [inp out w cl]. cbn [worker_at] in Hw. subst w.
    destruct e as [c| | |t| |];
      cbn [stream_exec worker_at input_chan Output_chan closed] in He.
    + destruct cl; [done|]. case_decide; [|done]. injection He as <-.
      apply IH in Htr as (? & ? & ->); [|done].
      cbn. split_and!; [done..|]. by rewrite <- app_assoc.
    + done.
    + done.
    + destruct out as [|t' out]; [done|]. case_decide; [|done].
      subst t'. injection He as <-.
      apply IH in Htr as (? & Hout & ?); [|done].
      cbn [Output_chan input_chan] in *. split_and!; [done| |done].
      change (t :: (got tr ++ Output_chan s') = t :: out). by rewrite Hout.
    + done.
    + destruct cl; [done|]. injection He as <-.
      apply IH in Htr as (? & ? & ?); [|done]. by cbn in *.
Qed.

(** X14.  [Rundown] abandons what has not been lexed: once [run] has taken
    the rundown signal it stays returned, the tokens received afterwards
    are those that were queued in [l.Output], so that all tokens delivered
    are those of the bytes consumed before the signal, and the bytes then
    queued in [l.input] or sent later stay in the channel. *)
Theorem Rundown_abandons_queued_bytes tr1 tr2 s1 s :
  stream_run NewStream tr1 = Some s1 →
  stream_run s1 (EvRundown :: tr2) = Some s →
  worker_at s = Returned
  ∧ input_chan s = input_chan s1 ++ fed tr2
  ∧ ∃ consumed state,
      fed tr1 = consumed ++ input_chan s1
      ∧ lex consumed = Some (state, got tr1 ++ got tr2 ++ Output_chan s).
Proof.
  intros Hs1 Hs.
  destruct (stream_invariant tr1 s1 Hs1)
    as (consumed & state & l & Hfed & Hrun & Hout & _).
  cbn [stream_run] in Hs.
  destruct (stream_exec s1 EvRundown) as [s2|] eqn:He; [|done].
  destruct s1 as [inp out w cl].
  cbn [stream_exec worker_at input_chan Output_chan closed] in *.
  destruct w as [[|??] st lx|]; [|done..]. injection He as <-.
  apply returned_is_final in Hs as (Hw & Hgot & Hin); [|done].
  cbn [input_chan Output_chan] in *.
  split_and!; [done..|].
  exists consumed, state. split; [done|].
  unfold lex. rewrite Hrun, Hout, Hgot. cbn. by rewrite app_nil_r.
Qed.

(** A byte sent but not yet received by [run] when the signal is taken is
    never lexed, though [SendChar] had returned. *)
Lemma Rundown_abandons_queued_bytes_witness :
  let tr1 := [EvSendChar 0x41; EvLex; EvSend; EvSendChar 0x42] in
  let tr2 := [EvGetToken (mkToken 0x41 None None); EvClose] in
  ∃ s1 s,
    stream_run NewStream tr1 = Some s1
    ∧ stream_run s1 (EvRundown :: tr2) = Some s
    ∧ worker_at s = Returned
    ∧ input_chan s = [0x42]
    ∧ got tr1 ++ got tr2 ++ Output_chan s = [mkToken 0x41 None None].
Proof.
  intros tr1 tr2. eexists. eexists.
  split; [vm_compute; reflexivity|]. split; [vm_compute; reflexivity|].
  split; [|by vm_compute].
  refine (proj1 (Rundown_abandons_queued_bytes tr1 tr2 _ _ _ _));
    vm_compute; reflexivity.
Defined.

(** X15.  [Rundown] needs the reader: while the goroutine of [run] is
    blocked in [send] on a full [l.Output], the rundown signal is not
    taken until a token has been received, whatever else happens. *)
Theorem Rundown_waits_for_reader tr : ∀ s s' t pending state l,
  worker_at s = Running (t :: pending) state l →
  length (Output_chan s) = chan_cap →
  stream_run s tr = Some s' →
  got tr = [] →
  worker_at s' = worker_at s ∧ EvRundown ∉ tr.
Proof.
  induction tr as [|e tr IH]; intros s s' t pending state l Hw Hfull.
  - intros [= <-] _. split; [done | apply not_elem_of_nil].
  - cbn [stream_run].
    destruct (stream_exec s e) as [s1|] eqn:He; [|done]. intros Htr Hgot.
    destruct s as [inp out w cl].
    cbn [worker_at Output_chan] in Hw, Hfull. subst w.
    destruct e as [c| | |t'| |]; cbn [got omap] in Hgot;
      cbn [stream_exec worker_at input_chan Output_chan closed] in He;
      try done.
    + destruct cl; [done|]. case_decide; [|done]. injection He as <-.
      destruct (IH _ s' t pending state l
                  (eq_refl : worker_at (mkStream (inp ++ [c]) out
                                 (Running (t :: pending) state l) false) = _)
                  Hfull Htr Hgot) as [Hsame Hno].
      split; [done|]. rewrite not_elem_of_cons. done.
    + case_decide as Hroom; [|done]. unfold chan_cap in *. lia.
Qed.

Lemma Rundown_waits_for_reader_witness :
  let tr0 := (replicate 10 0x41 ≫= λ c, [EvSendChar c; EvLex; EvSend])
             ++ [EvSendChar 0x41; EvLex] in
  let tr := [EvSendChar 0x42; EvSendChar 0x43] in
  ∃ s s', stream_run NewStream tr0 = Some s
          ∧ stream_run s tr = Some s'
          ∧ worker_at s' = worker_at s ∧ EvRundown ∉ tr.
Proof.
  intros tr0 tr. eexists. eexists.
  split; [vm_compute; reflexivity|]. split; [vm_compute; reflexivity|].
  eapply Rundown_waits_for_reader; vm_compute; reflexivity.
Defined.
